(** * ErrorRecoveryManager: retry with exponential backoff and circuit breaker

    A shallow embedding of the [ErrorRecoveryManager] class of [src/app.js]
    (lines 1846-2036; [src/ui.js] lines 227-417 holds the same class, word
    for word, behind an [export]).

    Modelling choices, all visible in the definitions below:
    - JavaScript numbers are read as exact numbers: delays are rationals
      ([Q]), counters and timestamps are integers ([Z]), [maxRetries] is a
      natural number.  Rounding, overflow to [Infinity] and [NaN] are
      outside the model.
    - [this.retryAttempts] is a [Map] from strings to values that are
      numbers, strings or references to circuit objects; circuit objects
      live in a heap and are mutated through their reference, as in the
      source.
    - What a callback throws is an [Error] object with a [message];
      [shouldRetry] answers with a boolean.
    - The caller's callbacks ([operation], [shouldRetry], [onRetry]) and
      the timer behind [this.delay] are arbitrary total transformers of the
      whole state (registry, heap, clock, rest of the world): whatever runs
      while the executor awaits is part of them.
    - Every call of a callback, every wait and every console line is
      recorded in a trace, so that "invoked exactly n times" and "did not
      wait" are statements about the trace. *)

From Stdlib Require Import QArith Qminmax Qpower.
From stdpp Require Import gmap strings pretty list.

Open Scope string_scope.
Open Scope list_scope.

(** ** Values *)

(** A thrown [Error] object: its constructor's name and its [message]. *)
Record Error := mkError { errName : string; message : string }.

(** [new Error(msg)] *)
Definition newError (msg : string) : Error := mkError "Error" msg.

(** A [TypeError] raised by the engine itself (strict mode: class bodies
    are always strict).  The wording of its message is the engine's. *)
Definition newTypeError (msg : string) : Error := mkError "TypeError" msg.

(** Result of calling (and awaiting) a function: a value or an exception. *)
Inductive Outcome (A : Type) : Type :=
| Returned (a : A)
| Thrown (e : Error).
Arguments Returned {A} a.
Arguments Thrown {A} e.

(** ['closed'], ['open'], ['half-open'] *)
Inductive CircuitMode := Closed | Open | HalfOpen.

(** The object literal created by [getCircuitState]. *)
Record CircuitState := mkCircuit {
  state : CircuitMode;
  failureCount : Z;
  lastFailureTime : Z;
  lastSuccessTime : Z
}.

#[global] Instance CircuitState_inhabited : Inhabited CircuitState :=
  populate (mkCircuit Closed 0 0 0).

#[global] Instance CircuitMode_eq_dec : EqDecision CircuitMode.
Proof. solve_decision. Defined.

(** Heap addresses of circuit objects. *)
Definition loc := nat.

(** What a slot of the [retryAttempts] map can hold: a number (the retry
    failure counter), a string (what [object + 1] evaluates to), or a
    reference to a circuit object. *)
Inductive Entry :=
| ENum (n : Z)
| EStr (s : string)
| ECircuit (l : loc).

(** The machine state the manager and its callbacks act on. *)
Record State (W : Type) := mkState {
  retryAttempts : gmap string Entry;
  heap : gmap loc CircuitState;
  now : Z;
  world : W
}.
Arguments mkState {W} _ _ _ _.
Arguments retryAttempts {W} _.
Arguments heap {W} _.
Arguments now {W} _.
Arguments world {W} _.

Definition set_retryAttempts {W} (f : gmap string Entry → gmap string Entry)
    (s : State W) : State W :=
  mkState (f (retryAttempts s)) (heap s) (now s) (world s).

Definition set_heap {W} (f : gmap loc CircuitState → gmap loc CircuitState)
    (s : State W) : State W :=
  mkState (retryAttempts s) (f (heap s)) (now s) (world s).

(** ** Console lines, one constructor per [console.log] / [console.error]
    call of the class, with the values it interpolates. *)
Inductive LogLine :=
| LogAttempt (operationName : string) (attempt total : nat)
| LogSuccess (operationName : string) (attempt : nat)
| ErrFailed (operationName : string) (attempt : nat) (error : Error)
| LogNotRetryable (operationName : string)
| LogMaxRetriesExceeded (operationName : string)
| LogRetrying (operationName : string) (delay : Q)
| ErrRetryCallbackFailed (operationName : string) (callbackError : Error)
| LogHalfOpen (operationName : string)
| LogCircuitReset (operationName : string)
| LogCircuitOpened (operationName : string) (failures : Z).

(** ** Observable events *)
Inductive Event (V : Type) : Type :=
| EvAttempt (attempt : nat) (r : Outcome V)
    (* [await operation(attempt)] in executeWithRetry *)
| EvShouldRetry (error : Error) (attempt : nat) (r : Outcome bool)
| EvOnRetry (error : Error) (attempt : nat) (delay : Q) (r : Outcome unit)
| EvDelay (ms : Q)
    (* [await this.delay(ms)] *)
| EvCall (r : Outcome V)
    (* [await operation()] in executeWithCircuitBreaker *)
| EvConsole (line : LogLine).
Arguments EvAttempt {V} attempt r.
Arguments EvShouldRetry {V} error attempt r.
Arguments EvOnRetry {V} error attempt delay r.
Arguments EvDelay {V} ms.
Arguments EvCall {V} r.
Arguments EvConsole {V} line.

(** ** Callback types *)
Definition Operation (V W : Type) := nat → State W → Outcome V * State W.
Definition ShouldRetry (W : Type) := Error → nat → State W → Outcome bool * State W.
Definition OnRetry (W : Type) := Error → nat → Q → State W → Outcome unit * State W.
Definition Thunk (V W : Type) := State W → Outcome V * State W.

(** The [options] argument of [executeWithRetry]; [None] is a property that
    is absent (or [null] for the two callbacks). *)
Record RetryOptions (V W : Type) := mkRetryOptions {
  maxRetries : option nat;
  baseDelay : option Q;
  backoffMultiplier : option Q;
  maxDelay : option Q;
  onRetry : option (OnRetry W);
  shouldRetry : option (ShouldRetry W)
}.
Arguments mkRetryOptions {V W} _ _ _ _ _ _.
Arguments maxRetries {V W} _.
Arguments baseDelay {V W} _.
Arguments backoffMultiplier {V W} _.
Arguments maxDelay {V W} _.
Arguments onRetry {V W} _.
Arguments shouldRetry {V W} _.

(** The [options] argument of [executeWithCircuitBreaker]
    ([monitoringPeriod] is destructured but never read). *)
Record CircuitOptions := mkCircuitOptions {
  failureThreshold : option Z;
  resetTimeout : option Z
}.

(** Fields set by the constructor. *)
Definition this_maxRetries : nat := 3.
Definition this_baseDelay : Q := 1000.
Definition this_maxDelay : Q := 10000.
Definition this_backoffMultiplier : Q := 2.

(** ** Backoff

    [Math.min(baseDelay * Math.pow(backoffMultiplier, attempt - 1), maxDelay)] *)
Definition backoffDelay (attempt : nat) (baseDelay backoffMultiplier maxDelay : Q) : Q :=
  Qmin (baseDelay * Qpower backoffMultiplier (Z.of_nat attempt - 1)) maxDelay.

(** The formula in the words of the specification: the multiplier raised to
    [attempt - 1] by repeated multiplication. *)
Fixpoint spec_pow (x : Q) (k : nat) : Q :=
  match k with
  | O => 1
  | S k' => x * spec_pow x k'
  end.

Definition spec_delay (attempt : nat) (baseDelay multiplier maxDelay : Q) : Q :=
  Qmin (baseDelay * spec_pow multiplier (attempt - 1)) maxDelay.

(** ** Coercions of [(x || 0) + 1] *)

(** [x || 0] where [x] is [map.get(key)]: [undefined], [0] and [""] are
    falsy, objects are truthy. *)
Definition js_or_zero (x : option Entry) : Entry :=
  match x with
  | None => ENum 0
  | Some (ENum n) => ENum n
  | Some (EStr s) => if decide (s = "") then ENum 0 else EStr s
  | Some (ECircuit l) => ECircuit l
  end.

(** [x + 1]: numeric addition on a number, concatenation on a string, and
    on an object its default string ["[object Object]"] concatenated with
    ["1"]. *)
Definition js_plus_one (x : Entry) : Entry :=
  match x with
  | ENum n => ENum (n + 1)
  | EStr s => EStr (s +:+ "1")
  | ECircuit _ => EStr ("[object Object]" +:+ "1")
  end.

(** [new Error(`${operationName} failed after ${maxRetries + 1} attempts.
    Last error: ${lastError.message}`)] *)
Definition retry_failure (operationName : string) (maxRetries : nat)
    (lastError : Error) : Error :=
  newError (operationName +:+ " failed after " +:+ pretty (maxRetries + 1)%nat
              +:+ " attempts. Last error: " +:+ message lastError).

(** ** The manager *)

Section Manager.
Context {V W : Type}.

(** What happens to the state while the task is suspended in
    [setTimeout(resolve, ms)]: the host's event loop. *)
Variable timer : Q → State W → State W.

(** Computations of the manager: they read and write the state and emit
    events. *)
Definition M (A : Type) : Type := State W → A * State W * list (Event V).

#[global] Instance M_ret : MRet M := λ A a s, (a, s, []).
#[global] Instance M_bind : MBind M := λ A B f m s,
  let '(a, s1, t1) := m s in
  let '(b, s2, t2) := f a s1 in
  (b, s2, t1 ++ t2).

Definition emit (e : Event V) : M unit := λ s, (tt, s, [e]).
Definition console (line : LogLine) : M unit := emit (EvConsole line).

(** [this.retryAttempts.get(key)], [.delete(key)], [.set(key, v)] *)
Definition registry_get (key : string) : M (option Entry) :=
  λ s, (retryAttempts s !! key, s, []).
Definition registry_delete (key : string) : M unit :=
  λ s, (tt, set_retryAttempts (delete key) s, []).
Definition registry_set (key : string) (v : Entry) : M unit :=
  λ s, (tt, set_retryAttempts (<[key := v]>) s, []).

(** [Date.now()] *)
Definition Date_now : M Z := λ s, (now s, s, []).

(** [await this.delay(ms)] *)
Definition this_delay (ms : Q) : M unit :=
  λ s, (tt, timer ms s, [EvDelay ms]).

(** [await operation(attempt)] *)
Definition call_operation (operation : Operation V W) (attempt : nat) : M (Outcome V) :=
  λ s, let '(r, s') := operation attempt s in (r, s', [EvAttempt attempt r]).

(** [shouldRetry(error, attempt)] *)
Definition call_shouldRetry (f : ShouldRetry W) (error : Error) (attempt : nat) : M (Outcome bool) :=
  λ s, let '(r, s') := f error attempt s in (r, s', [EvShouldRetry error attempt r]).

(** [await onRetry(error, attempt, delay)] *)
Definition call_onRetry (f : OnRetry W) (error : Error) (attempt : nat) (delay : Q) : M (Outcome unit) :=
  λ s, let '(r, s') := f error attempt delay s in (r, s', [EvOnRetry error attempt delay r]).

(** How the [for] loop of [executeWithRetry] is left. *)
Inductive LoopExit :=
| LoopReturn (result : V)            (* [return result] *)
| LoopRaise (e : Error)              (* an exception escaping the [catch] block *)
| LoopEnd (lastError : option Error) (* [break], or the loop condition is false *).

Section Retry.
Variable operationName : string.
Variable operation : Operation V W.
Variables (maxRetries' : nat) (baseDelay' backoffMultiplier' maxDelay' : Q).
Variable onRetry' : option (OnRetry W).
Variable shouldRetry' : option (ShouldRetry W).

(** [shouldRetry && !shouldRetry(error, attempt)] *)
Definition not_retryable (error : Error) (attempt : nat) : M (Outcome bool) :=
  match shouldRetry' with
  | None => mret (Returned false)
  | Some f =>
      r ← call_shouldRetry f error attempt;
      match r with
      | Returned b => mret (Returned (negb b))
      | Thrown e => mret (Thrown e)
      end
  end.

(** [if (onRetry) { try { await onRetry(error, attempt, delay); }
     catch (callbackError) { console.error(...); } }] *)
Definition notify_retry (error : Error) (attempt : nat) (delay : Q) : M unit :=
  match onRetry' with
  | None => mret tt
  | Some f =>
      r ← call_onRetry f error attempt delay;
      match r with
      | Returned _ => mret tt
      | Thrown callbackError =>
          console (ErrRetryCallbackFailed operationName callbackError)
      end
  end.

(** The body of [for (let attempt = 1; attempt <= maxRetries + 1; attempt++)],
    run over the values [attempt] takes, in order. *)
Fixpoint retryLoop (attempts : list nat) (lastError : option Error) : M LoopExit :=
  match attempts with
  | [] => mret (LoopEnd lastError)
  | attempt :: rest =>
      console (LogAttempt operationName attempt (maxRetries' + 1));;
      r ← call_operation operation attempt;
      match r with
      | Returned result =>
          registry_delete operationName;;
          console (LogSuccess operationName attempt);;
          mret (LoopReturn result)
      | Thrown error =>
          console (ErrFailed operationName attempt error);;
          stop ← not_retryable error attempt;
          match stop with
          | Thrown e => mret (LoopRaise e)
          | Returned true =>
              console (LogNotRetryable operationName);;
              mret (LoopEnd (Some error))
          | Returned false =>
              if decide (maxRetries' < attempt)%nat then (* [attempt > maxRetries] *)
                console (LogMaxRetriesExceeded operationName);;
                mret (LoopEnd (Some error))
              else
                let delay := backoffDelay attempt baseDelay' backoffMultiplier' maxDelay' in
                console (LogRetrying operationName delay);;
                notify_retry error attempt delay;;
                this_delay delay;;
                retryLoop rest (Some error)
          end
      end
  end.

(** The statements after the loop. *)
Definition after_loop (lastError : option Error) : M (Outcome V) :=
  old ← registry_get operationName;
  registry_set operationName (js_plus_one (js_or_zero old));;
  match lastError with
  | Some e => mret (Thrown (retry_failure operationName maxRetries' e))
  | None =>
      (* [lastError.message] with [lastError] undefined *)
      mret (Thrown (newTypeError
        "Cannot read properties of undefined (reading 'message')"))
  end.

Definition retry_with : M (Outcome V) :=
  exit ← retryLoop (seq 1 (maxRetries' + 1)) None;
  match exit with
  | LoopReturn result => mret (Returned result)
  | LoopRaise e => mret (Thrown e)
  | LoopEnd lastError => after_loop lastError
  end.
End Retry.

(** [async executeWithRetry(operationName, operation, options = {})] *)
Definition executeWithRetry (operationName : string) (operation : Operation V W)
    (options : RetryOptions V W) : M (Outcome V) :=
  retry_with operationName operation
    (default this_maxRetries (maxRetries options))
    (default this_baseDelay (baseDelay options))
    (default this_backoffMultiplier (backoffMultiplier options))
    (default this_maxDelay (maxDelay options))
    (onRetry options)
    (shouldRetry options).

(** *** Circuit breaker *)

(** [getCircuitState(circuitKey)]: the value stored under the key, after
    storing a new circuit object there when [has(circuitKey)] is false. *)
Definition getCircuitState (circuitKey : string) : M Entry := λ s,
  match retryAttempts s !! circuitKey with
  | Some v => (v, s, [])
  | None =>
      let l := fresh (dom (heap s)) in
      let c := {| state := Closed; failureCount := 0;
                  lastFailureTime := 0; lastSuccessTime := now s |} in
      (ECircuit l,
       mkState (<[circuitKey := ECircuit l]> (retryAttempts s))
               (<[l := c]> (heap s)) (now s) (world s),
       [])
  end.

(** Reading and writing the object behind a reference. *)
Definition deref (l : loc) : M CircuitState := λ s, (heap s !!! l, s, []).
Definition assign (l : loc) (f : CircuitState → CircuitState) : M unit :=
  λ s, (tt, set_heap (<[l := f (heap s !!! l)]>) s, []).

Definition set_state (m : CircuitMode) (c : CircuitState) : CircuitState :=
  {| state := m; failureCount := failureCount c;
     lastFailureTime := lastFailureTime c; lastSuccessTime := lastSuccessTime c |}.
Definition set_failureCount (n : Z) (c : CircuitState) : CircuitState :=
  {| state := state c; failureCount := n;
     lastFailureTime := lastFailureTime c; lastSuccessTime := lastSuccessTime c |}.
Definition set_lastFailureTime (t : Z) (c : CircuitState) : CircuitState :=
  {| state := state c; failureCount := failureCount c;
     lastFailureTime := t; lastSuccessTime := lastSuccessTime c |}.
Definition set_lastSuccessTime (t : Z) (c : CircuitState) : CircuitState :=
  {| state := state c; failureCount := failureCount c;
     lastFailureTime := lastFailureTime c; lastSuccessTime := t |}.

(** [await operation()] *)
Definition call_thunk (operation : Thunk V W) : M (Outcome V) :=
  λ s, let '(r, s') := operation s in (r, s', [EvCall r]).

(** The message of the error thrown when the circuit is open. *)
Definition circuit_open_error (operationName : string) : Error :=
  newError ("Circuit breaker is open for " +:+ operationName +:+ ". Try again later.").

(** [circuit.failureCount++] on a primitive: reading gives [undefined],
    writing back throws in strict mode. *)
Definition primitive_write_error (v : Entry) : Error :=
  newTypeError ("Cannot create property 'failureCount' on " +:+
    match v with
    | ENum n => "number '" +:+ pretty n +:+ "'"
    | EStr s => "string '" +:+ s +:+ "'"
    | ECircuit _ => "object"
    end).

(** The statements of [executeWithCircuitBreaker] that follow
    [const circuit = this.getCircuitState(circuitKey)]. *)
Definition with_circuit (operationName : string) (operation : Thunk V W)
    (failureThreshold' resetTimeout' : Z) (circuit : Entry) : M (Outcome V) :=
  match circuit with
  | ECircuit l =>
      c ← deref l;
      rejected ←
        (if decide (state c = Open) then
           t ← Date_now;
           if decide (t - lastFailureTime c < resetTimeout')%Z then
             mret true
           else
             assign l (set_state HalfOpen);;
             console (LogHalfOpen operationName);;
             mret false
         else mret false);
      if (rejected : bool) then
        mret (Thrown (circuit_open_error operationName))
      else
        r ← call_thunk operation;
        match r with
        | Returned result =>
            assign l (set_state Closed);;
            assign l (set_failureCount 0);;
            t ← Date_now;
            assign l (set_lastSuccessTime t);;
            console (LogCircuitReset operationName);;
            mret (Returned result)
        | Thrown error =>
            assign l (λ c, set_failureCount (failureCount c + 1) c);;
            t ← Date_now;
            assign l (set_lastFailureTime t);;
            c' ← deref l;
            (if decide (failureCount c' >= failureThreshold')%Z then
               assign l (set_state Open);;
               console (LogCircuitOpened operationName (failureCount c'))
             else mret tt);;
            mret (Thrown error)
        end
  | ENum _ | EStr _ =>
      (* The slot holds a primitive: [circuit.state] reads as undefined,
         the operation runs, and both the assignment after a success
         (caught by the [catch]) and [circuit.failureCount++] in the
         [catch] throw. *)
      r ← call_thunk operation;
      mret (Thrown (primitive_write_error circuit))
  end.

(** [async executeWithCircuitBreaker(operationName, operation, options = {})] *)
Definition executeWithCircuitBreaker (operationName : string) (operation : Thunk V W)
    (options : CircuitOptions) : M (Outcome V) :=
  let failureThreshold' := default 5%Z (failureThreshold options) in
  let resetTimeout' := default 30000%Z (resetTimeout options) in
  let circuitKey := "circuit_" +:+ operationName in
  circuit ← getCircuitState circuitKey;
  with_circuit operationName operation failureThreshold' resetTimeout' circuit.

(** [resetStats()] *)
Definition resetStats : M unit := λ s, (tt, set_retryAttempts (λ _, ∅) s, []).

End Manager.

(** ** Reading a trace *)

(** The invocations of the operation by [executeWithRetry], in order: the
    attempt number passed and what the call produced. *)
Definition attempts_of {V} (tr : list (Event V)) : list (nat * Outcome V) :=
  omap (λ ev, match ev with EvAttempt n r => Some (n, r) | _ => None end) tr.

(** The waits, in order. *)
Definition waits_of {V} (tr : list (Event V)) : list Q :=
  omap (λ ev, match ev with EvDelay d => Some d | _ => None end) tr.

(** The invocations of the operation by [executeWithCircuitBreaker]. *)
Definition calls_of {V} (tr : list (Event V)) : list (Outcome V) :=
  omap (λ ev, match ev with EvCall r => Some r | _ => None end) tr.

(** The calls of the [onRetry] callback. *)
Definition notifications_of {V} (tr : list (Event V)) : list (Error * nat * Q) :=
  omap (λ ev, match ev with EvOnRetry e n d _ => Some (e, n, d) | _ => None end) tr.

(** The events with which a run of [executeWithRetry] ends when
    [shouldRetry] has returned false for error [e] on attempt [n]: the
    failed invocation, its console line, the call of [shouldRetry], and
    the console line of the [break]. *)
Definition denial_tail {V} (operationName : string) (e : Error) (n : nat)
    : list (Event V) :=
  [EvAttempt n (Thrown e);
   EvConsole (ErrFailed operationName n e);
   EvShouldRetry e n (Returned false);
   EvConsole (LogNotRetryable operationName)].

(** The events with which a run of [executeWithRetry] ends when attempt
    [n] returned [v]. *)
Definition success_tail {V} (operationName : string) (n : nat) (v : V)
    : list (Event V) :=
  [EvAttempt n (Returned v); EvConsole (LogSuccess operationName n)].

(** The [onRetry] callback with the same effects that returns where the
    given one throws. *)
Definition calm {W} (f : OnRetry W) : OnRetry W :=
  λ e n d s, (Returned tt, (f e n d s).2).

(** A trace with the failures of [onRetry] taken out: every call of the
    callback is shown as having returned, and the console lines reporting
    its failure are dropped. *)
Definition forgive {V} (tr : list (Event V)) : list (Event V) :=
  omap (λ ev, match ev with
              | EvOnRetry e n d _ => Some (EvOnRetry e n d (Returned tt))
              | EvConsole (ErrRetryCallbackFailed _ _) => None
              | _ => Some ev
              end) tr.

(** The events around a call of [onRetry] that threw [callbackError] after
    attempt [n] failed with [e]: the call, the console line reporting its
    failure, the wait of [d] milliseconds, and the start of attempt
    [n + 1] with outcome [r]. *)
Definition swallowed_callback {V} (operationName : string) (total : nat)
    (e : Error) (n : nat) (d : Q) (callbackError : Error) (r : Outcome V)
    : list (Event V) :=
  [EvOnRetry e n d (Thrown callbackError);
   EvConsole (ErrRetryCallbackFailed operationName callbackError);
   EvDelay d;
   EvConsole (LogAttempt operationName (S n) total);
   EvAttempt (S n) r].

(** ** Assumptions on callbacks used in the statements *)

(** The operation fails on every invocation. *)
Definition always_fails {V W} (operation : Operation V W) : Prop :=
  ∀ n s, ∃ e, (operation n s).1 = Thrown e.

(** [shouldRetry] is absent, or returns true whenever it is asked. *)
Definition never_denies {W} (sr : option (ShouldRetry W)) : Prop :=
  match sr with
  | None => True
  | Some f => ∀ e n s, (f e n s).1 = Returned true
  end.

(** [shouldRetry] is absent, or returns (rather than throws) whenever it is
    asked. *)
Definition never_throws {W} (sr : option (ShouldRetry W)) : Prop :=
  match sr with
  | None => True
  | Some f => ∀ e n s, ∃ b, (f e n s).1 = Returned b
  end.

(** The callbacks and the timer leave [this.retryAttempts] as they found
    it (they neither call into the manager nor reach into its map). *)
Definition callbacks_keep_registry {V W} (timer : Q → State W → State W)
    (operation : Operation V W) (notify : option (OnRetry W))
    (classify : option (ShouldRetry W)) : Prop :=
  (∀ d s, retryAttempts (timer d s) = retryAttempts s) ∧
  (∀ n s, retryAttempts (operation n s).2 = retryAttempts s) ∧
  match notify with
  | None => True
  | Some f => ∀ e n d s, retryAttempts (f e n d s).2 = retryAttempts s
  end ∧
  match classify with
  | None => True
  | Some f => ∀ e n s, retryAttempts (f e n s).2 = retryAttempts s
  end.

(** The slot [key] of the map holds a reference [l] to the circuit
    object [c]. *)
Definition circuit_at {W} (key : string) (s : State W) (l : loc) (c : CircuitState) : Prop :=
  retryAttempts s !! key = Some (ECircuit l) ∧ heap s !!! l = c.

(** A state transformer (a thunk's effect, or what happens between two
    calls) leaves the slot [key] and the object it refers to as they
    are. *)
Definition keeps_circuit {W} (key : string) (f : State W → State W) : Prop :=
  ∀ s, retryAttempts (f s) !! key = retryAttempts s !! key ∧
       ∀ l, retryAttempts s !! key = Some (ECircuit l) →
            heap (f s) !!! l = heap s !!! l.

(** The thunk fails whenever it is invoked. *)
Definition always_throws {V W} (operation : Thunk V W) : Prop :=
  ∀ s, ∃ e, (operation s).1 = Thrown e.

(** The circuit of the operation has no failure on record: it was never
    looked up, or it is closed with a count of 0 (as a success leaves
    it). *)
Definition no_failure_on_record {W} (key : string) (s : State W) : Prop :=
  retryAttempts s !! key = None ∨
  ∃ l, retryAttempts s !! key = Some (ECircuit l) ∧
       state (heap s !!! l) = Closed ∧ failureCount (heap s !!! l) = 0%Z.

(** Where a circuit stands after [failed] consecutive failing calls under
    one threshold: open with the threshold reached, or not open with
    every one of those calls counted. *)
Definition tripping {W} (key : string) (threshold failed : Z) (s : State W) : Prop :=
  (failed = 0%Z ∧ retryAttempts s !! key = None) ∨
  ∃ l, retryAttempts s !! key = Some (ECircuit l) ∧
       ((state (heap s !!! l) = Open ∧ (threshold <= failureCount (heap s !!! l))%Z) ∨
        (state (heap s !!! l) ≠ Open ∧ (failed <= failureCount (heap s !!! l))%Z)).

(** Where a streak of failures stands after [failures] failures: nothing
    on record yet, or a circuit that is not open with that count. *)
Definition streak {W} (key : string) (failures : Z) (s : State W) : Prop :=
  (failures = 0%Z ∧ retryAttempts s !! key = None) ∨
  ∃ l, retryAttempts s !! key = Some (ECircuit l) ∧
       state (heap s !!! l) ≠ Open ∧
       failureCount (heap s !!! l) = failures.

(** The circuit object after a failure observed at time [t] under a
    threshold [threshold]. *)
Definition after_failure (threshold t : Z) (c : CircuitState) : CircuitState :=
  {| state := if decide (failureCount c + 1 >= threshold)%Z then Open else state c;
     failureCount := failureCount c + 1;
     lastFailureTime := t;
     lastSuccessTime := lastSuccessTime c |}.

(** The circuit object after a success observed at time [t]. *)
Definition after_success (t : Z) (c : CircuitState) : CircuitState :=
  {| state := Closed; failureCount := 0;
     lastFailureTime := lastFailureTime c; lastSuccessTime := t |}.

(** The state in which the breaker invokes the operation: the circuit is
    marked half-open first when it was open. *)
Definition admitted {W} (l : loc) (c : CircuitState) (s : State W) : State W :=
  if decide (state c = Open) then set_heap (<[l := set_state HalfOpen c]>) s else s.

(** The console line written on that occasion. *)
Definition admission_log {V} (operationName : string) (c : CircuitState)
    : list (Event V) :=
  if decide (state c = Open) then [EvConsole (LogHalfOpen operationName)] else [].

(** The console line written when a failure opens the circuit. *)
Definition opening_log {V} (operationName : string) (threshold : Z)
    (c : CircuitState) : list (Event V) :=
  if decide (failureCount c + 1 >= threshold)%Z
  then [EvConsole (LogCircuitOpened operationName (failureCount c + 1))] else [].

(** Every step of a script of calls fails when invoked, and neither the
    thunks nor what happens in between touch the circuit of the
    operation. *)
Definition failing_script {V W} (key : string)
    (script : list ((State W → State W) * Thunk V W)) : Prop :=
  Forall (λ step, keeps_circuit key step.1 ∧
                  keeps_circuit key (λ s, (step.2 s).2) ∧
                  always_throws step.2) script.

(** Outcome, final state and trace of a run. *)
Definition outcome_of {A S T : Type} (run : A * S * T) : A := run.1.1.
Definition final_of {A S T : Type} (run : A * S * T) : S := run.1.2.
Definition trace_of {A S T : Type} (run : A * S * T) : T := run.2.

(** ** Consecutive calls through the circuit breaker

    Each call is preceded by whatever the environment does in between
    (time passing, other tasks). *)
Fixpoint call_sequence {V W} (operationName : string) (options : CircuitOptions)
    (script : list ((State W → State W) * Thunk V W)) (s : State W)
    : State W * list (Event V) :=
  match script with
  | [] => (s, [])
  | (between, operation) :: rest =>
      let '(_, s1, t1) :=
        executeWithCircuitBreaker operationName operation options (between s) in
      let '(s2, t2) := call_sequence operationName options rest s1 in
      (s2, t1 ++ t2)
  end.

(** ** Concrete scenarios, used to exercise the statements *)

Module Scenario.
(** An empty registry at time 0. *)
Definition s0 : State unit := mkState ∅ ∅ 0 tt.

(** A timer during which nothing else happens. *)
Definition idle : Q → State unit → State unit := λ _ s, s.

(** An operation that throws [new Error("boom")] on every attempt. *)
Definition boom : Operation nat unit := λ _ s, (Thrown (newError "boom"), s).

(** An operation that fails twice and returns 42 on the third attempt. *)
Definition third_time_lucky : Operation nat unit := λ attempt s,
  if decide (attempt < 3)%nat then (Thrown (newError "busy"), s)
  else (Returned 42%nat, s).

(** [shouldRetry: () => false] and [shouldRetry: () => true] *)
Definition deny : ShouldRetry unit := λ _ _ s, (Returned false, s).
Definition allow : ShouldRetry unit := λ _ _ s, (Returned true, s).

(** An [onRetry] callback that throws. *)
Definition noisy : OnRetry unit := λ _ _ _ s, (Thrown (newError "toast failed"), s).

(** [{ maxRetries: 2 }] with and without callbacks. *)
Definition two_retries : RetryOptions nat unit :=
  mkRetryOptions (Some 2%nat) None None None None None.
Definition two_retries_deny : RetryOptions nat unit :=
  mkRetryOptions (Some 2%nat) None None None None (Some deny).
Definition two_retries_noisy : RetryOptions nat unit :=
  mkRetryOptions (Some 2%nat) None None None (Some noisy) (Some allow).

(** Thunks for the circuit breaker; the failing one takes 10 ms. *)
Definition down : Thunk nat unit := λ s,
  (Thrown (newError "down"), mkState (retryAttempts s) (heap s) (now s + 10) (world s)).
Definition up : Thunk nat unit := λ s, (Returned 7%nat, s).

(** [{ failureThreshold: 1, resetTimeout: 100 }] and
    [{ failureThreshold: 5, resetTimeout: 100 }] *)
Definition trip_at_1 : CircuitOptions := mkCircuitOptions (Some 1%Z) (Some 100%Z).
Definition trip_at_5 : CircuitOptions := mkCircuitOptions (Some 5%Z) (Some 100%Z).

(** Letting the clock advance between two calls. *)
Definition later (ms : Z) (s : State unit) : State unit :=
  mkState (retryAttempts s) (heap s) (now s + ms) (world s).

(** The state after one failing call of operation ["X"] through the
    circuit breaker with threshold 1: the circuit of ["X"], stored under
    ["circuit_X"], is open. *)
Definition tripped : State unit :=
  final_of (executeWithCircuitBreaker "X" down trip_at_1 s0).
End Scenario.

(** ** The wait in double precision

    JavaScript numbers are IEEE 754 binary64 values.  The executor above
    computes its waits over exact rationals; [Double] is the same
    expression over binary64, with not-a-number and the infinities, as
    specified by the Standard Library's [SpecFloat]. *)

From Stdlib Require SpecFloat.

Module Double.

Definition Number := SpecFloat.spec_float.
Definition prec : Z := 53.
Definition emax : Z := 1024.

(** The Number nearest to [m * 2^e], ties to even. *)
Definition of_dyadic (m e : Z) : Number := SpecFloat.binary_normalize prec emax m e false.

(** [x * y] *)
Definition mul : Number → Number → Number := SpecFloat.SFmul prec emax.

(** [Math.pow(base, exponent)] for an exponent that is a natural number
    [k] (the executor passes [attempt - 1]), as ECMAScript defines
    [Number::exponentiate]: 1 for exponent 0, NaN for a NaN base, zeros
    and infinities with the sign the parity of the exponent gives, and for
    a finite base the Number nearest to the exact power (an engine may be
    off in the last bit there; an exact power beyond the largest Number
    is Infinity). *)
Definition Math_pow (base : Number) (k : N) : Number :=
  match k with
  | N0 => of_dyadic 1 0
  | Npos p =>
      match base with
      | SpecFloat.S754_nan => SpecFloat.S754_nan
      | SpecFloat.S754_zero s => SpecFloat.S754_zero (s && N.odd k)
      | SpecFloat.S754_infinity s => SpecFloat.S754_infinity (s && N.odd k)
      | SpecFloat.S754_finite s m e =>
          SpecFloat.binary_round prec emax (s && N.odd k) (m ^ p)%positive (e * Zpos p)
      end
  end.

(** [Math.min(a, b)]: NaN when either is NaN, and -0 is below +0. *)
Definition Math_min (a b : Number) : Number :=
  match SpecFloat.SFcompare a b with
  | None => SpecFloat.S754_nan
  | Some Lt => a
  | Some Gt => b
  | Some Eq => match a with SpecFloat.S754_zero true => a | _ => b end
  end.

(** [Math.min(baseDelay * Math.pow(backoffMultiplier, attempt - 1), maxDelay)],
    for [attempt] from 1 on, as the loop counts. *)
Definition backoffDelay (attempt : nat) (baseDelay backoffMultiplier maxDelay : Number)
    : Number :=
  Math_min (mul baseDelay (Math_pow backoffMultiplier (N.of_nat (attempt - 1)))) maxDelay.

End Double.

(** ** Further predicates and scenarios used in the statements *)

(** After every invocation that failed, the trace goes on with the
    console line of the failure and the call of [shouldRetry] with that
    error and that attempt number. *)
Fixpoint consulted_after_each_failure {V} (operationName : string)
    (tr : list (Event V)) : Prop :=
  match tr with
  | [] => True
  | EvAttempt n (Thrown e) :: rest =>
      (∃ r rest', rest = EvConsole (ErrFailed operationName n e)
                           :: EvShouldRetry e n r :: rest') ∧
      consulted_after_each_failure operationName rest
  | _ :: rest => consulted_after_each_failure operationName rest
  end.

(** A registry in which the operation ["load"] has failed three times and
    the circuit of ["X"] is open, and a config that allows six
    attempts. *)
Module Ledger.
Definition counted : State unit :=
  set_retryAttempts (<["load" := ENum 3]>) Scenario.tripped.
Definition five_retries : RetryOptions nat unit :=
  mkRetryOptions (Some 5%nat) None None None None None.
End Ledger.


(** Every step of a script of calls, whatever its outcome, leaves the
    circuit of the operation to the breaker: neither the thunks nor what
    happens in between touch it. *)
Definition quiet_script {V W} (key : string)
    (script : list ((State W → State W) * Thunk V W)) : Prop :=
  Forall (λ step, keeps_circuit key step.1 ∧
                  keeps_circuit key (λ s, (step.2 s).2)) script.

(** The times at which the failures of a script of calls happened: for
    every call that invoked the operation and saw it throw, the clock at
    the end of the call. *)
Fixpoint failure_times {V W} (operationName : string) (options : CircuitOptions)
    (script : list ((State W → State W) * Thunk V W)) (s : State W) : list Z :=
  match script with
  | [] => []
  | (between, operation) :: rest =>
      let '(_, s1, t1) :=
        executeWithCircuitBreaker operationName operation options (between s) in
      match calls_of t1 with
      | [Thrown _] => [now s1]
      | _ => []
      end ++ failure_times operationName options rest s1
  end.

(** The circuit of the operation as calls under one threshold leave it,
    with the time of the last failure: never looked up (and no failure
    yet), or open with a count that has reached the threshold, or not open
    with a count that is not negative; the time on record is that of the
    last failure, and a circuit that has seen no failure is not open. *)
Definition on_record {W} (key : string) (threshold : Z) (last_failure : option Z)
    (s : State W) : Prop :=
  (retryAttempts s !! key = None ∧ last_failure = None) ∨
  ∃ l, retryAttempts s !! key = Some (ECircuit l) ∧
       ((state (heap s !!! l) = Open ∧ (threshold <= failureCount (heap s !!! l))%Z) ∨
        (state (heap s !!! l) ≠ Open ∧ (0 <= failureCount (heap s !!! l))%Z)) ∧
       match last_failure with
       | Some τ => lastFailureTime (heap s !!! l) = τ
       | None => state (heap s !!! l) ≠ Open
       end.

From Stdlib Require Import Ascii.

(** * The rest of the manager

    [isRetryableError], [getRetryStats] and [resetStats] of
    [ErrorRecoveryManager] (app.js 2004-2035), and runs of
    [executeWithRetry] one after the other. *)

(** ** Strings *)

(** [s.startsWith(sub)] *)
Definition startsWith (s sub : string) : bool := String.prefix sub s.

(** [s.includes(sub)]: [sub] occurs in [s] at some position. *)
Fixpoint includes (s sub : string) : bool :=
  if String.prefix sub s then true
  else match s with
       | EmptyString => false
       | String _ s' => includes s' sub
       end.

(** ** [isRetryableError] *)

Definition retryableErrors : list string :=
  ["network"; "timeout"; "connection"; "temporary"; "busy"; "unavailable"].

(** [isRetryableError(error)].  [String.prototype.toLowerCase] is taken as
    a parameter: the statements below hold whatever it does to the
    characters. *)
Definition isRetryableError (toLowerCase : string → string) (error : Error) : bool :=
  let errorMessage := toLowerCase (message error) in
  existsb (λ keyword, includes errorMessage keyword) retryableErrors.

(** ** [getRetryStats] *)

(** A property value of the object [getRetryStats] returns: a fresh
    [{ totalRetries: n }], or the stored value itself (a circuit object,
    by reference, or a string). *)
Inductive StatValue :=
| TotalRetries (n : Z)
| Stored (v : Entry).

(** The object built by [getRetryStats]: its own properties and, when an
    assignment to ["__proto__"] replaced it, its prototype. *)
Record Stats := mkStats {
  statProps : gmap string StatValue;
  statProto : option StatValue
}.

(** [typeof attempts === 'number' ? { totalRetries: attempts } : attempts] *)
Definition stat_of (attempts : Entry) : StatValue :=
  match attempts with
  | ENum n => TotalRetries n
  | _ => Stored attempts
  end.

(** Objects, as opposed to primitives. *)
Definition is_object (v : StatValue) : bool :=
  match v with
  | TotalRetries _ => true
  | Stored (ECircuit _) => true
  | Stored _ => false
  end.

(** [stats[operation] = v] on an ordinary object: the key ["__proto__"]
    goes through the setter of [Object.prototype], which replaces the
    prototype when [v] is an object and does nothing otherwise; any other
    key becomes an own property. *)
Definition stats_assign (operation : string) (v : StatValue) (stats : Stats) : Stats :=
  if decide (operation = "__proto__") then
    if is_object v then mkStats (statProps stats) (Some v) else stats
  else mkStats (<[operation := v]> (statProps stats)) (statProto stats).

(** [getRetryStats()]: one assignment per entry of the map. *)
Definition getRetryStats {W} (s : State W) : Stats :=
  map_fold (λ operation attempts stats, stats_assign operation (stat_of attempts) stats)
    (mkStats ∅ None) (retryAttempts s).

(** ** Runs of [executeWithRetry] under one operation name, one after the
    other *)
Fixpoint retry_runs {V W} (timer : Q → State W → State W) (operationName : string)
    (runs : list (Operation V W * RetryOptions V W)) (s : State W)
    : list (Outcome V) * State W :=
  match runs with
  | [] => ([], s)
  | (operation, options) :: rest =>
      let '(r, s1, _) := executeWithRetry timer operationName operation options s in
      let '(rs, s2) := retry_runs timer operationName rest s1 in
      (r :: rs, s2)
  end.

(** The slot of the operation holds a failure counter of [n] (an absent
    slot counts for 0). *)
Definition counter_is {W} (operationName : string) (n : Z) (s : State W) : Prop :=
  (n = 0%Z ∧ retryAttempts s !! operationName = None) ∨
  retryAttempts s !! operationName = Some (ENum n).

(** A run that is bound to fail: the operation fails on every invocation,
    [shouldRetry] does not throw, and the callbacks leave the map alone. *)
Definition doomed_run {V W} (timer : Q → State W → State W)
    (run : Operation V W * RetryOptions V W) : Prop :=
  always_fails run.1 ∧
  never_throws (shouldRetry run.2) ∧
  callbacks_keep_registry timer run.1 (onRetry run.2) (shouldRetry run.2).


(** * Callers of the manager

    [loadJSXHostScript], [readLocalFile], [normalizePath] and
    [isAbsolutePath] of [MaterialIconsPanel] (app.js 618-821).  The host
    bridge ([csInterface.evalScript]) and [attemptFileRead], whose body is
    an ExtendScript program run by the host, a ten second timer and
    [JSON.parse], are collaborators: arbitrary total transformers of the
    state, like the callbacks above. *)

(** ** Paths *)

(** [s.replace(/\//g, '\\')] *)
Fixpoint slashes_to_backslashes (s : string) : string :=
  match s with
  | EmptyString => EmptyString
  | String c s' =>
      String (if decide (c = "/"%char) then "\"%char else c) (slashes_to_backslashes s')
  end.

(** [s.replace(/\\+/g, '\\')]: every run of backslashes becomes one. *)
Fixpoint collapse_backslashes (s : string) : string :=
  match s with
  | EmptyString => EmptyString
  | String c s' =>
      if decide (c = "\"%char) then
        match s' with
        | String c' _ =>
            if decide (c' = "\"%char) then collapse_backslashes s'
            else String c (collapse_backslashes s')
        | EmptyString => String c EmptyString
        end
      else String c (collapse_backslashes s')
  end.

(** [s.replace(/\\/g, '\\\\')]: every backslash is doubled. *)
Fixpoint escape_backslashes (s : string) : string :=
  match s with
  | EmptyString => EmptyString
  | String c s' =>
      if decide (c = "\"%char) then String c (String c (escape_backslashes s'))
      else String c (escape_backslashes s')
  end.

(** [[A-Za-z]] *)
Definition is_letter (c : Ascii.ascii) : bool :=
  let n := Ascii.nat_of_ascii c in
  ((65 <=? n) && (n <=? 90))%nat || ((97 <=? n) && (n <=? 122))%nat.

(** [/^[A-Za-z]:\\/.test(path)] *)
Definition drive_path (path : string) : bool :=
  match path with
  | String a (String b (String c _)) =>
      is_letter a && bool_decide (b = ":"%char) && bool_decide (c = "\"%char)
  | _ => false
  end.

(** [/^\\\\/.test(path)] *)
Definition unc_path (path : string) : bool :=
  match path with
  | String a (String b _) => bool_decide (a = "\"%char) && bool_decide (b = "\"%char)
  | _ => false
  end.

(** [isAbsolutePath(path)] *)
Definition isAbsolutePath (path : string) : bool := drive_path path || unc_path path.

(** What [normalizePath] returns for a non-empty [filePath], given what
    [this.csInterface ? this.csInterface.getSystemPath(SystemPath.EXTENSION) : '']
    evaluates to. *)
Definition normalized_path (extensionPath filePath : string) : string :=
  let normalized := slashes_to_backslashes filePath in
  let normalized :=
    if isAbsolutePath normalized then normalized
    else extensionPath +:+ "\" +:+ normalized in
  collapse_backslashes normalized.

(** ** The panel's side of the state *)

(** Console lines of the callers, with the values they interpolate. *)
Inductive HostLine :=
| LogFileReadStart (filePath : string)
| WarnRelativePath
| LogPathNormalization (filePath normalized : string)
| LogNormalizedPath (normalizedPath : string)
| LogFileReadAttempt (attempt : nat)
| LogFileReadSuccess (attempt : nat)
| LogContentLength (content : string) (* logs [content.length] *)
| LogFileReadRetry (attempt : nat) (delay : Q) (message : string)
| LogJsxAttempt (attempt : nat)
| LogJsxLoadingFrom (jsxPath : string)
| LogJsxResult (result : string)
| LogJsxLoaded
| ErrJsxFailed (result : string)
| LogJsxRetry (attempt : nat) (delay : Q) (message : string).

(** The world of the panel: its console, [this.csInterface] (absent, or
    present with the extension path [getSystemPath] answers), and the
    state of the host behind the bridge. *)
Record Host (B : Type) := mkHost {
  hostConsole : list HostLine;
  csInterface : option string;
  bridge : B
}.
Arguments mkHost {B} _ _ _.
Arguments hostConsole {B} _.
Arguments csInterface {B} _.
Arguments bridge {B} _.

(** What the promise of [attemptFileRead] resolves with: the object the
    ExtendScript program serialises, [{success: true, content}] or
    [{success: false, error}]. *)
Inductive FileReadResult :=
| ReadOk (content : string)
| ReadFailed (error : string).

(** The double quote. *)
Definition dq : string := String (Ascii.ascii_of_nat 34) EmptyString.

(** The template literal [loadScript] of [loadJSXHostScript]. *)
Definition loadScript (jsxPath : string) : string :=
  "
                    try {
                        var jsxFile = new File(" +:+
  dq +:+
  escape_backslashes jsxPath +:+
  dq +:+
  ");
                        if (jsxFile.exists) {
                            $.evalFile(jsxFile);
                            " +:+
  dq +:+
  "JSX_LOADED_SUCCESS" +:+
  dq +:+
  ";
                        } else {
                            " +:+
  dq +:+
  "JSX_FILE_NOT_FOUND" +:+
  dq +:+
  ";
                        }
                    } catch (e) {
                        " +:+
  dq +:+
  "JSX_LOAD_ERROR: " +:+
  dq +:+
  " + e.toString();
                    }
                ".

Section Callers.
Context {B : Type}.

(** [setTimeout] behind [this.delay], as in the manager. *)
Variable timer : Q → State (Host B) → State (Host B).

(** [this.csInterface.evalScript(script, callback)]: what the host does,
    and the result it passes to the callback. *)
Variable evalScript : string → State (Host B) → string * State (Host B).

(** [this.attemptFileRead(filePath, attemptNumber)] *)
Variable attemptFileRead :
  string → nat → State (Host B) → Outcome FileReadResult * State (Host B).

(** [console.log] / [console.warn] / [console.error] in the callers. *)
Definition host_log (line : HostLine) (s : State (Host B)) : State (Host B) :=
  mkState (retryAttempts s) (heap s) (now s)
    (mkHost (hostConsole (world s) ++ [line]) (csInterface (world s)) (bridge (world s))).

(** [normalizePath(filePath)] *)
Definition normalizePath (filePath : string) (s : State (Host B))
    : Outcome string * State (Host B) :=
  if decide (filePath = EmptyString) then
    (Thrown (newError "File path is required"), s)
  else
    let normalized := slashes_to_backslashes filePath in
    let s1 := if isAbsolutePath normalized then s else host_log WarnRelativePath s in
    let normalized := normalized_path (default EmptyString (csInterface (world s))) filePath in
    (Returned normalized, host_log (LogPathNormalization filePath normalized) s1).

(** *** [loadJSXHostScript] *)

(** The operation passed to [executeWithRetry]. *)
Definition jsx_operation : Operation bool (Host B) := λ attempt s,
  let s := host_log (LogJsxAttempt attempt) s in
  match csInterface (world s) with
  | None =>
      (Thrown (newTypeError "Cannot read properties of null (reading 'getSystemPath')"), s)
  | Some extensionPath =>
      let jsxPath := extensionPath +:+ "/jsx/hostscript.jsx" in
      let s := host_log (LogJsxLoadingFrom jsxPath) s in
      let '(result, s) := evalScript (loadScript jsxPath) s in
      let s := host_log (LogJsxResult result) s in
      if decide (result = "JSX_LOADED_SUCCESS") then
        (Returned true, host_log LogJsxLoaded s)
      else
        (Thrown (newError ("Failed to load JSX script: " +:+ result)),
         host_log (ErrJsxFailed result) s)
  end.

(** [shouldRetry: (error, attempt) => !error.message.includes('JSX_FILE_NOT_FOUND')] *)
Definition jsx_shouldRetry : ShouldRetry (Host B) := λ error attempt s,
  (Returned (negb (includes (message error) "JSX_FILE_NOT_FOUND")), s).

Definition jsx_onRetry : OnRetry (Host B) := λ error attempt delay s,
  (Returned tt, host_log (LogJsxRetry attempt delay (message error)) s).

Definition jsx_options : RetryOptions bool (Host B) :=
  mkRetryOptions (Some 2%nat) (Some 1000%Q) (Some 1.5%Q) (Some 3000%Q)
    (Some jsx_onRetry) (Some jsx_shouldRetry).

(** [async loadJSXHostScript()] *)
Definition loadJSXHostScript : M (Outcome bool) :=
  executeWithRetry timer "JSX_HostScript_Load" jsx_operation jsx_options.

(** *** [readLocalFile] *)

(** The operation passed to [executeWithRetry]. *)
Definition read_operation (normalizedPath : string) : Operation string (Host B) :=
  λ attempt s,
  let s := host_log (LogFileReadAttempt attempt) s in
  let '(r, s) := attemptFileRead normalizedPath attempt s in
  match r with
  | Thrown e => (Thrown e, s)
  | Returned (ReadOk content) =>
      let s := host_log (LogFileReadSuccess attempt) s in
      let s := host_log (LogContentLength content) s in
      (Returned content, s)
  | Returned (ReadFailed error) =>
      (* [result.error || 'Unknown file read error'] *)
      (Thrown (newError (if decide (error = EmptyString)
                         then "Unknown file read error" else error)), s)
  end.

(** [shouldRetry]: the three negations are joined by [||]. *)
Definition read_shouldRetry : ShouldRetry (Host B) := λ error attempt s,
  (Returned (negb (includes (message error) "not found") ||
             negb (includes (message error) "permission denied") ||
             negb (includes (message error) "access denied")), s).

Definition read_onRetry : OnRetry (Host B) := λ error attempt delay s,
  (Returned tt, host_log (LogFileReadRetry attempt delay (message error)) s).

(** The options for [maxRetries - 1 = m]. *)
Definition read_options (m : nat) : RetryOptions string (Host B) :=
  mkRetryOptions (Some m) (Some 1000%Q) (Some 2%Q) (Some 5000%Q)
    (Some read_onRetry) (Some read_shouldRetry).

(** [async readLocalFile(filePath, maxRetries = 3)], for [maxRetries] from
    1 on: the config passes [maxRetries - 1], and the executor above takes
    a [maxRetries] that is a natural number.  Calls with [maxRetries] 0 or
    negative are outside this model. *)
Definition readLocalFile (filePath : string) (maxRetries : option positive)
    : M (Outcome string) := λ s,
  let s := host_log (LogFileReadStart filePath) s in
  match normalizePath filePath s with
  | (Thrown e, s) => (Thrown e, s, [])
  | (Returned normalizedPath, s) =>
      let s := host_log (LogNormalizedPath normalizedPath) s in
      executeWithRetry timer ("FileRead_" +:+ normalizedPath)
        (read_operation normalizedPath)
        (read_options (Pos.to_nat (default 3%positive maxRetries) - 1)) s
  end.

End Callers.

(** The operation fails on every invocation with an error that
    [shouldRetry], when there is one, answers true for. *)
Definition fails_retryably {V W} (operation : Operation V W)
    (classify : option (ShouldRetry W)) : Prop :=
  ∀ n s, ∃ e,
    (operation n s).1 = Thrown e ∧
    match classify with
    | None => True
    | Some f => ∀ s', (f e n s').1 = Returned true
    end.


(** ** [shouldRetry] of [initializeAsync] (app.js 86-92) *)

(** [error.message.includes('CSInterface') ||
     error.message.includes('not available') ||
     error.message.includes('connectivity') ||
     errorRecovery.isRetryableError(error)] *)
Definition init_shouldRetry {W} (toLowerCase : string → string) : ShouldRetry W :=
  λ error attempt s,
  (Returned (includes (message error) "CSInterface" ||
             includes (message error) "not available" ||
             includes (message error) "connectivity" ||
             isRetryableError toLowerCase error), s).

(** ** A host for examples

    A panel whose extension lives in [C:\ext], with a host that cannot
    find the script, one that fails to load it, and a file system that
    cannot find the file. *)
Module HostScenario.
Definition h0 : State (Host unit) := mkState ∅ ∅ 0 (mkHost [] (Some "C:\ext") tt).
Definition idle : Q → State (Host unit) → State (Host unit) := λ _ s, s.
Definition missing : string → State (Host unit) → string * State (Host unit) :=
  λ _ s, ("JSX_FILE_NOT_FOUND", s).
Definition broken : string → State (Host unit) → string * State (Host unit) :=
  λ _ s, ("JSX_LOAD_ERROR: Error: syntax", s).
Definition unreadable
    : string → nat → State (Host unit) → Outcome FileReadResult * State (Host unit) :=
  λ _ _ s, (Returned (ReadFailed "File not found: codepoints"), s).
End HostScenario.


(** * The debug manager

    [DebugManager] (app.js 2039-2194): a log of at most [maxLogs]
    entries and a map of performance marks.  [Date.now()] is the clock of
    the environment: its readings are a parameter, numbered in the order
    in which they are taken.  [exportLogs], which formats a [Date] and
    serialises with [JSON.stringify], is left out. *)

Module Debug.

(** [data] of a log entry: the value passed to [log] or [warn], or the
    object [{ name, message, stack }] made by [error] (the stack is left
    out, as in [Error]). *)
Inductive Data (D : Type) :=
| DataValue (d : D)
| DataError (name message : string).
Arguments DataValue {D} d.
Arguments DataError {D} name message.

(** The object literal [logEntry]; [None] is [null]. *)
Record LogEntry (D : Type) := mkLogEntry {
  timestamp : Z;
  relativeTime : Z;
  category : string;
  logMessage : string;
  data : option (Data D);
  level : string
}.
Arguments mkLogEntry {D} _ _ _ _ _ _.
Arguments timestamp {D} _.
Arguments relativeTime {D} _.
Arguments category {D} _.
Arguments logMessage {D} _.
Arguments data {D} _.
Arguments level {D} _.

(** [{ name: error.name, message: error.message, stack: error.stack }] *)
Definition error_data {D} (error : Error) : Data D :=
  DataError (errName error) (message error).

(** A call of [console.log], [console.error] or [console.warn]: the text
    and the second argument, where [None] is the empty string of
    [data || '']. *)
Inductive ConsoleCall (D : Type) :=
| ConsoleLog (text : string) (payload : option D)
| ConsoleError (text : string) (payload : option Error)
| ConsoleWarn (text : string) (payload : option D).
Arguments ConsoleLog {D} text payload.
Arguments ConsoleError {D} text payload.
Arguments ConsoleWarn {D} text payload.

(** The fields of the instance, with the console it writes to and the
    number of clock readings taken so far. *)
Record DebugManager (D : Type) := mkDebugManager {
  logs : list (LogEntry D);
  maxLogs : nat;
  startTime : Z;
  performanceMarks : gmap string Z;
  debugConsole : list (ConsoleCall D);
  clockReads : nat
}.
Arguments mkDebugManager {D} _ _ _ _ _ _.
Arguments logs {D} _.
Arguments maxLogs {D} _.
Arguments startTime {D} _.
Arguments performanceMarks {D} _.
Arguments debugConsole {D} _.
Arguments clockReads {D} _.

(** What [getStats] returns. *)
Record DebugStats := mkDebugStats {
  totalLogs : nat;
  errorCount : nat;
  warningCount : nat;
  sessionDuration : Z;
  categories : list string;
  performanceMarksSize : nat
}.

(** The calls a client can make. *)
Inductive Call (D : Type) :=
| CallLog (category message : string) (data : option D)
| CallError (category message : string) (error : option Error)
| CallWarn (category message : string) (data : option D)
| CallMark (name : string)
| CallMeasure (name startMark : string)
| CallClearLogs.
Arguments CallLog {D} category message data.
Arguments CallError {D} category message error.
Arguments CallWarn {D} category message data.
Arguments CallMark {D} name.
Arguments CallMeasure {D} name startMark.
Arguments CallClearLogs {D}.

(** [array.slice(-n)]: the last [n] elements; [-0] is [0], so with [n] 0
    the whole array. *)
Definition slice_last {A} (n : nat) (l : list A) : list A :=
  match n with
  | O => l
  | S _ => drop (length l - n) l
  end.

(** [[...new Set(l)]]: the elements in the order of their first
    occurrence. *)
Definition Set_of (l : list string) : list string :=
  fold_left (λ seen x, if decide (x ∈ seen) then seen else seen ++ [x]) l [].

Section Methods.
Context {D : Type}.

(** Whether a value passed as [data] is truthy. *)
Variable truthy : D → bool.

(** The readings of [Date.now()], in the order they are taken. *)
Variable Date_now : nat → Z.

(** [Date.now()] *)
Definition read_clock (this : DebugManager D) : Z * DebugManager D :=
  (Date_now (clockReads this),
   mkDebugManager (logs this) (maxLogs this) (startTime this)
     (performanceMarks this) (debugConsole this) (S (clockReads this))).

Definition set_logs (l : list (LogEntry D)) (this : DebugManager D) : DebugManager D :=
  mkDebugManager l (maxLogs this) (startTime this)
    (performanceMarks this) (debugConsole this) (clockReads this).

Definition set_performanceMarks (m : gmap string Z) (this : DebugManager D)
    : DebugManager D :=
  mkDebugManager (logs this) (maxLogs this) (startTime this)
    m (debugConsole this) (clockReads this).

Definition write_console (c : ConsoleCall D) (this : DebugManager D) : DebugManager D :=
  mkDebugManager (logs this) (maxLogs this) (startTime this)
    (performanceMarks this) (debugConsole this ++ [c]) (clockReads this).

(** [constructor()], when there is no instance yet; [console] is what
    has been written so far. *)
Definition new_DebugManager (console : list (ConsoleCall D)) (reads : nat)
    : DebugManager D :=
  mkDebugManager [] 1000 (Date_now reads) ∅ console (S reads).

(** [addLog(logEntry)] *)
Definition addLog (logEntry : LogEntry D) (this : DebugManager D) : DebugManager D :=
  let pushed := logs this ++ [logEntry] in
  if decide (maxLogs this < length pushed)%nat
  then set_logs (slice_last (maxLogs this) pushed) this
  else set_logs pushed this.

(** [`[${relativeTime}ms] [${category}] ${prefix}${message}`] *)
Definition console_text (relativeTime : Z) (category prefix message : string) : string :=
  "[" +:+ pretty relativeTime +:+ "ms] [" +:+ category +:+ "] " +:+ prefix +:+ message.

(** [data || ''] *)
Definition or_empty (data : option D) : option D :=
  match data with
  | Some d => if truthy d then Some d else None
  | None => None
  end.

(** [log(category, message, data = null)] *)
Definition log (category message : string) (data : option D)
    (this : DebugManager D) : DebugManager D :=
  let '(timestamp, this) := read_clock this in
  let relativeTime := (timestamp - startTime this)%Z in
  let logEntry :=
    mkLogEntry timestamp relativeTime category message (DataValue <$> data) "info" in
  let this := addLog logEntry this in
  write_console (ConsoleLog (console_text relativeTime category "" message)
                   (or_empty data)) this.

(** [error(category, message, error = null)] *)
Definition error (category message : string) (error : option Error)
    (this : DebugManager D) : DebugManager D :=
  let '(timestamp, this) := read_clock this in
  let relativeTime := (timestamp - startTime this)%Z in
  let logEntry :=
    mkLogEntry timestamp relativeTime category message
      (error_data <$> error) "error" in
  let this := addLog logEntry this in
  write_console (ConsoleError (console_text relativeTime category "ERROR: " message)
                   error) this.

(** [warn(category, message, data = null)] *)
Definition warn (category message : string) (data : option D)
    (this : DebugManager D) : DebugManager D :=
  let '(timestamp, this) := read_clock this in
  let relativeTime := (timestamp - startTime this)%Z in
  let logEntry :=
    mkLogEntry timestamp relativeTime category message (DataValue <$> data) "warn" in
  let this := addLog logEntry this in
  write_console (ConsoleWarn (console_text relativeTime category "WARNING: " message)
                   (or_empty data)) this.

(** [mark(name)] *)
Definition mark (name : string) (this : DebugManager D) : DebugManager D :=
  let '(timestamp, this) := read_clock this in
  let this := set_performanceMarks (<[name := timestamp]> (performanceMarks this)) this in
  log "Performance" ("Mark: " +:+ name) None this.

(** [measure(name, startMark)]; [if (startTime)] fails for a missing mark
    and for a mark of 0.  [None] is the [null] returned. *)
Definition measure (name startMark : string) (this : DebugManager D)
    : option Z * DebugManager D :=
  let '(endTime, this) := read_clock this in
  match performanceMarks this !! startMark with
  | Some startTime =>
      if decide (startTime = 0%Z) then
        (None, warn "Performance"
                 ("Start mark '" +:+ startMark +:+ "' not found for measurement '"
                    +:+ name +:+ "'") None this)
      else
        let duration := (endTime - startTime)%Z in
        (Some duration,
         log "Performance" ("Measure: " +:+ name +:+ " took " +:+ pretty duration +:+ "ms")
           None this)
  | None =>
      (None, warn "Performance"
               ("Start mark '" +:+ startMark +:+ "' not found for measurement '"
                  +:+ name +:+ "'") None this)
  end.

(** [getLogsByCategory(category)] *)
Definition getLogsByCategory (c : string) (this : DebugManager D) : list (LogEntry D) :=
  filter (λ entry, category entry = c) (logs this).

(** [getLogsByLevel(level)] *)
Definition getLogsByLevel (l : string) (this : DebugManager D) : list (LogEntry D) :=
  filter (λ entry, level entry = l) (logs this).

(** [clearLogs()] *)
Definition clearLogs (this : DebugManager D) : DebugManager D :=
  let this := set_logs [] this in
  let this := set_performanceMarks ∅ this in
  log "Debug" "Logs cleared" None this.

(** [getStats()] *)
Definition getStats (this : DebugManager D) : DebugStats * DebugManager D :=
  let '(now, this') := read_clock this in
  (mkDebugStats
     (length (logs this))
     (length (filter (λ entry, level entry = "error") (logs this)))
     (length (filter (λ entry, level entry = "warn") (logs this)))
     (now - startTime this)
     (Set_of (category <$> logs this))
     (size (performanceMarks this)),
   this').

(** One call of a client. *)
Definition call (c : Call D) (this : DebugManager D) : DebugManager D :=
  match c with
  | CallLog category message data => log category message data this
  | CallError category message e => error category message e this
  | CallWarn category message data => warn category message data this
  | CallMark name => mark name this
  | CallMeasure name startMark => (measure name startMark this).2
  | CallClearLogs => clearLogs this
  end.

(** Calls one after the other. *)
Definition calls (cs : list (Call D)) (this : DebugManager D) : DebugManager D :=
  fold_left (λ this c, call c this) cs this.

(** The number of entries added by a sequence of calls since the log was
    last emptied, starting from [n]: [clearLogs] leaves one entry, every
    other call adds one. *)
Definition entries_since_clear (cs : list (Call D)) (n : nat) : nat :=
  fold_left (λ n c, match c with CallClearLogs => 1%nat | _ => S n end) cs n.

End Methods.
End Debug.

(** ** A debug manager for examples: the clock starts at 1000 and
    advances by one at every reading. *)
Module DebugScenario.
Definition ticking : nat → Z := λ n, (1000 + Z.of_nat n)%Z.
Definition truthy : unit → bool := λ _, true.
Definition started : Debug.DebugManager unit := Debug.new_DebugManager ticking [] 0.
End DebugScenario.

(** * Icon categories

    [categorizeIcon] of [MaterialIconsPanel].  The class body declares
    the method twice (app.js 310-376 and 991-1080); the second
    declaration replaces the first, and is the one embedded here. *)

(** [name.includes(k1) || name.includes(k2) || ...] *)
Definition includes_any (name : string) (keywords : list string) : bool :=
  existsb (includes name) keywords.

(** [categorizeIcon(iconName)], with [String.prototype.toLowerCase] as a
    parameter. *)
Definition categorizeIcon (toLowerCase : string → string) (iconName : string) : string :=
  let name := toLowerCase iconName in
  if includes_any name
       ["arrow"; "navigate"; "keyboard"; "expand"; "menu"; "close"; "home"; "back";
        "forward"; "first"; "last"; "more"]
  then "Navigation"
  else if includes_any name
       ["mail"; "email"; "phone"; "call"; "message"; "chat"; "contact"; "business"]
  then "Communication"
  else if includes_any name
       ["play"; "pause"; "stop"; "volume"; "music"; "video"; "camera"; "mic"; "skip";
        "record"; "audio"]
  then "AV"
  else if includes_any name
       ["folder"; "file"; "download"; "upload"; "cloud"; "save"; "storage"; "drive"]
  then "File"
  else if includes_any name
       ["phone"; "computer"; "laptop"; "tablet"; "watch"; "tv"; "device"; "desktop";
        "smartphone"; "wifi"; "bluetooth"; "battery"; "signal"; "brightness"]
  then
    if includes_any name ["wifi"; "bluetooth"; "battery"; "signal"; "brightness"]
    then "Device" else "Hardware"
  else if includes_any name
       ["people"; "person"; "group"; "account"; "user"; "thumb"; "favorite"; "heart";
        "share"; "notification"]
  then "Social"
  else if includes_any name
       ["edit"; "create"; "copy"; "cut"; "paste"; "undo"; "redo"; "content";
        "description"; "attach"; "add"; "remove"]
  then
    if includes_any name ["edit"; "description"; "attach"]
    then "Editor" else "Content"
  else if includes_any name ["image"; "photo"; "picture"; "camera"; "tune"]
  then "Image"
  else if includes_any name ["location"; "place"; "map"; "drive_eta"]
  then "Maps"
  else if includes_any name ["warning"; "error"; "alert"]
  then "Alert"
  else if includes_any name ["star"; "favorite"; "toggle"; "check"; "radio"]
  then "Toggle"
  else if includes_any name ["sync"; "refresh"; "update"; "notification"]
  then "Notification"
  else "Action".

(** ** The basic icons *)

Module Icons.

(** An icon object: [{ name, unicode, category }]. *)
Record Icon := mkIcon { name : string; unicode : string; category : string }.

(** [getBasicIcons()]: the list it returns (app.js 1083-1138). *)
Definition getBasicIcons : list Icon := [
  mkIcon "home" "e88a" "Navigation";
  mkIcon "search" "e8b6" "Action";
  mkIcon "menu" "e5d2" "Navigation";
  mkIcon "close" "e5cd" "Navigation";
  mkIcon "add" "e145" "Content";
  mkIcon "remove" "e15b" "Content";
  mkIcon "edit" "e3c9" "Editor";
  mkIcon "delete" "e872" "Action";
  mkIcon "favorite" "e87d" "Toggle";
  mkIcon "star" "e838" "Toggle";
  mkIcon "heart_broken" "e99c" "Social";
  mkIcon "thumb_up" "e8db" "Social";
  mkIcon "thumb_down" "e8dc" "Social";
  mkIcon "share" "e80d" "Social";
  mkIcon "download" "f090" "File";
  mkIcon "upload" "f09b" "File";
  mkIcon "play_arrow" "e037" "AV";
  mkIcon "pause" "e034" "AV";
  mkIcon "stop" "e047" "AV";
  mkIcon "skip_next" "e044" "AV";
  mkIcon "skip_previous" "e045" "AV";
  mkIcon "volume_up" "e050" "AV";
  mkIcon "volume_down" "e04d" "AV";
  mkIcon "volume_off" "e04f" "AV";
  mkIcon "settings" "e8b8" "Action";
  mkIcon "account_circle" "e853" "Social";
  mkIcon "notifications" "e7f4" "Social";
  mkIcon "mail" "e0be" "Communication";
  mkIcon "phone" "e0cd" "Communication";
  mkIcon "location_on" "e0c8" "Maps";
  mkIcon "calendar_today" "e935" "Action";
  mkIcon "schedule" "e8b5" "Action";
  mkIcon "folder" "e2c7" "File";
  mkIcon "file_copy" "e173" "Content";
  mkIcon "image" "e3f4" "Image";
  mkIcon "video_library" "e04a" "AV";
  mkIcon "music_note" "e405" "AV";
  mkIcon "photo_camera" "e412" "Image";
  mkIcon "videocam" "e04b" "AV";
  mkIcon "mic" "e029" "AV";
  mkIcon "wifi" "e63e" "Device";
  mkIcon "bluetooth" "e1a7" "Device";
  mkIcon "battery_full" "e1a4" "Device";
  mkIcon "signal_cellular_4_bar" "e1c8" "Device";
  mkIcon "brightness_high" "e1ac" "Device";
  mkIcon "brightness_low" "e1ad" "Device";
  mkIcon "lock" "e897" "Action";
  mkIcon "lock_open" "e898" "Action";
  mkIcon "visibility" "e8f4" "Action";
  mkIcon "visibility_off" "e8f5" "Action";
  mkIcon "help" "e887" "Action";
  mkIcon "info" "e88e" "Action";
  mkIcon "warning" "e002" "Alert";
  mkIcon "error" "e000" "Alert";
  mkIcon "check" "e5ca" "Action";
  mkIcon "check_circle" "e86c" "Action";
  mkIcon "cancel" "e5c9" "Navigation";
  mkIcon "arrow_back" "e5c4" "Navigation";
  mkIcon "arrow_forward" "e5c8" "Navigation";
  mkIcon "arrow_upward" "e5d8" "Navigation";
  mkIcon "arrow_downward" "e5db" "Navigation";
  mkIcon "refresh" "e5d5" "Action";
  mkIcon "sync" "e627" "Notification";
  mkIcon "cloud" "e2bd" "File";
  mkIcon "cloud_download" "e2c0" "File";
  mkIcon "cloud_upload" "e2c3" "File";
  mkIcon "save" "e161" "Content";
  mkIcon "print" "e8ad" "Action";
  mkIcon "copy" "e14d" "Content";
  mkIcon "cut" "e14e" "Content";
  mkIcon "paste" "e14f" "Content";
  mkIcon "undo" "e166" "Content";
  mkIcon "redo" "e15a" "Content";
  mkIcon "zoom_in" "e8ff" "Action";
  mkIcon "zoom_out" "e900" "Action";
  mkIcon "fullscreen" "e5d0" "Action";
  mkIcon "navigate_next" "e5c8" "Navigation";
  mkIcon "navigate_before" "e5c4" "Navigation";
  mkIcon "expand_more" "e5cf" "Navigation";
  mkIcon "expand_less" "e5ce" "Navigation";
  mkIcon "keyboard_arrow_up" "e316" "Navigation";
  mkIcon "keyboard_arrow_down" "e313" "Navigation";
  mkIcon "keyboard_arrow_left" "e314" "Navigation";
  mkIcon "keyboard_arrow_right" "e315" "Navigation";
  mkIcon "first_page" "e5dc" "Navigation";
  mkIcon "last_page" "e5dd" "Navigation";
  mkIcon "more_vert" "e5d4" "Navigation";
  mkIcon "more_horiz" "e5d3" "Navigation";
  mkIcon "email" "e0be" "Communication";
  mkIcon "call" "e0b0" "Communication";
  mkIcon "message" "e0c9" "Communication";
  mkIcon "chat" "e0b7" "Communication";
  mkIcon "contact_page" "f22e" "Communication";
  mkIcon "people" "e7fb" "Social";
  mkIcon "group" "e7ef" "Social";
  mkIcon "person_add" "ea4d" "Social";
  mkIcon "create" "e150" "Content";
  mkIcon "save_alt" "e171" "Content";
  mkIcon "content_copy" "e14d" "Content";
  mkIcon "content_cut" "e14e" "Content";
  mkIcon "content_paste" "e14f" "Content";
  mkIcon "update" "e923" "Action";
  mkIcon "description" "e873" "Editor";
  mkIcon "folder_open" "e2c8" "File";
  mkIcon "attach_file" "e226" "Editor";
  mkIcon "storage" "e1db" "Device";
  mkIcon "drive_eta" "e613" "Maps";
  mkIcon "tune" "e429" "Image";
  mkIcon "build" "e869" "Action";
  mkIcon "admin_panel_settings" "ef3d" "Action";
  mkIcon "manage_accounts" "f02e" "Action";
  mkIcon "place" "e55f" "Maps";
  mkIcon "room" "e8b4" "Action";
  mkIcon "business" "e0af" "Communication";
  mkIcon "store" "e8d1" "Action";
  mkIcon "smartphone" "e32c" "Hardware";
  mkIcon "tablet" "e32f" "Hardware";
  mkIcon "computer" "e30a" "Hardware";
  mkIcon "laptop" "e32d" "Hardware";
  mkIcon "desktop_windows" "e30b" "Hardware";
  mkIcon "devices" "e1b9" "Hardware";
  mkIcon "watch" "e334" "Hardware";
  mkIcon "tv" "e333" "Hardware"
].

(** [this.iconObjects] as [init] builds it from a list of icon objects
    (app.js 279-283): the category listed is replaced by the one
    [categorizeIcon] computes from the name. *)
Definition iconObjects (toLowerCase : string → string) (icons : list Icon) : list Icon :=
  (λ icon, mkIcon (name icon) (unicode icon) (categorizeIcon toLowerCase (name icon)))
    <$> icons.

End Icons.


(** * Properties *)

(** ** The backoff formula *)

Module Backoff.

Lemma spec_pow_Qpower (x : Q) (k : nat) :
  (spec_pow x k == Qpower x (Z.of_nat k))%Q.
Proof.
  induction k as [|k IH].
  - reflexivity.
  - cbn [spec_pow]. rewrite IH.
    replace (Z.of_nat (S k)) with (1 + Z.of_nat k)%Z by lia.
    rewrite Qpower_plus' by lia.
    rewrite Qpower_1_r. reflexivity.
Qed.

Lemma spec_pow_pos (x : Q) (k : nat) : (0 < x)%Q → (0 < spec_pow x k)%Q.
Proof.
  intros Hx. rewrite spec_pow_Qpower. by apply Qpower_0_lt.
Qed.

Lemma exponent_of_attempt (attempt : nat) :
  (1 ≤ attempt)%nat → (Z.of_nat attempt - 1)%Z = Z.of_nat (attempt - 1).
Proof. lia. Qed.

Lemma backoffDelay_refines_spec (attempt : nat) (b m cap : Q) :
  (1 ≤ attempt)%nat →
  (backoffDelay attempt b m cap == spec_delay attempt b m cap)%Q.
Proof.
  intros Ha. unfold backoffDelay, spec_delay.
  rewrite (exponent_of_attempt attempt Ha), <- spec_pow_Qpower.
  reflexivity.
Qed.

Lemma backoffDelay_nonneg (attempt : nat) (b m cap : Q) :
  (0 <= b)%Q → (0 < m)%Q → (0 <= cap)%Q →
  (0 <= backoffDelay attempt b m cap)%Q.
Proof.
  intros Hb Hm Hcap. unfold backoffDelay.
  apply Q.min_glb; [|done].
  apply Qmult_le_0_compat; [done|].
  apply Qlt_le_weak. by apply Qpower_0_lt.
Qed.

(** The three values the specification lists. *)
Example delay_first : (backoffDelay 1 500 1.5 5000 == 500)%Q.
Proof. reflexivity. Qed.

Example delay_fifth : (backoffDelay 5 500 1.5 5000 == 2531.25)%Q.
Proof. reflexivity. Qed.

Example delay_capped : (backoffDelay 20 500 1.5 5000 == 5000)%Q.
Proof. vm_compute. reflexivity. Qed.

(** Over exact rationals, for every attempt from 1 on, a base delay that is
    not negative, a positive multiplier and a cap that is not negative,
    the wait is min(baseDelay * multiplier^(attempt-1), maxDelay) with the
    power taken by repeated multiplication, and it is not negative. *)
Lemma backoffDelay_over_rationals (attempt : nat) (b m cap : Q) :
  (1 ≤ attempt)%nat → (0 <= b)%Q → (0 < m)%Q → (0 <= cap)%Q →
  (backoffDelay attempt b m cap == spec_delay attempt b m cap)%Q ∧
  (0 <= backoffDelay attempt b m cap)%Q.
Proof.
  intros Ha Hb Hm Hcap. split.
  - by apply backoffDelay_refines_spec.
  - by apply backoffDelay_nonneg.
Qed.

(** C9: with a positive base delay, a multiplier above 1 and a cap not
    below the base delay, the wait never decreases from one attempt to the
    next. *)
Theorem backoffDelay_monotone (n : nat) (b m cap : Q) :
  (1 ≤ n)%nat → (0 < b)%Q → (1 < m)%Q → (b <= cap)%Q →
  (backoffDelay n b m cap <= backoffDelay (n + 1) b m cap)%Q.
Proof.
  intros Hn Hb Hm _. unfold backoffDelay.
  apply Q.min_le_compat_r.
  apply Qmult_le_l; [done|].
  apply Qpower_le_compat_l; [lia|].
  by apply Qlt_le_weak.
Qed.

Lemma backoffDelay_monotone_witness :
  (backoffDelay 3 1000 2 10000 <= backoffDelay (3 + 1) 1000 2 10000)%Q.
Proof.
  apply (backoffDelay_monotone 3 1000 2 10000); [lia | done | done | done].
Defined.

End Backoff.

(** ** The wait in double precision *)

(** The three values the specification lists: with baseDelay 500,
    multiplier 1.5 and maxDelay 5000 the waits after attempts 1, 5 and 20
    are 500, 2531.25 and 5000. *)
Example double_delay_first :
  Double.backoffDelay 1 (Double.of_dyadic 500 0) (Double.of_dyadic 3 (-1))
    (Double.of_dyadic 5000 0) = Double.of_dyadic 500 0.
Proof. vm_compute. reflexivity. Qed.

Example double_delay_fifth :
  Double.backoffDelay 5 (Double.of_dyadic 500 0) (Double.of_dyadic 3 (-1))
    (Double.of_dyadic 5000 0) = Double.of_dyadic 10125 (-2).
Proof. vm_compute. reflexivity. Qed.

Example double_delay_capped :
  Double.backoffDelay 20 (Double.of_dyadic 500 0) (Double.of_dyadic 3 (-1))
    (Double.of_dyadic 5000 0) = Double.of_dyadic 5000 0.
Proof. vm_compute. reflexivity. Qed.

(** C2 fails on "never NaN": with baseDelay 0, multiplier 2 and maxDelay
    10000, all within what the claim allows, the wait computed after
    attempt 1025 is NaN.  Math.pow(2, 1024) is Infinity, 0 * Infinity is
    NaN, and Math.min hands the NaN through; the claim says
    min(0 * 2^1024, 10000) = 0. *)
Lemma backoff_wait_can_be_NaN :
  let baseDelay := Double.of_dyadic 0 0 in
  let multiplier := Double.of_dyadic 2 0 in
  let maxDelay := Double.of_dyadic 10000 0 in
  Double.Math_pow multiplier 1024 = SpecFloat.S754_infinity false ∧
  Double.mul baseDelay (SpecFloat.S754_infinity false) = SpecFloat.S754_nan ∧
  Double.backoffDelay 1025 baseDelay multiplier maxDelay = SpecFloat.S754_nan.
Proof. vm_compute. done. Qed.

(** One attempt earlier the power is still finite and the wait is 0. *)
Example backoff_wait_before_overflow :
  Double.backoffDelay 1024 (Double.of_dyadic 0 0) (Double.of_dyadic 2 0)
    (Double.of_dyadic 10000 0) = Double.of_dyadic 0 0.
Proof. vm_compute. reflexivity. Qed.

(** ** Traces *)

Section Traces.
Context {V : Type}.
Implicit Types (t : list (Event V)) (ev : Event V).

Lemma attempts_of_nil : attempts_of (@nil (Event V)) = [].
Proof. reflexivity. Qed.

Lemma attempts_of_app t1 t2 :
  attempts_of (t1 ++ t2) = attempts_of t1 ++ attempts_of t2.
Proof. apply omap_app. Qed.

Lemma attempts_of_cons ev t :
  attempts_of (ev :: t) =
  match ev with
  | EvAttempt n r => (n, r) :: attempts_of t
  | _ => attempts_of t
  end.
Proof. by destruct ev. Qed.

Lemma waits_of_nil : waits_of (@nil (Event V)) = [].
Proof. reflexivity. Qed.

Lemma waits_of_app t1 t2 : waits_of (t1 ++ t2) = waits_of t1 ++ waits_of t2.
Proof. apply omap_app. Qed.

Lemma waits_of_cons ev t :
  waits_of (ev :: t) =
  match ev with
  | EvDelay d => d :: waits_of t
  | _ => waits_of t
  end.
Proof. by destruct ev. Qed.

Lemma notifications_of_nil : notifications_of (@nil (Event V)) = [].
Proof. reflexivity. Qed.

Lemma notifications_of_app t1 t2 :
  notifications_of (t1 ++ t2) = notifications_of t1 ++ notifications_of t2.
Proof. apply omap_app. Qed.

Lemma notifications_of_cons ev t :
  notifications_of (ev :: t) =
  match ev with
  | EvOnRetry e n d _ => (e, n, d) :: notifications_of t
  | _ => notifications_of t
  end.
Proof. by destruct ev. Qed.

Lemma forgive_nil : forgive (@nil (Event V)) = [].
Proof. reflexivity. Qed.

Lemma forgive_app t1 t2 : forgive (t1 ++ t2) = forgive t1 ++ forgive t2.
Proof. apply omap_app. Qed.

Lemma forgive_cons ev t :
  forgive (ev :: t) =
  match ev with
  | EvOnRetry e n d _ => EvOnRetry e n d (Returned tt) :: forgive t
  | EvConsole (ErrRetryCallbackFailed _ _) => forgive t
  | _ => ev :: forgive t
  end.
Proof. destruct ev as [| | | | |[]]; reflexivity. Qed.

Lemma calls_of_nil : calls_of (@nil (Event V)) = [].
Proof. reflexivity. Qed.

Lemma calls_of_app t1 t2 : calls_of (t1 ++ t2) = calls_of t1 ++ calls_of t2.
Proof. apply omap_app. Qed.

Lemma calls_of_cons ev t :
  calls_of (ev :: t) =
  match ev with
  | EvCall r => r :: calls_of t
  | _ => calls_of t
  end.
Proof. by destruct ev. Qed.
End Traces.

Create Rewrite HintDb trace.
Create Rewrite HintDb forgive.

#[global] Hint Rewrite @attempts_of_nil @attempts_of_app @attempts_of_cons
  @waits_of_nil @waits_of_app @waits_of_cons
  @notifications_of_nil @notifications_of_app @notifications_of_cons
  @calls_of_nil @calls_of_app @calls_of_cons : trace.

#[global] Hint Rewrite @forgive_nil @forgive_app @forgive_cons : forgive.

Ltac trace_simpl := repeat (progress (autorewrite with trace; cbn [app])).
Ltac forgive_simpl :=
  repeat (progress (autorewrite with forgive; cbv beta iota; cbn [app])).

(** Membership in a trace written with [::] and [++], as a disjunction. *)
Ltac split_elem H :=
  repeat (rewrite elem_of_cons in H || rewrite elem_of_app in H).

(** ** The retry executor *)

Module Retry.
Section Facts.
Context {V W : Type}.
Variable timer : Q → State W → State W.
Variable operationName : string.
Variable operation : Operation V W.
Variables (m : nat) (base mult cap : Q).
Variable notify : option (OnRetry W).
Variable classify : option (ShouldRetry W).

Local Abbreviation loop := (retryLoop timer operationName operation m base mult cap notify classify).
Local Abbreviation ask := (not_retryable (V:=V) classify).
Local Abbreviation tell := (notify_retry (V:=V) operationName notify).

(** One iteration of the loop, case by case. *)
Lemma loop_nil last s : loop [] last s = (LoopEnd last, s, []).
Proof. reflexivity. Qed.

Lemma loop_cons a rest last s :
  loop (a :: rest) last s =
  let '(r, s1) := operation a s in
  let pre := [EvConsole (LogAttempt operationName a (m + 1)); EvAttempt a r] in
  match r with
  | Returned v =>
      (LoopReturn v, set_retryAttempts (delete operationName) s1,
       pre ++ [EvConsole (LogSuccess operationName a)])
  | Thrown e =>
      let '(stop, s2, t2) := ask e a s1 in
      let pre2 := pre ++ EvConsole (ErrFailed operationName a e) :: t2 in
      match stop with
      | Thrown e' => (LoopRaise e', s2, pre2)
      | Returned true =>
          (LoopEnd (Some e), s2, pre2 ++ [EvConsole (LogNotRetryable operationName)])
      | Returned false =>
          if decide (m < a)%nat then
            (LoopEnd (Some e), s2,
             pre2 ++ [EvConsole (LogMaxRetriesExceeded operationName)])
          else
            let d := backoffDelay a base mult cap in
            let '(_, s3, t3) := tell e a d s2 in
            let '(x, s4, t4) := loop rest (Some e) (timer d s3) in
            (x, s4, pre2 ++ EvConsole (LogRetrying operationName d) :: t3
                      ++ EvDelay d :: t4)
      end
  end.
Proof.
  cbn [retryLoop].
  unfold mbind, mret, M_bind, M_ret, console, emit, call_operation,
    registry_delete, this_delay.
  destruct (operation a s) as [[v|e] s1]; [reflexivity|].
  destruct (ask e a s1) as [[[[|]|e'] s2] t2]; cbn.
  - reflexivity.
  - destruct (decide (m < a)%nat); [reflexivity|].
    destruct (tell e a _ s2) as [[[] s3] t3].
    destruct (loop rest (Some e) _) as [[x s4] t4].
    cbn. by rewrite <- ?app_assoc.
  - by rewrite ?app_nil_r.
Qed.

(** What consulting [shouldRetry] does. *)
Lemma ask_cases e a s stop s2 t2 :
  ask e a s = (stop, s2, t2) →
  match classify with
  | None => stop = Returned false ∧ s2 = s ∧ t2 = []
  | Some f =>
      ∃ r, f e a s = (r, s2) ∧ t2 = [EvShouldRetry e a r] ∧
           stop = match r with
                  | Returned b => Returned (negb b)
                  | Thrown e' => Thrown e'
                  end
  end.
Proof.
  unfold not_retryable. destruct classify as [f|].
  - unfold mbind, mret, M_bind, M_ret, call_shouldRetry.
    destruct (f e a s) as [r s1] eqn:Hf.
    destruct r as [b|e']; cbn; intros [= <- <- <-]; eauto.
  - cbn. intros [= <- <- <-]. done.
Qed.

(** What notifying [onRetry] does: the callback's outcome only decides
    whether a console line is written. *)
Lemma tell_cases e a d s u s3 t3 :
  tell e a d s = (u, s3, t3) →
  match notify with
  | None => s3 = s ∧ t3 = []
  | Some f =>
      ∃ r, f e a d s = (r, s3) ∧
           t3 = EvOnRetry e a d r ::
                match r with
                | Returned _ => []
                | Thrown callbackError =>
                    [EvConsole (ErrRetryCallbackFailed operationName callbackError)]
                end
  end.
Proof.
  unfold notify_retry. destruct notify as [f|].
  - unfold mbind, mret, M_bind, M_ret, call_onRetry, console, emit.
    destruct (f e a d s) as [r s1] eqn:Hf.
    destruct r as [?|ce]; cbn; intros [= <- <- <-]; eauto.
  - cbn. intros [= <- <- <-]. done.
Qed.

Lemma ask_quiet e a s stop s2 t2 :
  ask e a s = (stop, s2, t2) →
  attempts_of t2 = [] ∧ waits_of t2 = [] ∧ notifications_of t2 = [].
Proof.
  intros H. apply ask_cases in H. destruct classify.
  - destruct H as (r & _ & -> & _). done.
  - destruct H as (_ & _ & ->). done.
Qed.

Lemma tell_quiet e a d s u s3 t3 :
  tell e a d s = (u, s3, t3) → attempts_of t3 = [] ∧ waits_of t3 = [].
Proof.
  intros H. apply tell_cases in H. destruct notify.
  - destruct H as (r & _ & ->). by destruct r.
  - destruct H as (_ & ->). done.
Qed.

(** *** An operation that always fails *)

Lemma loop_always_fails k : ∀ a last s x s' tr,
  always_fails operation → never_denies classify →
  (a + k = m + 2)%nat → (1 ≤ k)%nat →
  loop (seq a k) last s = (x, s', tr) →
  fst <$> attempts_of tr = seq a k ∧
  ∃ e, list.last (attempts_of tr) = Some ((m + 1)%nat, Thrown e) ∧
       x = LoopEnd (Some e).
Proof.
  induction k as [|k IH]; intros a last s x s' tr Hfail Hsr Hak Hk; [lia|].
  cbn [seq]. rewrite loop_cons.
  destruct (Hfail a s) as [e He].
  destruct (operation a s) as [r s1]. cbn in He. subst r.
  destruct (ask e a s1) as [[stop s2] t2] eqn:Hask.
  pose proof (ask_quiet _ _ _ _ _ _ Hask) as (Hq & _ & _).
  apply ask_cases in Hask.
  assert (stop = Returned false) as ->.
  { destruct classify as [f|]; cbn in Hsr.
    - destruct Hask as (r & Hf & _ & ->).
      specialize (Hsr e a s1). rewrite Hf in Hsr. cbn in Hsr. by subst r.
    - by destruct Hask as (-> & _). }
  destruct (decide (m < a)%nat) as [Hlast|Hmore].
  - intros [= <- <- <-]. assert (k = 0)%nat as -> by lia.
    trace_simpl. rewrite Hq. cbn.
    split; [done|]. exists e. split; [|done]. do 3 f_equal. lia.
  - cbv zeta. set (d := backoffDelay a base mult cap).
    destruct (tell e a d s2) as [[u s3] t3] eqn:Htell.
    apply tell_quiet in Htell as [Ht3 _].
    destruct (loop (seq (S a) k) (Some e) (timer d s3)) as [[x4 s4] t4] eqn:Hloop.
    intros [= <- <- <-].
    apply IH in Hloop as (Hseq & e' & Hlast & ->); [|done|done|lia|lia].
    trace_simpl. rewrite Hq, Ht3. cbn.
    split; [by rewrite Hseq|].
    exists e'. split; [|done].
    destruct (attempts_of t4) as [|p l]; [done|]. done.
Qed.

(** *** A denial by [shouldRetry] *)

Lemma loop_denied k : ∀ a last s x s' tr e n,
  loop (seq a k) last s = (x, s', tr) →
  EvShouldRetry e n (Returned false) ∈ tr →
  (∃ pre, tr = pre ++ denial_tail operationName e n) ∧
  (a ≤ n)%nat ∧
  fst <$> attempts_of tr = seq a (n + 1 - a) ∧
  x = LoopEnd (Some e).
Proof.
  induction k as [|k IH]; intros a last s x s' tr e n.
  { cbn. intros [= <- <- <-] Hin. by apply elem_of_nil in Hin. }
  cbn [seq]. rewrite loop_cons.
  destruct (operation a s) as [[v|e0] s1].
  { intros [= <- <- <-] Hin. cbn in Hin. split_elem Hin.
    by destruct Hin as [?|[?|[?|?%elem_of_nil]]]. }
  destruct (ask e0 a s1) as [[stop s2] t2] eqn:Hask.
  pose proof (ask_quiet _ _ _ _ _ _ Hask) as (Hq & _ & _).
  apply ask_cases in Hask.
  assert (EvShouldRetry e n (Returned false) ∈ t2 →
          t2 = [EvShouldRetry e n (Returned false)] ∧ e0 = e ∧ a = n ∧
          stop = Returned true) as Hhere.
  { destruct classify as [f|].
    - destruct Hask as (r & _ & -> & ->).
      rewrite list_elem_of_singleton. by intros [= <- <- <-].
    - destruct Hask as (_ & _ & ->). by intros ?%elem_of_nil. }
  assert (stop ≠ Returned true → EvShouldRetry e n (Returned false) ∉ t2) as Hnot.
  { intros Hstop Hin. by destruct (Hhere Hin) as (_ & _ & _ & ?). }
  destruct stop as [[|]|e'].
  - (* shouldRetry returned false: the run ends here *)
    intros [= <- <- <-] Hin. cbn in Hin. split_elem Hin.
    destruct Hin as [?|[?|[?|[Hin|[?|?%elem_of_nil]]]]]; try done.
    destruct (Hhere Hin) as (-> & -> & -> & _).
    split; [by exists [EvConsole (LogAttempt operationName n (m + 1))]|].
    split; [done|]. split; [|done].
    trace_simpl. cbn. by replace (n + 1 - n)%nat with 1%nat by lia.
  - destruct (decide (m < a)%nat).
    + intros [= <- <- <-] Hin. cbn in Hin. split_elem Hin.
      destruct Hin as [?|[?|[?|[Hin|[?|?%elem_of_nil]]]]]; try done.
      by apply Hnot in Hin.
    + cbv zeta. set (d := backoffDelay a base mult cap).
      destruct (tell e0 a d s2) as [[u s3] t3] eqn:Htell.
      pose proof (tell_quiet _ _ _ _ _ _ _ Htell) as [Ht3 _].
      apply tell_cases in Htell.
      destruct (loop (seq (S a) k) (Some e0) (timer d s3)) as [[x4 s4] t4] eqn:Hloop.
      intros [= <- <- <-] Hin. cbn in Hin. split_elem Hin.
      destruct Hin as [?|[?|[?|[Hin|[?|[Hin|[?|Hin]]]]]]]; try done.
      * by apply Hnot in Hin.
      * exfalso. destruct notify as [f|].
        -- destruct Htell as (r & _ & ->). destruct r; split_elem Hin.
           ++ by destruct Hin as [?|?%elem_of_nil].
           ++ by destruct Hin as [?|[?|?%elem_of_nil]].
        -- destruct Htell as (_ & ->). by apply elem_of_nil in Hin.
      * destruct (IH _ _ _ _ _ _ _ _ Hloop Hin) as ((pre & Hpre) & Han & Hseq & ->).
        split.
        { rewrite Hpre. eexists. cbn. rewrite !app_comm_cons, !app_assoc. reflexivity. }
        split; [lia|]. split; [|done].
        trace_simpl. rewrite Hq, Ht3. cbn. rewrite Hseq.
        replace (n + 1 - a)%nat with (S (n + 1 - S a)) by lia. done.
  - intros [= <- <- <-] Hin. cbn in Hin. split_elem Hin.
    destruct Hin as [?|[?|[?|Hin]]]; try done.
    by apply Hnot in Hin.
Qed.

(** *** Success *)

Lemma loop_returned k : ∀ a last s v s' tr,
  loop (seq a k) last s = (LoopReturn v, s', tr) →
  ∃ n s_before s_after pre,
    operation n s_before = (Returned v, s_after) ∧
    s' = set_retryAttempts (delete operationName) s_after ∧
    tr = pre ++ success_tail operationName n v.
Proof.
  induction k as [|k IH]; intros a last s v s' tr; [done|].
  cbn [seq]. rewrite loop_cons.
  destruct (operation a s) as [[v0|e0] s1] eqn:Hop.
  { intros [= <- <- <-]. exists a, s, s1.
    by exists [EvConsole (LogAttempt operationName a (m + 1))]. }
  destruct (ask e0 a s1) as [[[[|]|e'] s2] t2]; [done| |done].
  destruct (decide (m < a)%nat) as [|Hle]; [done|].
  cbv zeta. set (d := backoffDelay a base mult cap).
  destruct (tell e0 a d s2) as [[u s3] t3].
  destruct (loop (seq (S a) k) (Some e0) (timer d s3)) as [[x4 s4] t4] eqn:Hloop.
  intros [= -> <- <-].
  destruct (IH _ _ _ _ _ _ Hloop) as (i & sb & sa & pre & Hi & Hs & ->).
  exists i, sb, sa. eexists. split; [done|]. split; [done|].
  cbn. rewrite !app_comm_cons, !app_assoc. reflexivity.
Qed.

(** *** The registry across the loop *)

Lemma ask_keeps_registry e a s stop s2 t2 :
  callbacks_keep_registry timer operation notify classify →
  ask e a s = (stop, s2, t2) → retryAttempts s2 = retryAttempts s.
Proof.
  intros (_ & _ & _ & Hc) H. apply ask_cases in H. destruct classify as [f|].
  - destruct H as (r & Hf & _). specialize (Hc e a s). by rewrite Hf in Hc.
  - by destruct H as (_ & -> & _).
Qed.

Lemma tell_keeps_registry e a d s u s3 t3 :
  callbacks_keep_registry timer operation notify classify →
  tell e a d s = (u, s3, t3) → retryAttempts s3 = retryAttempts s.
Proof.
  intros (_ & _ & Hn & _) H. apply tell_cases in H. destruct notify as [f|].
  - destruct H as (r & Hf & _). specialize (Hn e a d s). by rewrite Hf in Hn.
  - by destruct H as (-> & _).
Qed.

Lemma loop_registry attempts : ∀ last s x s' tr,
  callbacks_keep_registry timer operation notify classify →
  loop attempts last s = (x, s', tr) →
  retryAttempts s' =
    match x with
    | LoopReturn _ => delete operationName (retryAttempts s)
    | _ => retryAttempts s
    end.
Proof.
  induction attempts as [|a rest IH]; intros last s x s' tr Hkeep.
  { by intros [= <- <- <-]. }
  rewrite loop_cons.
  pose proof Hkeep as (Htimer & Hop & _).
  specialize (Hop a s).
  destruct (operation a s) as [[v0|e0] s1]; cbn in Hop.
  { intros [= <- <- <-]. cbn. by rewrite Hop. }
  destruct (ask e0 a s1) as [[stop s2] t2] eqn:Hask.
  apply (ask_keeps_registry _ _ _ _ _ _ Hkeep) in Hask.
  destruct stop as [[|]|e'].
  - intros [= <- <- <-]. congruence.
  - destruct (decide (m < a)%nat).
    { intros [= <- <- <-]. congruence. }
    cbv zeta. set (d := backoffDelay a base mult cap).
    destruct (tell e0 a d s2) as [[u s3] t3] eqn:Htell.
    apply (tell_keeps_registry _ _ _ _ _ _ _ Hkeep) in Htell.
    destruct (loop rest (Some e0) (timer d s3)) as [[x4 s4] t4] eqn:Hloop.
    intros [= <- <- <-].
    rewrite (IH _ _ _ _ _ Hkeep Hloop), Htimer, Htell, Hask, Hop. done.
  - intros [= <- <- <-]. congruence.
Qed.

(** The loop is left by an exception only when [shouldRetry] throws. *)
Lemma loop_never_raises attempts : ∀ last s x s' tr e,
  never_throws classify →
  loop attempts last s = (x, s', tr) → x ≠ LoopRaise e.
Proof.
  induction attempts as [|a rest IH]; intros last s x s' tr e Hsr.
  { by intros [= <- <- <-]. }
  rewrite loop_cons.
  destruct (operation a s) as [[v0|e0] s1]; [by intros [= <- <- <-]|].
  destruct (ask e0 a s1) as [[stop s2] t2] eqn:Hask.
  apply ask_cases in Hask.
  destruct stop as [[|]|e'].
  - by intros [= <- <- <-].
  - destruct (decide (m < a)%nat); [by intros [= <- <- <-]|].
    cbv zeta. set (d := backoffDelay a base mult cap).
    destruct (tell e0 a d s2) as [[u s3] t3].
    destruct (loop rest (Some e0) (timer d s3)) as [[x4 s4] t4] eqn:Hloop.
    intros [= <- <- <-]. by eapply IH.
  - exfalso. destruct classify as [f|]; cbn in Hsr.
    + destruct Hask as (r & Hf & _ & Hr).
      destruct (Hsr e0 a s1) as [b Hb]. rewrite Hf in Hb. cbn in Hb. by subst r.
    + by destruct Hask as (? & _).
Qed.

(** *** Leaving the loop without a result *)

Lemma loop_ended attempts : ∀ last s le s' tr,
  loop attempts last s = (LoopEnd le, s', tr) →
  (attempts = [] ∧ le = last) ∨
  (∃ n e, list.last (attempts_of tr) = Some (n, Thrown e) ∧ le = Some e).
Proof.
  induction attempts as [|a rest IH]; intros last s le s' tr.
  { intros [= <- <- <-]. by left. }
  rewrite loop_cons. intros H. right. revert H.
  destruct (operation a s) as [[v0|e0] s1]; [done|].
  destruct (ask e0 a s1) as [[stop s2] t2] eqn:Hask.
  pose proof (ask_quiet _ _ _ _ _ _ Hask) as (Hq & _ & _).
  destruct stop as [[|]|e']; [| |done].
  - intros [= <- <- <-]. exists a, e0. trace_simpl. by rewrite Hq.
  - destruct (decide (m < a)%nat) as [Hgt|Hle].
    { intros [= <- <- <-]. exists a, e0. trace_simpl. by rewrite Hq. }
    cbv zeta. set (d := backoffDelay a base mult cap).
    destruct (tell e0 a d s2) as [[u s3] t3] eqn:Htell.
    apply tell_quiet in Htell as [Ht3 _].
    destruct (loop rest (Some e0) (timer d s3)) as [[x4 s4] t4] eqn:Hloop.
    intros [= -> <- <-]. trace_simpl. rewrite Hq, Ht3. cbn.
    destruct (IH _ _ _ _ _ Hloop) as [[-> ->]|(i & e & Hlast & ->)].
    + cbn in Hloop. injection Hloop as <- <-. exists a, e0. by trace_simpl.
    + exists i, e. split; [|done].
      destruct (attempts_of t4); [done|]. done.
Qed.

(** *** The whole call *)

Local Abbreviation run := (retry_with timer operationName operation m base mult cap notify classify).

Lemma retry_with_eq s :
  run s =
  let '(exit, s1, t1) := loop (seq 1 (m + 1)) None s in
  match exit with
  | LoopReturn v => (Returned v, s1, t1)
  | LoopRaise e => (Thrown e, s1, t1)
  | LoopEnd last =>
      (Thrown match last with
              | Some e => retry_failure operationName m e
              | None => newTypeError
                  "Cannot read properties of undefined (reading 'message')"
              end,
       set_retryAttempts
         (<[operationName := js_plus_one (js_or_zero (retryAttempts s1 !! operationName))]>) s1,
       t1)
  end.
Proof.
  unfold retry_with, after_loop, mbind, mret, M_bind, M_ret, registry_get, registry_set.
  destruct (loop _ None s) as [[[v|e|[e|]] s1] t1]; cbn; by rewrite ?app_nil_r.
Qed.

Lemma run_always_fails s :
  always_fails operation → never_denies classify →
  fst <$> attempts_of (trace_of (run s)) = seq 1 (m + 1) ∧
  ∃ e, list.last (attempts_of (trace_of (run s))) = Some ((m + 1)%nat, Thrown e) ∧
       outcome_of (run s) = Thrown (retry_failure operationName m e).
Proof.
  intros Hfail Hsr. rewrite retry_with_eq.
  destruct (loop _ None s) as [[x s1] t1] eqn:Hloop.
  apply loop_always_fails in Hloop as (Hseq & e & Hlast & ->); [|done|done|lia|lia].
  cbn. split; [done|]. by exists e.
Qed.

Lemma run_denied s e n :
  EvShouldRetry e n (Returned false) ∈ trace_of (run s) →
  (∃ pre, trace_of (run s) = pre ++ denial_tail operationName e n) ∧
  fst <$> attempts_of (trace_of (run s)) = seq 1 n ∧
  outcome_of (run s) = Thrown (retry_failure operationName m e).
Proof.
  rewrite retry_with_eq.
  destruct (loop _ None s) as [[x s1] t1] eqn:Hloop.
  intros Hin.
  assert (EvShouldRetry e n (Returned false) ∈ t1) as Hin1.
  { by destruct x as [?|?|[?|]]. }
  destruct (loop_denied _ _ _ _ _ _ _ _ _ Hloop Hin1) as (Hpre & Hn & Hseq & ->).
  replace (n + 1 - 1)%nat with n in Hseq by lia. done.
Qed.

Lemma run_returned s v :
  outcome_of (run s) = Returned v →
  ∃ n s_before s_after pre,
    operation n s_before = (Returned v, s_after) ∧
    final_of (run s) = set_retryAttempts (delete operationName) s_after ∧
    trace_of (run s) = pre ++ success_tail operationName n v.
Proof.
  rewrite retry_with_eq.
  destruct (loop _ None s) as [[x s1] t1] eqn:Hloop.
  destruct x as [v'|?|[?|]]; try done.
  intros [= ->]. by apply loop_returned in Hloop.
Qed.

Lemma run_registry s :
  callbacks_keep_registry timer operation notify classify →
  never_throws classify →
  retryAttempts (final_of (run s)) =
    match outcome_of (run s) with
    | Returned _ => delete operationName (retryAttempts s)
    | Thrown _ =>
        <[operationName := js_plus_one (js_or_zero (retryAttempts s !! operationName))]>
          (retryAttempts s)
    end.
Proof.
  intros Hkeep Hsr. rewrite retry_with_eq.
  destruct (loop _ None s) as [[x s1] t1] eqn:Hloop.
  pose proof (loop_registry _ _ _ _ _ _ Hkeep Hloop) as Hreg.
  destruct x as [v|e|last]; cbn.
  - done.
  - by destruct (loop_never_raises _ _ _ _ _ _ e Hsr Hloop).
  - by rewrite Hreg.
Qed.

Lemma run_registry_returned s v :
  callbacks_keep_registry timer operation notify classify →
  outcome_of (run s) = Returned v →
  retryAttempts (final_of (run s)) = delete operationName (retryAttempts s).
Proof.
  intros Hkeep. rewrite retry_with_eq.
  destruct (loop _ None s) as [[x s1] t1] eqn:Hloop.
  pose proof (loop_registry _ _ _ _ _ _ Hkeep Hloop) as Hreg.
  by destruct x as [v'|e|[?|]].
Qed.

Lemma run_failed s err :
  never_throws classify →
  outcome_of (run s) = Thrown err →
  ∃ n e, list.last (attempts_of (trace_of (run s))) = Some (n, Thrown e) ∧
         err = retry_failure operationName m e.
Proof.
  intros Hsr. rewrite retry_with_eq.
  destruct (loop _ None s) as [[x s1] t1] eqn:Hloop.
  destruct x as [v|e|le]; cbn.
  - done.
  - by destruct (loop_never_raises _ _ _ _ _ _ e Hsr Hloop).
  - intros [= <-].
    destruct (loop_ended _ _ _ _ _ _ Hloop) as [[Hnil _]|(n & e & Hlast & ->)].
    + by replace (m + 1)%nat with (S m) in Hnil by lia.
    + by exists n, e.
Qed.

(** *** A failing [onRetry] callback *)

Lemma ask_forgiven e a s stop s2 t2 :
  ask e a s = (stop, s2, t2) → forgive t2 = t2 ∧ ∀ e' n d r, EvOnRetry e' n d r ∉ t2.
Proof.
  intros H. apply ask_cases in H. destruct classify.
  - destruct H as (r & _ & -> & _). split; [done|].
    intros e' n d r'. rewrite list_elem_of_singleton. done.
  - destruct H as (_ & _ & ->). split; [done|]. intros e' n d r' ?%elem_of_nil. done.
Qed.

Lemma loop_starts a rest last s x s' tr :
  loop (a :: rest) last s = (x, s', tr) →
  ∃ r post, tr = EvConsole (LogAttempt operationName a (m + 1)) :: EvAttempt a r :: post.
Proof.
  rewrite loop_cons.
  destruct (operation a s) as [[v0|e0] s1]; [intros [= <- <- <-]; cbn; eauto|].
  destruct (ask e0 a s1) as [[[[|]|e'] s2] t2].
  - intros [= <- <- <-]. cbn. eauto.
  - destruct (decide (m < a)%nat); [intros [= <- <- <-]; cbn; eauto|].
    cbv zeta. set (d := backoffDelay a base mult cap).
    destruct (tell e0 a d s2) as [[u s3] t3].
    destruct (loop rest (Some e0) (timer d s3)) as [[x4 s4] t4].
    intros [= <- <- <-]. cbn. eauto.
  - intros [= <- <- <-]. cbn. eauto.
Qed.

Lemma loop_callback_thrown k : ∀ a last s x s' tr e n d ce,
  (a + k = m + 2)%nat →
  loop (seq a k) last s = (x, s', tr) →
  EvOnRetry e n d (Thrown ce) ∈ tr →
  d = backoffDelay n base mult cap ∧
  ∃ pre r post,
    tr = pre ++ swallowed_callback operationName (m + 1) e n d ce r ++ post.
Proof.
  induction k as [|k IH]; intros a last s x s' tr e n d ce Hak.
  { cbn. intros [= <- <- <-] Hin. by apply elem_of_nil in Hin. }
  cbn [seq]. rewrite loop_cons.
  destruct (operation a s) as [[v|e0] s1].
  { intros [= <- <- <-] Hin. cbn in Hin. split_elem Hin.
    by destruct Hin as [?|[?|[?|?%elem_of_nil]]]. }
  destruct (ask e0 a s1) as [[stop s2] t2] eqn:Hask.
  apply ask_forgiven in Hask as [_ Hquiet].
  destruct stop as [[|]|e'].
  - intros [= <- <- <-] Hin. cbn in Hin. split_elem Hin.
    destruct Hin as [?|[?|[?|[Hin|[?|?%elem_of_nil]]]]]; try done.
    by apply Hquiet in Hin.
  - destruct (decide (m < a)%nat) as [Hgt|Hle].
    { intros [= <- <- <-] Hin. cbn in Hin. split_elem Hin.
      destruct Hin as [?|[?|[?|[Hin|[?|?%elem_of_nil]]]]]; try done.
      by apply Hquiet in Hin. }
    cbv zeta. set (d0 := backoffDelay a base mult cap).
    destruct (tell e0 a d0 s2) as [[u s3] t3] eqn:Htell.
    apply tell_cases in Htell.
    destruct (loop (seq (S a) k) (Some e0) (timer d0 s3)) as [[x4 s4] t4] eqn:Hloop.
    intros [= <- <- <-] Hin. cbn in Hin. split_elem Hin.
    destruct Hin as [?|[?|[?|[Hin|[?|[Hin|[?|Hin]]]]]]]; try done.
    + by apply Hquiet in Hin.
    + (* the call made in this iteration *)
      assert (∃ r' post, t4 = EvConsole (LogAttempt operationName (S a) (m + 1))
                                :: EvAttempt (S a) r' :: post)
        as (r' & post & ->).
      { destruct k as [|k']; [lia|]. by eapply loop_starts. }
      clear Hloop IH.
      destruct notify as [f|]; [|destruct Htell as (_ & ->); by apply elem_of_nil in Hin].
      destruct Htell as (r & _ & ->).
      assert (e0 = e ∧ a = n ∧ d0 = d ∧ r = Thrown ce) as (-> & -> & Hd & ->).
      { destruct r; split_elem Hin.
        - by destruct Hin as [?|?%elem_of_nil].
        - destruct Hin as [[= -> -> -> ->]|[?|?%elem_of_nil]]; done. }
      split; [done|].
      exists ([EvConsole (LogAttempt operationName n (m + 1));
               EvAttempt n (Thrown e);
               EvConsole (ErrFailed operationName n e)] ++ t2
              ++ [EvConsole (LogRetrying operationName d0)]), r', post.
      rewrite Hd. unfold swallowed_callback. cbn.
      rewrite <- !app_assoc. cbn. reflexivity.
    + assert (S a + k = m + 2)%nat as Hak' by lia.
      destruct (IH _ _ _ _ _ _ _ _ _ _ Hak' Hloop Hin)
        as (Hd & pre & r' & post & ->).
      split; [done|]. eexists _, r', post.
      cbn. rewrite !app_comm_cons, !app_assoc. reflexivity.
  - intros [= <- <- <-] Hin. cbn in Hin. split_elem Hin.
    destruct Hin as [?|[?|[?|Hin]]]; try done.
    by apply Hquiet in Hin.
Qed.

Lemma run_callback_thrown s e n d ce :
  EvOnRetry e n d (Thrown ce) ∈ trace_of (run s) →
  d = backoffDelay n base mult cap ∧
  ∃ pre r post,
    trace_of (run s)
      = pre ++ swallowed_callback operationName (m + 1) e n d ce r ++ post.
Proof.
  rewrite retry_with_eq.
  destruct (loop _ None s) as [[x s1] t1] eqn:Hloop.
  intros Hin.
  assert (EvOnRetry e n d (Thrown ce) ∈ t1) as Hin1.
  { by destruct x as [?|?|[?|]]. }
  assert (1 + (m + 1) = m + 2)%nat as Hlen by lia.
  destruct (loop_callback_thrown _ _ _ _ _ _ _ _ _ _ _ Hlen Hloop Hin1)
    as (Hd & pre & r & post & ->).
  split; [done|]. exists pre, r, post. by destruct x as [?|?|[?|]].
Qed.

(** *** The waits *)

Lemma tell_waits e a d s u s3 t3 : tell e a d s = (u, s3, t3) → waits_of t3 = [].
Proof. intros H. by apply tell_quiet in H as [_ ?]. Qed.

Lemma ask_waits e a s stop s2 t2 : ask e a s = (stop, s2, t2) → waits_of t2 = [].
Proof. intros H. by apply ask_quiet in H as (_ & ? & _). Qed.

(** Between two consecutive attempts there is exactly one wait, of the
    delay computed for the attempt that failed. *)
Lemma loop_waits k : ∀ a last s x s' tr,
  (a + k = m + 2)%nat →
  loop (seq a k) last s = (x, s', tr) →
  waits_of tr =
    (λ n, backoffDelay n base mult cap) <$> seq a (length (attempts_of tr) - 1).
Proof.
  induction k as [|k IH]; intros a last s x s' tr Hak.
  { by intros [= <- <- <-]. }
  cbn [seq]. rewrite loop_cons.
  destruct (operation a s) as [[v|e0] s1]; [by intros [= <- <- <-]|].
  destruct (ask e0 a s1) as [[stop s2] t2] eqn:Hask.
  pose proof (ask_quiet _ _ _ _ _ _ Hask) as (Ha2 & Hw2 & _).
  destruct stop as [[|]|e'].
  - intros [= <- <- <-]. trace_simpl. by rewrite Ha2, Hw2.
  - destruct (decide (m < a)%nat) as [Hgt|Hle].
    { intros [= <- <- <-]. trace_simpl. by rewrite Ha2, Hw2. }
    cbv zeta. set (d := backoffDelay a base mult cap).
    destruct (tell e0 a d s2) as [[u s3] t3] eqn:Htell.
    apply tell_quiet in Htell as [Ha3 Hw3].
    destruct (loop (seq (S a) k) (Some e0) (timer d s3)) as [[x4 s4] t4] eqn:Hloop.
    intros [= <- <- <-]. trace_simpl. rewrite Ha2, Hw2, Ha3, Hw3. cbn.
    assert (S a + k = m + 2)%nat as Hak' by lia.
    rewrite (IH _ _ _ _ _ _ Hak' Hloop).
    destruct k as [|k']; [lia|].
    change (seq (S a) (S k')) with (S a :: seq (S (S a)) k') in Hloop.
    destruct (loop_starts _ _ _ _ _ _ _ Hloop) as (r & post & ->).
    trace_simpl. cbn. by rewrite Nat.sub_0_r.
  - intros [= <- <- <-]. trace_simpl. by rewrite Ha2, Hw2.
Qed.

Lemma run_waits s :
  waits_of (trace_of (run s)) =
    (λ n, backoffDelay n base mult cap)
      <$> seq 1 (length (attempts_of (trace_of (run s))) - 1).
Proof.
  rewrite retry_with_eq.
  destruct (loop _ None s) as [[x s1] t1] eqn:Hloop.
  assert (1 + (m + 1) = m + 2)%nat as Hlen by lia.
  pose proof (loop_waits _ _ _ _ _ _ _ Hlen Hloop) as Hw.
  by destruct x as [?|?|[?|]].
Qed.

End Facts.

(** The run with a callback that throws against the run with the callback
    that has the same effects and returns. *)
Section Calm.
Context {V W : Type}.
Variable timer : Q → State W → State W.
Variable operationName : string.
Variable operation : Operation V W.
Variables (m : nat) (base mult cap : Q).
Variable f : OnRetry W.
Variable classify : option (ShouldRetry W).

Local Abbreviation loop_with g :=
  (retryLoop timer operationName operation m base mult cap (Some g) classify).

Lemma loop_calm attempts : ∀ last s,
  loop_with (calm f) attempts last s =
  (outcome_of (loop_with f attempts last s),
   final_of (loop_with f attempts last s),
   forgive (trace_of (loop_with f attempts last s))).
Proof.
  induction attempts as [|a rest IH]; intros last s; [reflexivity|].
  rewrite !loop_cons.
  destruct (operation a s) as [[v|e] s1]; [reflexivity|].
  destruct (not_retryable (V:=V) classify e a s1) as [[stop s2] t2] eqn:Hask.
  apply ask_forgiven in Hask as [Ht2 _].
  destruct stop as [[|]|e'].
  - unfold outcome_of, final_of, trace_of. cbn [fst snd app].
    forgive_simpl. by rewrite Ht2.
  - destruct (decide (m < a)%nat).
    { unfold outcome_of, final_of, trace_of. cbn [fst snd app].
      forgive_simpl. by rewrite Ht2. }
    cbv zeta. set (d := backoffDelay a base mult cap).
    destruct (notify_retry (V:=V) operationName (Some f) e a d s2)
      as [[u s3] t3] eqn:Htell.
    destruct (notify_retry (V:=V) operationName (Some (calm f)) e a d s2)
      as [[u' s3'] t3'] eqn:Htell'.
    apply tell_cases in Htell as (r & Hf & ->).
    apply tell_cases in Htell' as (r' & Hf' & ->).
    unfold calm in Hf'. rewrite Hf in Hf'. cbn in Hf'. injection Hf' as <- <-.
    rewrite IH.
    destruct (loop_with f rest (Some e) (timer d s3)) as [[x4 s4] t4].
    unfold outcome_of, final_of, trace_of. cbn [fst snd app].
    forgive_simpl. rewrite Ht2.
    destruct r as [[]|ce]; forgive_simpl; reflexivity.
  - unfold outcome_of, final_of, trace_of. cbn [fst snd app].
    forgive_simpl. by rewrite Ht2.
Qed.

Lemma run_calm s :
  let run_with g :=
    retry_with timer operationName operation m base mult cap (Some g) classify s in
  outcome_of (run_with (calm f)) = outcome_of (run_with f) ∧
  final_of (run_with (calm f)) = final_of (run_with f) ∧
  trace_of (run_with (calm f)) = forgive (trace_of (run_with f)).
Proof.
  cbv beta zeta. rewrite !retry_with_eq, loop_calm.
  destruct (loop_with f (seq 1 (m + 1)) None s) as [[x s1] t1].
  unfold outcome_of, final_of, trace_of. cbn [fst snd].
  by destruct x as [v|e|[e|]].
Qed.
End Calm.
End Retry.

(** ** What the loop decides on *)

Module Decisions.
Section Facts.
Context {V W : Type}.
Variable timer : Q → State W → State W.
Variable operationName : string.
Variable operation : Operation V W.
Variables (m : nat) (base mult cap : Q).
Variable notify : option (OnRetry W).
Variable f : ShouldRetry W.

Local Abbreviation loop :=
  (retryLoop timer operationName operation m base mult cap notify (Some f)).
Local Abbreviation run :=
  (retry_with timer operationName operation m base mult cap notify (Some f)).

(** With a [shouldRetry], the loop consults it after each failed
    invocation, and what the trace shows as its answer is its answer. *)
Lemma loop_consults attempts : ∀ last s x s' tr,
  loop attempts last s = (x, s', tr) →
  consulted_after_each_failure operationName tr ∧
  ∀ e n r, EvShouldRetry e n r ∈ tr → ∃ s0, (f e n s0).1 = r.
Proof.
  induction attempts as [|a rest IH]; intros last s x s' tr.
  { intros [= <- <- <-]. split; [done|]. by intros e n r ?%elem_of_nil. }
  rewrite Retry.loop_cons.
  destruct (operation a s) as [[v|e0] s1].
  { intros [= <- <- <-]. split; [done|]. intros e n r Hin. cbn in Hin.
    split_elem Hin. by destruct Hin as [?|[?|[?|?%elem_of_nil]]]. }
  unfold not_retryable, call_shouldRetry, mbind, mret, M_bind, M_ret.
  destruct (f e0 a s1) as [r0 s2] eqn:Hf.
  assert (∀ e n r, r = r0 → e = e0 → n = a → ∃ s0, (f e n s0).1 = r) as Hhere.
  { intros e n r -> -> ->. exists s1. by rewrite Hf. }
  destruct r0 as [[|]|e']; cbn.
  - (* true: go on, unless the attempts are used up *)
    destruct (decide (m < a)%nat) as [Hgt|Hle].
    + intros [= <- <- <-]. split; [cbn; eauto|].
      intros e n r Hin. cbn in Hin. split_elem Hin.
      destruct Hin as [?|[?|[?|[[= -> -> ->]|[?|?%elem_of_nil]]]]]; try done.
      by apply Hhere.
    + set (d := backoffDelay a base mult cap).
      destruct (notify_retry (V:=V) operationName notify e0 a d s2)
        as [[u s3] t3] eqn:Htell.
      apply Retry.tell_cases in Htell.
      destruct (loop rest (Some e0) (timer d s3)) as [[x4 s4] t4] eqn:Hloop.
      apply IH in Hloop as [Hcons Hans].
      intros [= <- <- <-].
      assert (consulted_after_each_failure operationName t3 ∧
              ∀ tl, consulted_after_each_failure operationName tl →
                    consulted_after_each_failure operationName (t3 ++ tl)) as [_ Hthrough].
      { destruct notify as [g|].
        - destruct Htell as (r & _ & ->). by destruct r.
        - by destruct Htell as (_ & ->). }
      split.
      * cbn. split; [eauto|]. apply Hthrough. exact Hcons.
      * intros e n r Hin. cbn in Hin. split_elem Hin.
        destruct Hin as [?|[?|[?|[[= -> -> ->]|[?|[Hin|[?|Hin]]]]]]]; try done.
        -- by apply Hhere.
        -- exfalso. destruct notify as [g|].
           ++ destruct Htell as (r' & _ & ->). destruct r'; split_elem Hin.
              ** by destruct Hin as [?|?%elem_of_nil].
              ** by destruct Hin as [?|[?|?%elem_of_nil]].
           ++ destruct Htell as (_ & ->). by apply elem_of_nil in Hin.
        -- by apply Hans.
  - intros [= <- <- <-]. split; [cbn; eauto|].
    intros e n r Hin. cbn in Hin. split_elem Hin.
    destruct Hin as [?|[?|[?|[[= -> -> ->]|[?|?%elem_of_nil]]]]]; try done.
    by apply Hhere.
  - intros [= <- <- <-]. split; [cbn; eauto|].
    intros e n r Hin. cbn in Hin. split_elem Hin.
    destruct Hin as [?|[?|[?|[[= -> -> ->]|?%elem_of_nil]]]]; try done.
    by apply Hhere.
Qed.

Lemma run_consults s :
  consulted_after_each_failure operationName (trace_of (run s)) ∧
  ∀ e n r, EvShouldRetry e n r ∈ trace_of (run s) → ∃ s0, (f e n s0).1 = r.
Proof.
  rewrite Retry.retry_with_eq.
  destruct (loop _ None s) as [[x s1] t1] eqn:Hloop.
  apply loop_consults in Hloop. by destruct x as [?|?|[?|]].
Qed.

End Facts.
End Decisions.

Module Success.
Section Facts.
Context {V W : Type}.
Variable timer : Q → State W → State W.
Variable operationName : string.
Variable operation : Operation V W.
Variables (m : nat) (base mult cap : Q).
Variable notify : option (OnRetry W).
Variable classify : option (ShouldRetry W).

Local Abbreviation loop :=
  (retryLoop timer operationName operation m base mult cap notify classify).
Local Abbreviation run :=
  (retry_with timer operationName operation m base mult cap notify classify).

(** An invocation that returns ends the loop: it is the last event but
    the console line of the success, and the invocations made are those
    up to it. *)
Lemma loop_success k : ∀ a last s x s' tr n v,
  loop (seq a k) last s = (x, s', tr) →
  (n, Returned v) ∈ attempts_of tr →
  x = LoopReturn v ∧
  (a ≤ n)%nat ∧
  fst <$> attempts_of tr = seq a (n + 1 - a) ∧
  ∃ s_before s_after pre,
    operation n s_before = (Returned v, s_after) ∧
    s' = set_retryAttempts (delete operationName) s_after ∧
    tr = pre ++ success_tail operationName n v.
Proof.
  induction k as [|k IH]; intros a last s x s' tr n v.
  { cbn. intros [= <- <- <-] Hin. by apply elem_of_nil in Hin. }
  cbn [seq]. rewrite Retry.loop_cons.
  destruct (operation a s) as [[v0|e0] s1] eqn:Hop.
  { intros [= <- <- <-] Hin. revert Hin. trace_simpl. cbn.
    rewrite list_elem_of_singleton. intros [= <- <-].
    split; [done|]. split; [done|].
    split; [by replace (n + 1 - n)%nat with 1%nat by lia|].
    exists s, s1, [EvConsole (LogAttempt operationName n (m + 1))]. done. }
  destruct (not_retryable (V:=V) classify e0 a s1) as [[stop s2] t2] eqn:Hask.
  pose proof (Retry.ask_quiet _ _ _ _ _ _ _ Hask) as (Hq & _ & _).
  destruct stop as [[|]|e'].
  - intros [= <- <- <-]. trace_simpl. rewrite Hq. cbn.
    by rewrite list_elem_of_singleton.
  - destruct (decide (m < a)%nat) as [Hgt|Hle].
    { intros [= <- <- <-]. trace_simpl. rewrite Hq. cbn.
      by rewrite list_elem_of_singleton. }
    cbv zeta. set (d := backoffDelay a base mult cap).
    destruct (notify_retry (V:=V) operationName notify e0 a d s2)
      as [[u s3] t3] eqn:Htell.
    apply Retry.tell_quiet in Htell as [Ht3 _].
    destruct (loop (seq (S a) k) (Some e0) (timer d s3)) as [[x4 s4] t4] eqn:Hloop.
    intros [= <- <- <-]. trace_simpl. rewrite Hq, Ht3. cbn.
    rewrite elem_of_cons. intros [[= ]|Hin].
    destruct (IH _ _ _ _ _ _ _ _ Hloop Hin)
      as (-> & Han & Hseq & sb & sa & pre & Hn & -> & ->).
    split; [done|]. split; [lia|]. split.
    { rewrite Hseq. by replace (n + 1 - a)%nat with (S (n + 1 - S a)) by lia. }
    exists sb, sa. eexists. split; [done|]. split; [done|].
    cbn. rewrite !app_comm_cons, !app_assoc. reflexivity.
  - intros [= <- <- <-]. trace_simpl. rewrite Hq. cbn.
    by rewrite list_elem_of_singleton.
Qed.

Lemma run_success s n v :
  (n, Returned v) ∈ attempts_of (trace_of (run s)) →
  outcome_of (run s) = Returned v ∧
  fst <$> attempts_of (trace_of (run s)) = seq 1 n ∧
  ∃ s_before s_after pre,
    operation n s_before = (Returned v, s_after) ∧
    final_of (run s) = set_retryAttempts (delete operationName) s_after ∧
    trace_of (run s) = pre ++ success_tail operationName n v.
Proof.
  rewrite Retry.retry_with_eq.
  destruct (loop _ None s) as [[x s1] t1] eqn:Hloop.
  intros Hin.
  assert ((n, Returned v) ∈ attempts_of t1) as Hin1.
  { by destruct x as [?|?|[?|]]. }
  destruct (loop_success _ _ _ _ _ _ _ _ _ Hloop Hin1)
    as (-> & Han & Hseq & sb & sa & pre & Hn & -> & ->).
  replace (n + 1 - 1)%nat with n in Hseq by lia.
  split; [done|]. split; [done|]. by exists sb, sa, pre.
Qed.

End Facts.
End Success.


(** ** Claims about [executeWithRetry] *)

(** C1, as stated (every config with maxRetries = m), fails: with
    [maxRetries: 2] and a [shouldRetry] that returns false, an operation
    that always fails is invoked once, not three times. *)
Lemma denied_retry_stops_after_one_invocation :
  always_fails Scenario.boom ∧
  maxRetries Scenario.two_retries_deny = Some 2%nat ∧
  attempts_of (trace_of (executeWithRetry Scenario.idle "load" Scenario.boom
                           Scenario.two_retries_deny Scenario.s0))
    = [(1%nat, Thrown (newError "boom"))].
Proof.
  split; [|split].
  - intros n s. by exists (newError "boom").
  - reflexivity.
  - vm_compute. reflexivity.
Qed.

(** C1 (amended): for every operation that fails on every invocation and
    every config with maxRetries = m whose shouldRetry is absent or never
    returns false, executeWithRetry invokes the operation exactly m+1
    times, in sequence, with attempt numbers 1..m+1, and then raises the
    failure that wraps the error e of the last invocation: an Error whose
    message is "<operationName> failed after <m+1> attempts. Last error:
    <message of e>". *)
Theorem always_failing_runs_all_attempts {V W : Type}
    (timer : Q → State W → State W) (operationName : string)
    (operation : Operation V W) (options : RetryOptions V W) (m : nat)
    (s : State W) :
  always_fails operation →
  never_denies (shouldRetry options) →
  maxRetries options = Some m →
  let run := executeWithRetry timer operationName operation options s in
  fst <$> attempts_of (trace_of run) = seq 1 (m + 1) ∧
  ∃ e failure,
    list.last (attempts_of (trace_of run)) = Some ((m + 1)%nat, Thrown e) ∧
    outcome_of run = Thrown failure ∧
    errName failure = "Error" ∧
    message failure =
      operationName +:+ " failed after " +:+ pretty (m + 1)%nat +:+
      " attempts. Last error: " +:+ message e.
Proof.
  intros Hfail Hsr Hm. unfold executeWithRetry. rewrite Hm. cbn [default].
  destruct (Retry.run_always_fails timer operationName operation m
              (default this_baseDelay (baseDelay options))
              (default this_backoffMultiplier (backoffMultiplier options))
              (default this_maxDelay (maxDelay options))
              (onRetry options) (shouldRetry options) s Hfail Hsr)
    as (Hseq & e & Hlast & Hout).
  split; [done|]. exists e, (retry_failure operationName m e).
  split; [done|]. split; [done|]. split; reflexivity.
Qed.

Lemma always_failing_runs_all_attempts_witness :
  let run := executeWithRetry Scenario.idle "load" Scenario.boom
               Scenario.two_retries Scenario.s0 in
  fst <$> attempts_of (trace_of run) = seq 1 (2 + 1) ∧
  ∃ e failure,
    list.last (attempts_of (trace_of run)) = Some ((2 + 1)%nat, Thrown e) ∧
    outcome_of run = Thrown failure ∧
    errName failure = "Error" ∧
    message failure =
      "load" +:+ " failed after " +:+ pretty (2 + 1)%nat +:+
      " attempts. Last error: " +:+ message e.
Proof.
  apply (always_failing_runs_all_attempts Scenario.idle "load" Scenario.boom
           Scenario.two_retries 2 Scenario.s0).
  - intros n s. by exists (newError "boom").
  - exact I.
  - reflexivity.
Defined.

(** C4: with a shouldRetry predicate in the config, the predicate is
    consulted after each failed attempt: the failed invocation is followed
    by the console line of the failure and by the call of shouldRetry with
    that error and that attempt number, and the answer the trace shows is
    the predicate's.  Whenever the answer for attempt n is false, the run
    ends right there: the trace ends with that failed invocation, the call
    of shouldRetry and the console line of the break (no later invocation,
    no wait, no call of onRetry), the operation was invoked exactly n
    times (attempts 1..n; once when n = 1, whatever maxRetries is), and
    what is raised is the failure that wraps that error: an Error whose
    message ends with "Last error: <message of the error>". *)
Theorem denied_retry_stops_immediately {V W : Type}
    (timer : Q → State W → State W) (operationName : string)
    (operation : Operation V W) (options : RetryOptions V W)
    (f : ShouldRetry W) (s : State W) :
  shouldRetry options = Some f →
  let run := executeWithRetry timer operationName operation options s in
  let total := (default this_maxRetries (maxRetries options) + 1)%nat in
  consulted_after_each_failure operationName (trace_of run) ∧
  (∀ e n r, EvShouldRetry e n r ∈ trace_of run → ∃ s0, (f e n s0).1 = r) ∧
  ∀ e n, EvShouldRetry e n (Returned false) ∈ trace_of run →
    (∃ pre, trace_of run = pre ++ denial_tail operationName e n) ∧
    fst <$> attempts_of (trace_of run) = seq 1 n ∧
    ∃ failure,
      outcome_of run = Thrown failure ∧
      errName failure = "Error" ∧
      message failure =
        operationName +:+ " failed after " +:+ pretty total +:+
        " attempts. Last error: " +:+ message e.
Proof.
  intros Hf run total. subst run total. unfold executeWithRetry. rewrite Hf.
  split; [|split].
  - apply Decisions.run_consults.
  - apply Decisions.run_consults.
  - intros e n Hin.
    destruct (Retry.run_denied _ _ _ _ _ _ _ _ _ _ _ _ Hin) as (Hpre & Hseq & Hout).
    split; [done|]. split; [done|].
    eexists. split; [exact Hout|]. split; reflexivity.
Qed.

Lemma denied_retry_stops_immediately_witness :
  let run := executeWithRetry Scenario.idle "load" Scenario.boom
               Scenario.two_retries_deny Scenario.s0 in
  let total := (default this_maxRetries (maxRetries Scenario.two_retries_deny) + 1)%nat in
  EvShouldRetry (newError "boom") 1 (Returned false) ∈ trace_of run ∧
  consulted_after_each_failure "load" (trace_of run) ∧
  (∀ e n r, EvShouldRetry e n r ∈ trace_of run → ∃ s0, (Scenario.deny e n s0).1 = r) ∧
  ∀ e n, EvShouldRetry e n (Returned false) ∈ trace_of run →
    (∃ pre, trace_of run = pre ++ denial_tail "load" e n) ∧
    fst <$> attempts_of (trace_of run) = seq 1 n ∧
    ∃ failure,
      outcome_of run = Thrown failure ∧
      errName failure = "Error" ∧
      message failure =
        "load" +:+ " failed after " +:+ pretty total +:+
        " attempts. Last error: " +:+ message e.
Proof.
  split.
  { vm_compute. do 3 apply list_elem_of_further. apply list_elem_of_here. }
  apply (denied_retry_stops_immediately Scenario.idle "load" Scenario.boom
           Scenario.two_retries_deny Scenario.deny Scenario.s0).
  reflexivity.
Defined.

(** C5 fails on the attempt count: with [maxRetries: 2] and a
    [shouldRetry] that returns false, one invocation is made, and the
    failure raised reads "failed after 3 attempts". *)
Lemma failure_message_overstates_attempts :
  let run := executeWithRetry Scenario.idle "load" Scenario.boom
               Scenario.two_retries_deny Scenario.s0 in
  length (attempts_of (trace_of run)) = 1%nat ∧
  outcome_of run =
    Thrown (newError "load failed after 3 attempts. Last error: boom").
Proof. vm_compute. done. Qed.

(** What does hold of a final failure: the message names the operation,
    counts [maxRetries + 1] attempts and ends with the message of the
    error of the last invocation, and the operation's slot in the map goes
    from [x] to [(x || 0) + 1]. *)
Lemma final_failure_shape {V W : Type}
    (timer : Q → State W → State W) (operationName : string)
    (operation : Operation V W) (options : RetryOptions V W)
    (s : State W) (err : Error) :
  let run := executeWithRetry timer operationName operation options s in
  never_throws (shouldRetry options) →
  outcome_of run = Thrown err →
  (∃ n e, list.last (attempts_of (trace_of run)) = Some (n, Thrown e) ∧
          err = retry_failure operationName
                  (default this_maxRetries (maxRetries options)) e) ∧
  (callbacks_keep_registry timer operation (onRetry options) (shouldRetry options) →
   retryAttempts (final_of run) =
     <[operationName := js_plus_one (js_or_zero (retryAttempts s !! operationName))]>
       (retryAttempts s)).
Proof.
  intros run Hsr Herr. split.
  - by apply Retry.run_failed.
  - intros Hkeep. unfold run, executeWithRetry in *.
    rewrite Retry.run_registry by done. by rewrite Herr.
Qed.

(** A counter that is already there is incremented by one. *)
Lemma counter_incremented (n : Z) :
  js_plus_one (js_or_zero (Some (ENum n))) = ENum (n + 1).
Proof. reflexivity. Qed.

(** A first failure stores 1. *)
Lemma counter_created : js_plus_one (js_or_zero None) = ENum 1.
Proof. reflexivity. Qed.

(** C7, as stated (for every operation name), fails: a successful run under
    the name ["circuit_X"] deletes the slot that holds the circuit of
    operation ["X"]. *)
Lemma success_under_circuit_key_deletes_circuit :
  let run := executeWithRetry Scenario.idle "circuit_X" Scenario.third_time_lucky
               Scenario.two_retries Scenario.tripped in
  retryAttempts Scenario.tripped !! "circuit_X" = Some (ECircuit 0) ∧
  heap Scenario.tripped !! 0%nat = Some (mkCircuit Open 1 10 0) ∧
  outcome_of run = Returned 42%nat ∧
  retryAttempts (final_of run) !! "circuit_X" = None.
Proof. vm_compute. done. Qed.

(** C7 (amended): when an attempt n of executeWithRetry returns, the run
    returns that value and ends with that invocation: the invocations made
    are exactly the attempts 1..n, and nothing follows the successful one
    but the console line of the success.  The final state is the state the
    operation left with the slot of the operation name deleted: every slot
    under another key and every circuit object is as the operation left
    it.  Circuit-state slots are therefore untouched exactly when the
    operation name is not itself a circuit key.  When the callbacks keep
    the map as it is, the final map is the initial one minus the operation
    name. *)
Theorem success_deletes_own_slot_only {V W : Type}
    (timer : Q → State W → State W) (operationName : string)
    (operation : Operation V W) (options : RetryOptions V W)
    (s : State W) (n : nat) (v : V) :
  let run := executeWithRetry timer operationName operation options s in
  (n, Returned v) ∈ attempts_of (trace_of run) →
  outcome_of run = Returned v ∧
  fst <$> attempts_of (trace_of run) = seq 1 n ∧
  (∃ s_before s_after pre,
     operation n s_before = (Returned v, s_after) ∧
     trace_of run = pre ++ success_tail operationName n v ∧
     final_of run = set_retryAttempts (delete operationName) s_after ∧
     heap (final_of run) = heap s_after ∧
     ∀ key, key ≠ operationName →
       retryAttempts (final_of run) !! key = retryAttempts s_after !! key) ∧
  retryAttempts (final_of run) !! operationName = None ∧
  (callbacks_keep_registry timer operation (onRetry options) (shouldRetry options) →
   retryAttempts (final_of run) = delete operationName (retryAttempts s) ∧
   ∀ key, key ≠ operationName →
     retryAttempts (final_of run) !! key = retryAttempts s !! key).
Proof.
  intros run Hin. subst run. unfold executeWithRetry in *.
  destruct (Success.run_success _ _ _ _ _ _ _ _ _ _ _ _ Hin)
    as (Hret & Hseq & sb & sa & pre & Hop & Hfin & Htr).
  split; [done|]. split; [done|]. split; [|split].
  - exists sb, sa, pre. rewrite Hfin. repeat split; try done.
    intros key Hkey. cbn. by rewrite lookup_delete_ne.
  - rewrite Hfin. cbn. apply lookup_delete_eq.
  - intros Hkeep.
    pose proof (Retry.run_registry_returned _ _ _ _ _ _ _ _ _ _ _ Hkeep Hret) as Hreg.
    rewrite Hreg. split; [done|].
    intros key Hkey. by rewrite lookup_delete_ne.
Qed.

Lemma success_deletes_own_slot_only_witness :
  let run := executeWithRetry Scenario.idle "load" Scenario.third_time_lucky
               Ledger.five_retries Ledger.counted in
  (retryAttempts Ledger.counted !! "load" = Some (ENum 3) ∧
   retryAttempts Ledger.counted !! "circuit_X" = Some (ECircuit 0) ∧
   attempts_of (trace_of run) =
     [(1%nat, Thrown (newError "busy")); (2%nat, Thrown (newError "busy"));
      (3%nat, Returned 42%nat)]) ∧
  outcome_of run = Returned 42%nat ∧
  fst <$> attempts_of (trace_of run) = seq 1 3 ∧
  (∃ s_before s_after pre,
     Scenario.third_time_lucky 3 s_before = (Returned 42%nat, s_after) ∧
     trace_of run = pre ++ success_tail "load" 3 42%nat ∧
     final_of run = set_retryAttempts (delete "load") s_after ∧
     heap (final_of run) = heap s_after ∧
     ∀ key, key ≠ "load" →
       retryAttempts (final_of run) !! key = retryAttempts s_after !! key) ∧
  retryAttempts (final_of run) !! "load" = None ∧
  (callbacks_keep_registry Scenario.idle Scenario.third_time_lucky
     (onRetry Ledger.five_retries) (shouldRetry Ledger.five_retries) →
   retryAttempts (final_of run) = delete "load" (retryAttempts Ledger.counted) ∧
   ∀ key, key ≠ "load" →
     retryAttempts (final_of run) !! key = retryAttempts Ledger.counted !! key).
Proof.
  split; [repeat split; vm_compute; reflexivity|].
  apply (success_deletes_own_slot_only Scenario.idle "load" Scenario.third_time_lucky
           Ledger.five_retries Ledger.counted 3 42%nat).
  vm_compute. do 2 apply list_elem_of_further. apply list_elem_of_here.
Defined.

(** ** The circuit breaker *)

Module Breaker.
Section Facts.
Context {V W : Type}.
Variable operationName : string.
Variable options : CircuitOptions.

Local Abbreviation key := ("circuit_" +:+ operationName).
Local Abbreviation threshold := (default 5%Z (failureThreshold options)).
Local Abbreviation timeout := (default 30000%Z (resetTimeout options)).
Local Abbreviation breaker := (executeWithCircuitBreaker (V:=V) (W:=W) operationName).

(** The lazy creation: a missing slot is filled with a closed circuit,
    and the call goes on as if it had been there. *)
Lemma getCircuitState_missing (s : State W) :
  retryAttempts s !! key = None →
  ∃ l, getCircuitState (V:=V) key s =
         (ECircuit l,
          mkState (<[key := ECircuit l]> (retryAttempts s))
                  (<[l := mkCircuit Closed 0 0 (now s)]> (heap s)) (now s) (world s),
          []).
Proof.
  intros Hnone. unfold getCircuitState. rewrite Hnone. eauto.
Qed.

Lemma getCircuitState_present (s : State W) (v : Entry) :
  retryAttempts s !! key = Some v →
  getCircuitState (V:=V) key s = (v, s, []).
Proof. intros Hv. unfold getCircuitState. by rewrite Hv. Qed.

Lemma breaker_unfold (operation : Thunk V W) (s : State W) :
  breaker operation options s =
  let '(circuit, s1, t1) := getCircuitState (V:=V) key s in
  let '(r, s2, t2) := with_circuit operationName operation threshold timeout circuit s1 in
  (r, s2, t1 ++ t2).
Proof. reflexivity. Qed.

Lemma breaker_missing (operation : Thunk V W) (s : State W) :
  retryAttempts s !! key = None →
  breaker operation options s =
  breaker operation options (final_of (getCircuitState (V:=V) key s)).
Proof.
  intros Hnone. destruct (getCircuitState_missing s Hnone) as [l Hl].
  rewrite !breaker_unfold, Hl. cbn [final_of fst snd].
  rewrite getCircuitState_present with (v := ECircuit l); [done|].
  cbn. apply lookup_insert_eq.
Qed.

(** Open and still within the timeout: rejected, nothing invoked,
    nothing changed. *)
Lemma breaker_rejects (operation : Thunk V W) (s : State W) l c :
  circuit_at key s l c →
  state c = Open →
  (now s - lastFailureTime c < timeout)%Z →
  breaker operation options s = (Thrown (circuit_open_error operationName), s, []).
Proof.
  intros [Hslot Hobj] Hopen Hearly.
  rewrite breaker_unfold, (getCircuitState_present s _ Hslot).
  unfold with_circuit, mbind, M_bind, mret, M_ret, deref, Date_now.
  rewrite Hobj.
  rewrite decide_True by done. rewrite decide_True by done. reflexivity.
Qed.

(** Not rejected: the operation is invoked once, and the object is
    updated from what the operation left. *)
Lemma breaker_invokes (operation : Thunk V W) (s : State W) l c :
  circuit_at key s l c →
  ¬ (state c = Open ∧ (now s - lastFailureTime c < timeout)%Z) →
  breaker operation options s =
  let '(r, s3) := operation (admitted l c s) in
  let c3 := heap s3 !!! l in
  match r with
  | Returned v =>
      (Returned v, set_heap (<[l := after_success (now s3) c3]>) s3,
       admission_log operationName c ++ [EvCall r; EvConsole (LogCircuitReset operationName)])
  | Thrown e =>
      (Thrown e, set_heap (<[l := after_failure threshold (now s3) c3]>) s3,
       admission_log operationName c ++ EvCall r :: opening_log operationName threshold c3)
  end.
Proof.
  intros [Hslot Hobj] Hnot.
  rewrite breaker_unfold, (getCircuitState_present s _ Hslot).
  unfold with_circuit, mbind, M_bind, mret, M_ret, deref, Date_now,
    assign, console, emit, call_thunk, admitted, admission_log, opening_log.
  rewrite Hobj.
  destruct (decide (state c = Open)) as [Hopen|Hclosed].
  - rewrite decide_False by (intros ?; by apply Hnot).
    cbn. rewrite Hobj.
    destruct (operation _) as [[v|e] s3]; cbn.
    + rewrite !lookup_total_insert_eq. unfold set_heap; cbn.
      rewrite !insert_insert_eq. reflexivity.
    + rewrite !lookup_total_insert_eq. unfold set_heap; cbn.
      rewrite !insert_insert_eq. cbn.
      unfold after_failure.
      destruct (decide (failureCount (heap s3 !!! l) + 1 >= threshold)%Z); cbn.
      * rewrite !lookup_total_insert_eq, !insert_insert_eq. reflexivity.
      * reflexivity.
  - cbn.
    destruct (operation s) as [[v|e] s3]; cbn.
    + rewrite !lookup_total_insert_eq. unfold set_heap; cbn.
      rewrite !insert_insert_eq. reflexivity.
    + rewrite !lookup_total_insert_eq. unfold set_heap; cbn.
      rewrite !insert_insert_eq. cbn.
      unfold after_failure.
      destruct (decide (failureCount (heap s3 !!! l) + 1 >= threshold)%Z); cbn.
      * rewrite !lookup_total_insert_eq, !insert_insert_eq. reflexivity.
      * reflexivity.
Qed.

Lemma calls_of_admission_log c : calls_of (admission_log (V:=V) operationName c) = [].
Proof. unfold admission_log. by case_decide. Qed.

Lemma calls_of_opening_log c :
  calls_of (opening_log (V:=V) operationName threshold c) = [].
Proof. unfold opening_log. by case_decide. Qed.

(** *** A streak of failures *)

Lemma failing_call (between : State W → State W) (operation : Thunk V W)
    (s : State W) (failures : Z) :
  keeps_circuit key between →
  keeps_circuit key (λ s, (operation s).2) →
  always_throws operation →
  streak key failures s →
  let run := breaker operation options (between s) in
  length (calls_of (trace_of run)) = 1%nat ∧
  ∃ l, retryAttempts (final_of run) !! key = Some (ECircuit l) ∧
       failureCount (heap (final_of run) !!! l) = (failures + 1)%Z ∧
       if decide (failures + 1 >= threshold)%Z
       then state (heap (final_of run) !!! l) = Open
       else state (heap (final_of run) !!! l) ≠ Open.
Proof.
  intros Hbetween Hkeeps Hfails Hstreak run.
  (* Reduce to a state in which the slot holds a circuit that is not open. *)
  assert (∃ s1 l, run = breaker operation options s1 ∧
                  retryAttempts s1 !! key = Some (ECircuit l) ∧
                  state (heap s1 !!! l) ≠ Open ∧
                  failureCount (heap s1 !!! l) = failures)
    as (s1 & l & -> & Hslot & Hstate & Hcount).
  { destruct (Hbetween s) as [Hslot Hobj].
    destruct Hstreak as [[-> Hnone]|(l & Hl & Hstate & Hcount)].
    - rewrite Hnone in Hslot.
      destruct (getCircuitState_missing (between s) Hslot) as [l Hl].
      eexists _, l. split; [by apply breaker_missing|].
      rewrite Hl. cbn. rewrite lookup_insert_eq, lookup_total_insert_eq. done.
    - exists (between s), l. rewrite Hslot, (Hobj l Hl). done. }
  rewrite (breaker_invokes operation s1 l (heap s1 !!! l)); [|done|tauto].
  unfold admitted, admission_log. rewrite !decide_False by done.
  destruct (Hfails s1) as [e He].
  destruct (Hkeeps s1) as [Hslot3 Hobj3]. specialize (Hobj3 l Hslot).
  destruct (operation s1) as [r s3]. cbn in He, Hslot3, Hobj3. subst r.
  unfold trace_of, final_of. cbn [fst snd]. trace_simpl.
  rewrite calls_of_opening_log.
  split; [done|]. exists l. cbn [set_heap heap retryAttempts].
  rewrite lookup_total_insert_eq, Hobj3. unfold after_failure; cbn.
  rewrite Hslot3, Hcount. split; [done|]. split; [done|].
  by case_decide.
Qed.

Lemma failing_streak script : ∀ (s : State W) (failures : Z),
  failing_script key script →
  script ≠ [] →
  streak key failures s →
  (failures + Z.of_nat (length script) = threshold)%Z →
  let run := call_sequence (V:=V) operationName options script s in
  length (calls_of run.2) = length script ∧
  ∃ l, retryAttempts run.1 !! key = Some (ECircuit l) ∧
       state (heap run.1 !!! l) = Open ∧
       failureCount (heap run.1 !!! l) = threshold.
Proof.
  induction script as [|[between operation] rest IH];
    intros s failures Hscript Hne Hstreak Hlen; [done|].
  apply Forall_cons in Hscript as [(Hbetween & Hkeeps & Hfails) Hrest].
  cbn [call_sequence].
  pose proof (failing_call between operation s failures Hbetween Hkeeps Hfails Hstreak)
    as [Hcalls (l & Hslot & Hcount & Hstate)].
  destruct (breaker operation options (between s)) as [[r s1] t1].
  cbn [trace_of final_of fst snd] in *.
  destruct rest as [|step rest'].
  - cbn in *. rewrite app_nil_r. split; [done|]. exists l.
    rewrite decide_True in Hstate by lia. split; [done|]. split; [done|]. lia.
  - rewrite decide_False in Hstate by (cbn in Hlen; lia).
    specialize (IH s1 (failures + 1)%Z Hrest).
    destruct (call_sequence operationName options (step :: rest') s1) as [s2 t2].
    destruct IH as [Hcalls2 Hfinal]; [done| |cbn [length] in *; lia|].
    { right. by exists l. }
    cbn [fst snd] in *. rewrite calls_of_app, length_app, Hcalls, Hcalls2.
    split; [done|]. done.
Qed.

(** *** Failing calls from any consistent state *)

Lemma failing_call_any (between : State W → State W) (operation : Thunk V W)
    (s : State W) (failed : Z) :
  keeps_circuit key between →
  keeps_circuit key (λ s, (operation s).2) →
  always_throws operation →
  tripping key threshold failed s →
  let run := breaker operation options (between s) in
  ∃ l, retryAttempts (final_of run) !! key = Some (ECircuit l) ∧
       let c := heap (final_of run) !!! l in
       (state c = Open ∧ (threshold <= failureCount c)%Z) ∨
       (state c ≠ Open ∧ (failed + 1 <= failureCount c < threshold)%Z).
Proof.
  intros Hbetween Hkeeps Hfails Htrip run.
  assert (∃ s1 l, run = breaker operation options s1 ∧
                  retryAttempts s1 !! key = Some (ECircuit l) ∧
                  ((state (heap s1 !!! l) = Open ∧
                    (threshold <= failureCount (heap s1 !!! l))%Z) ∨
                   (state (heap s1 !!! l) ≠ Open ∧
                    (failed <= failureCount (heap s1 !!! l))%Z)))
    as (s1 & l & -> & Hslot & Hcase).
  { destruct (Hbetween s) as [Hslot Hobj].
    destruct Htrip as [[-> Hnone]|(l & Hl & Hcase)].
    - rewrite Hnone in Hslot.
      destruct (getCircuitState_missing (between s) Hslot) as [l Hl].
      eexists _, l. split; [by apply breaker_missing|].
      rewrite Hl. cbn. rewrite lookup_insert_eq, lookup_total_insert_eq. cbn.
      split; [done|]. right. split; [done|lia].
    - exists (between s), l. rewrite Hslot, (Hobj l Hl). done. }
  set (c := heap s1 !!! l) in *.
  assert (circuit_at key s1 l c) as Hat by done.
  destruct (decide (state c = Open ∧ (now s1 - lastFailureTime c < timeout)%Z))
    as [[Hopen Hearly]|Hadmit].
  { (* rejected: nothing changes *)
    rewrite (breaker_rejects operation s1 l c Hat Hopen Hearly).
    unfold final_of; cbn [fst snd]. exists l. split; [done|].
    destruct Hcase as [?|[? _]]; [by left|done]. }
  rewrite (breaker_invokes operation s1 l c Hat Hadmit).
  destruct (Hfails (admitted l c s1)) as [e He].
  destruct (Hkeeps (admitted l c s1)) as [Hslot3 Hobj3].
  assert (retryAttempts (admitted l c s1) !! key = Some (ECircuit l)) as Hslot_in.
  { unfold admitted. by case_decide. }
  specialize (Hobj3 l Hslot_in). rewrite Hslot_in in Hslot3.
  destruct (operation (admitted l c s1)) as [r s3]. cbn in He, Hslot3, Hobj3. subst r.
  unfold final_of; cbn [fst snd set_heap heap retryAttempts].
  exists l. split; [done|]. rewrite lookup_total_insert_eq, Hobj3.
  unfold admitted.
  destruct Hcase as [[Hopen Hcount]|[Hclosed Hcount]].
  - rewrite (decide_True (P := state c = Open)) by done.
    cbn [set_heap heap]. rewrite lookup_total_insert_eq.
    unfold after_failure; cbn.
    rewrite decide_True by lia. left. split; [done|lia].
  - rewrite (decide_False (P := state c = Open)) by done. fold c.
    unfold after_failure; cbn.
    case_decide; [left; split; [done|lia] | right; split; [done|lia]].
Qed.

Lemma failing_streak_any script : ∀ (s : State W) (failed : Z),
  failing_script key script →
  script ≠ [] →
  tripping key threshold failed s →
  let run := call_sequence (V:=V) operationName options script s in
  ∃ l, retryAttempts run.1 !! key = Some (ECircuit l) ∧
       let c := heap run.1 !!! l in
       (state c = Open ∧ (threshold <= failureCount c)%Z) ∨
       (state c ≠ Open ∧
        (failed + Z.of_nat (length script) <= failureCount c < threshold)%Z).
Proof.
  induction script as [|[between operation] rest IH];
    intros s failed Hscript Hne Htrip; [done|].
  apply Forall_cons in Hscript as [(Hbetween & Hkeeps & Hfails) Hrest].
  cbn [call_sequence].
  pose proof (failing_call_any between operation s failed Hbetween Hkeeps Hfails Htrip)
    as (l & Hslot & Hcase).
  destruct (breaker operation options (between s)) as [[r s1] t1].
  unfold final_of in Hslot, Hcase. cbn [fst snd] in Hslot, Hcase.
  destruct rest as [|step rest'].
  - cbn [call_sequence fst snd length]. exists l. split; [done|].
    cbn zeta in *. destruct Hcase as [?|[? ?]]; [by left|right; split; [done|lia]].
  - specialize (IH s1 (failed + 1)%Z Hrest).
    destruct (call_sequence operationName options (step :: rest') s1) as [s2 t2].
    destruct IH as (l2 & Hslot2 & Hcase2); [done| |].
    { right. exists l. split; [done|]. cbn zeta in Hcase.
      destruct Hcase as [?|[? ?]]; [by left|right; split; [done|lia]]. }
    cbn [fst snd] in *. exists l2. split; [done|].
    cbn zeta in *. destruct Hcase2 as [?|[? ?]]; [by left|right].
    split; [done|]. cbn [length] in *. lia.
Qed.

(** *** An open circuit *)

(** Open and the timeout has elapsed: the circuit is marked half-open
    and the operation is invoked once on that state. *)
Lemma breaker_trial (operation : Thunk V W) (s : State W) l c :
  circuit_at key s l c →
  state c = Open →
  (timeout <= now s - lastFailureTime c)%Z →
  let trial := set_heap (<[l := set_state HalfOpen c]>) s in
  let run := breaker operation options s in
  state (heap trial !!! l) = HalfOpen ∧
  calls_of (trace_of run) = [(operation trial).1] ∧
  outcome_of run = (operation trial).1 ∧
  ∀ v, (operation trial).1 = Returned v →
    heap (final_of run) !!! l
      = after_success (now (operation trial).2) (heap (operation trial).2 !!! l) ∧
    retryAttempts (final_of run) !! key = retryAttempts (operation trial).2 !! key.
Proof.
  intros Hat Hopen Hlate trial run. subst run.
  rewrite (breaker_invokes operation s l c Hat) by lia.
  unfold admitted, admission_log. rewrite !decide_True by done. fold trial.
  split. { unfold trial. cbn. by rewrite lookup_total_insert_eq. }
  destruct (operation trial) as [[v|e] s3]; unfold trace_of, outcome_of, final_of;
    cbn [fst snd]; trace_simpl.
  - split; [done|]. split; [done|]. intros v' _. cbn.
    by rewrite lookup_total_insert_eq.
  - rewrite calls_of_opening_log. done.
Qed.

(** *** A failure of the half-open trial *)

Lemma trial_failure (operation : Thunk V W) (s : State W) l c e s3 :
  circuit_at key s l c →
  state c = HalfOpen ∨
    (state c = Open ∧ (timeout <= now s - lastFailureTime c)%Z) →
  operation (admitted l c s) = (Thrown e, s3) →
  heap s3 !!! l = heap (admitted l c s) !!! l →
  let run := breaker operation options s in
  let c' := heap (final_of run) !!! l in
  state (heap (admitted l c s) !!! l) = HalfOpen ∧
  calls_of (trace_of run) = [Thrown e] ∧
  outcome_of run = Thrown e ∧
  failureCount c' = (failureCount c + 1)%Z ∧
  lastFailureTime c' = now s3 ∧
  state c' = if decide (failureCount c + 1 >= threshold)%Z then Open else HalfOpen.
Proof.
  intros Hat Hmode Hop Hkept run c'. subst c' run.
  assert (heap (admitted l c s) !!! l = set_state HalfOpen c) as Hin.
  { unfold admitted. destruct Hmode as [Hhalf|[Hopen _]].
    - rewrite decide_False by congruence. destruct Hat as [_ ->].
      destruct c; cbn in *; by subst.
    - rewrite decide_True by done. cbn. by rewrite lookup_total_insert_eq. }
  rewrite (breaker_invokes operation s l c Hat);
    [|destruct Hmode as [Hhalf|[_ ?]]; [intros [? _]; congruence | lia]].
  rewrite Hop. unfold trace_of, outcome_of, final_of. cbn [fst snd].
  trace_simpl. rewrite calls_of_opening_log, calls_of_admission_log.
  cbn [set_heap heap]. rewrite lookup_total_insert_eq, Hkept, Hin.
  unfold after_failure; cbn. repeat split; try done.
Qed.

End Facts.
End Breaker.

(** ** The life of a circuit *)

Module Lifetime.
Section Facts.
Context {V W : Type}.
Variable operationName : string.
Variable options : CircuitOptions.

Local Abbreviation key := ("circuit_" +:+ operationName).
Local Abbreviation threshold := (default 5%Z (failureThreshold options)).
Local Abbreviation timeout := (default 30000%Z (resetTimeout options)).
Local Abbreviation breaker := (executeWithCircuitBreaker (V:=V) (W:=W) operationName).

Lemma call_sequence_app (h script : list ((State W → State W) * Thunk V W)) :
  ∀ s : State W,
  call_sequence (V:=V) operationName options (h ++ script) s =
  let '(s1, t1) := call_sequence operationName options h s in
  let '(s2, t2) := call_sequence operationName options script s1 in
  (s2, t1 ++ t2).
Proof.
  induction h as [|[between operation] h IH]; intros s.
  - cbn. by destruct (call_sequence _ _ script s).
  - cbn [call_sequence app].
    destruct (breaker operation options (between s)) as [[r s1] t1].
    rewrite IH.
    destruct (call_sequence operationName options h s1) as [s2 t2].
    destruct (call_sequence operationName options script s2) as [s3 t3].
    by rewrite app_assoc.
Qed.

Lemma failure_times_app (h script : list ((State W → State W) * Thunk V W)) :
  ∀ s : State W,
  failure_times (V:=V) operationName options (h ++ script) s =
  failure_times operationName options h s ++
  failure_times operationName options script (call_sequence operationName options h s).1.
Proof.
  induction h as [|[between operation] h IH]; intros s; [done|].
  cbn [failure_times call_sequence app].
  destruct (breaker operation options (between s)) as [[r s1] t1].
  rewrite IH.
  destruct (call_sequence operationName options h s1) as [s2 t2].
  by rewrite app_assoc.
Qed.

(** One call, of any outcome, from a state of the circuit's life. *)
Lemma any_call (between : State W → State W) (operation : Thunk V W)
    (s : State W) (tl : option Z) :
  keeps_circuit key between →
  keeps_circuit key (λ s, (operation s).2) →
  on_record key threshold tl s →
  let run := breaker operation options (between s) in
  on_record key threshold
    match calls_of (trace_of run) with
    | [Thrown _] => Some (now (final_of run))
    | _ => tl
    end (final_of run).
Proof.
  intros Hbetween Hkeeps Hrec run.
  assert (∃ s1 l, run = breaker operation options s1 ∧
                  retryAttempts s1 !! key = Some (ECircuit l) ∧
                  ((state (heap s1 !!! l) = Open ∧
                    (threshold <= failureCount (heap s1 !!! l))%Z) ∨
                   (state (heap s1 !!! l) ≠ Open ∧
                    (0 <= failureCount (heap s1 !!! l))%Z)) ∧
                  match tl with
                  | Some τ => lastFailureTime (heap s1 !!! l) = τ
                  | None => state (heap s1 !!! l) ≠ Open
                  end)
    as (s1 & l & -> & Hslot & Hcase & Htime).
  { destruct (Hbetween s) as [Hslot Hobj].
    destruct Hrec as [[Hnone ->]|(l & Hl & Hcase & Htime)].
    - rewrite Hnone in Hslot.
      destruct (Breaker.getCircuitState_missing (V:=V) operationName (between s) Hslot)
        as [l Hl].
      eexists _, l. split; [by apply Breaker.breaker_missing|].
      rewrite Hl. cbn. rewrite lookup_insert_eq, lookup_total_insert_eq. cbn.
      split; [done|]. split; [|done]. right. split; [done|lia].
    - exists (between s), l. rewrite Hslot, (Hobj l Hl). done. }
  set (c := heap s1 !!! l) in *.
  assert (circuit_at key s1 l c) as Hat by done.
  destruct (decide (state c = Open ∧ (now s1 - lastFailureTime c < timeout)%Z))
    as [[Hopen Hearly]|Hadmit].
  { rewrite (Breaker.breaker_rejects operationName options operation s1 l c
               Hat Hopen Hearly).
    unfold final_of, trace_of; cbn [fst snd calls_of omap].
    right. exists l. done. }
  rewrite (Breaker.breaker_invokes operationName options operation s1 l c Hat Hadmit).
  destruct (Hkeeps (admitted l c s1)) as [Hslot3 Hobj3].
  assert (retryAttempts (admitted l c s1) !! key = Some (ECircuit l)) as Hslot_in.
  { unfold admitted. by case_decide. }
  specialize (Hobj3 l Hslot_in). rewrite Hslot_in in Hslot3.
  assert (failureCount (heap (admitted l c s1) !!! l) = failureCount c ∧
          lastFailureTime (heap (admitted l c s1) !!! l) = lastFailureTime c ∧
          (state (heap (admitted l c s1) !!! l) = Open → False)) as (Hcnt & Hlft & Hst).
  { unfold admitted. destruct (decide (state c = Open)) as [Ho|Hn].
    - cbn [set_heap heap]. rewrite lookup_total_insert_eq. done.
    - fold c. done. }
  destruct (operation (admitted l c s1)) as [[v|e] s3]; cbn [fst snd] in *.
  - (* success *)
    unfold final_of, trace_of; cbn [fst snd]. trace_simpl.
    rewrite Breaker.calls_of_admission_log. cbn.
    right. exists l. cbn [set_heap heap retryAttempts].
    rewrite lookup_total_insert_eq. unfold after_success; cbn.
    split; [done|]. split; [right; split; [done|lia]|].
    destruct tl as [τ|]; [|done]. by rewrite Hobj3, Hlft.
  - (* failure *)
    unfold final_of, trace_of; cbn [fst snd]. trace_simpl.
    rewrite Breaker.calls_of_admission_log, Breaker.calls_of_opening_log. cbn.
    right. exists l. cbn [set_heap heap retryAttempts now].
    rewrite lookup_total_insert_eq, Hobj3. unfold after_failure; cbn.
    split; [done|]. split; [|done].
    rewrite Hcnt.
    destruct (decide (failureCount c + 1 >= threshold)%Z) as [Hreach|Hnot].
    + left. split; [done|]. lia.
    + right. split; [done|]. destruct Hcase as [[_ ?]|[_ ?]]; lia.
Qed.

Lemma any_calls (script : list ((State W → State W) * Thunk V W)) :
  ∀ (s : State W) (tl : option Z),
  quiet_script key script →
  on_record key threshold tl s →
  on_record key threshold
    match list.last (failure_times (V:=V) operationName options script s) with
    | Some τ => Some τ
    | None => tl
    end (call_sequence (V:=V) operationName options script s).1.
Proof.
  induction script as [|[between operation] rest IH]; intros s tl Hquiet Hrec; [done|].
  apply Forall_cons in Hquiet as [[Hbetween Hkeeps] Hrest].
  pose proof (any_call between operation s tl Hbetween Hkeeps Hrec) as Hone.
  cbn [failure_times call_sequence].
  destruct (breaker operation options (between s)) as [[r s1] t1].
  unfold final_of, trace_of in Hone. cbn [fst snd] in Hone.
  specialize (IH s1 _ Hrest Hone).
  destruct (call_sequence operationName options rest s1) as [s2 t2].
  cbn [fst] in *.
  destruct (list.last (failure_times operationName options rest s1)) as [τ|] eqn:Hlast.
  - rewrite last_app, Hlast. exact IH.
  - rewrite last_app, Hlast.
    destruct (calls_of t1) as [|[v|e] [|? ?]]; exact IH.
Qed.

(** In a streak that has not opened the circuit yet, a failing call
    invokes the operation. *)
Lemma failing_call_time (between : State W → State W) (operation : Thunk V W)
    (s : State W) (failures : Z) :
  keeps_circuit key between →
  always_throws operation →
  streak key failures s →
  let run := breaker operation options (between s) in
  ∃ e, calls_of (trace_of run) = [Thrown e].
Proof.
  intros Hbetween Hfails Hstreak run.
  assert (∃ s1 l, run = breaker operation options s1 ∧
                  retryAttempts s1 !! key = Some (ECircuit l) ∧
                  state (heap s1 !!! l) ≠ Open)
    as (s1 & l & -> & Hslot & Hstate).
  { destruct (Hbetween s) as [Hslot Hobj].
    destruct Hstreak as [[-> Hnone]|(l & Hl & Hstate & Hcount)].
    - rewrite Hnone in Hslot.
      destruct (Breaker.getCircuitState_missing (V:=V) operationName (between s) Hslot)
        as [l Hl].
      eexists _, l. split; [by apply Breaker.breaker_missing|].
      rewrite Hl. cbn. rewrite lookup_insert_eq, lookup_total_insert_eq. done.
    - exists (between s), l. rewrite Hslot, (Hobj l Hl). done. }
  rewrite (Breaker.breaker_invokes operationName options operation s1 l (heap s1 !!! l));
    [|done|tauto].
  unfold admitted, admission_log. rewrite !decide_False by done.
  destruct (Hfails s1) as [e He].
  destruct (operation s1) as [r s3]. cbn in He. subst r.
  unfold trace_of. cbn [fst snd]. trace_simpl.
  rewrite Breaker.calls_of_opening_log. by exists e.
Qed.

Lemma failing_streak_time (script : list ((State W → State W) * Thunk V W)) :
  ∀ (s : State W) (failures : Z),
  failing_script key script →
  script ≠ [] →
  streak key failures s →
  (failures + Z.of_nat (length script) = threshold)%Z →
  list.last (failure_times (V:=V) operationName options script s) =
    Some (now (call_sequence (V:=V) operationName options script s).1).
Proof.
  induction script as [|[between operation] rest IH];
    intros s failures Hscript Hne Hstreak Hlen; [done|].
  apply Forall_cons in Hscript as [(Hbetween & Hkeeps & Hfails) Hrest].
  pose proof (Breaker.failing_call operationName options between operation s failures
                Hbetween Hkeeps Hfails Hstreak) as [_ (l & Hslot & Hcount & Hstate)].
  destruct (failing_call_time between operation s failures Hbetween Hfails Hstreak)
    as [e He].
  cbn [failure_times call_sequence].
  destruct (breaker operation options (between s)) as [[r s1] t1].
  unfold final_of, trace_of in *. cbn [fst snd] in *. rewrite He.
  destruct rest as [|step rest'].
  - cbn. done.
  - rewrite decide_False in Hstate by (cbn in Hlen; lia).
    specialize (IH s1 (failures + 1)%Z Hrest).
    destruct (call_sequence operationName options (step :: rest') s1) as [s2 t2] eqn:Hseq.
    cbn [fst] in *. rewrite last_app.
    rewrite IH; [done|done| |cbn [length] in *; lia].
    right. by exists l.
Qed.

End Facts.
End Lifetime.


(** ** Claims about [executeWithCircuitBreaker] *)



(** C6: when the trial invocation of a half-open circuit fails,
    failureCount goes up by one, lastFailureTime becomes the time of the
    failure, and the circuit is open again exactly when the new count has
    reached the failureThreshold of this call; otherwise it stays
    half-open. *)
Theorem half_open_failure_reopens_at_threshold {V W : Type}
    (operationName : string) (options : CircuitOptions)
    (operation : Thunk V W) (s : State W) (l : loc) (c : CircuitState)
    (e : Error) (s3 : State W) :
  let key := "circuit_" +:+ operationName in
  let threshold := default 5%Z (failureThreshold options) in
  let timeout := default 30000%Z (resetTimeout options) in
  circuit_at key s l c →
  state c = HalfOpen ∨ (state c = Open ∧ (timeout <= now s - lastFailureTime c)%Z) →
  operation (admitted l c s) = (Thrown e, s3) →
  heap s3 !!! l = heap (admitted l c s) !!! l →
  let run := executeWithCircuitBreaker operationName operation options s in
  let c' := heap (final_of run) !!! l in
  state (heap (admitted l c s) !!! l) = HalfOpen ∧
  calls_of (trace_of run) = [Thrown e] ∧
  outcome_of run = Thrown e ∧
  failureCount c' = (failureCount c + 1)%Z ∧
  lastFailureTime c' = now s3 ∧
  state c' = if decide (failureCount c + 1 >= threshold)%Z then Open else HalfOpen.
Proof. intros key threshold timeout. apply Breaker.trial_failure. Qed.

Lemma half_open_failure_reopens_at_threshold_witness :
  let s := Scenario.later 200 Scenario.tripped in
  let run := executeWithCircuitBreaker "X" Scenario.down Scenario.trip_at_5 s in
  let c' := heap (final_of run) !!! 0%nat in
  circuit_at "circuit_X" s 0 (mkCircuit Open 1 10 0) ∧
  calls_of (trace_of run) = [Thrown (newError "down")] ∧
  failureCount c' = 2%Z ∧
  lastFailureTime c' = 220%Z ∧
  state c' = HalfOpen.
Proof.
  assert (circuit_at "circuit_X" (Scenario.later 200 Scenario.tripped) 0
            (mkCircuit Open 1 10 0)) as Hat.
  { split; vm_compute; reflexivity. }
  split; [exact Hat|].
  destruct (half_open_failure_reopens_at_threshold (V:=nat) "X" Scenario.trip_at_5
              Scenario.down (Scenario.later 200 Scenario.tripped) 0
              (mkCircuit Open 1 10 0) (newError "down")
              (Scenario.later 10
                 (admitted 0 (mkCircuit Open 1 10 0)
                    (Scenario.later 200 Scenario.tripped))) Hat)
    as (_ & Hcalls & _ & Hcount & Htime & Hstate).
  - right. split; [reflexivity|]. vm_compute. discriminate.
  - reflexivity.
  - vm_compute. reflexivity.
  - split; [exact Hcalls|]. split; [exact Hcount|]. split; [exact Htime|].
    exact Hstate.
Defined.

(** Under the threshold that opened the circuit, the count is already at
    the threshold when the trial starts, so a failed trial opens the
    circuit again at once. *)
Lemma half_open_failure_reopens_under_same_threshold {V W : Type}
    (operationName : string) (options : CircuitOptions)
    (operation : Thunk V W) (s : State W) (l : loc) (c : CircuitState)
    (e : Error) (s3 : State W) :
  let key := "circuit_" +:+ operationName in
  let threshold := default 5%Z (failureThreshold options) in
  let timeout := default 30000%Z (resetTimeout options) in
  circuit_at key s l c →
  state c = Open → (timeout <= now s - lastFailureTime c)%Z →
  (threshold <= failureCount c)%Z →
  operation (admitted l c s) = (Thrown e, s3) →
  heap s3 !!! l = heap (admitted l c s) !!! l →
  state (heap (final_of (executeWithCircuitBreaker operationName operation options s)) !!! l)
    = Open.
Proof.
  intros key threshold timeout Hat Hopen Hlate Hcount Hop Hkept.
  destruct (Breaker.trial_failure operationName options operation s l c e s3 Hat)
    as (_ & _ & _ & _ & _ & ->); [by right|done|done|].
  rewrite decide_True; [done|]. fold threshold. lia.
Qed.

(** ** Retry counters and circuits in one map *)

(** C10 fails on what a failed run stores: under the name ["circuit_X"],
    with the circuit of ["X"] in place, the increment [(x || 0) + 1] is
    applied to the circuit object and concatenates: the slot ends up
    holding the string "[object Object]1", not an integer counter. *)
Lemma failure_under_circuit_key_stores_a_string :
  let run := executeWithRetry Scenario.idle "circuit_X" Scenario.boom
               Scenario.two_retries Scenario.tripped in
  retryAttempts Scenario.tripped !! "circuit_X" = Some (ECircuit 0) ∧
  retryAttempts (final_of run) !! "circuit_X" = Some (EStr "[object Object]1") ∧
  ¬ ∃ n, retryAttempts (final_of run) !! "circuit_X" = Some (ENum n).
Proof.
  split; [vm_compute; reflexivity|].
  assert (retryAttempts
            (final_of (executeWithRetry Scenario.idle "circuit_X" Scenario.boom
                         Scenario.two_retries Scenario.tripped)) !! "circuit_X"
          = Some (EStr "[object Object]1")) as H by (vm_compute; reflexivity).
  split; [exact H|]. intros [n Hn]. rewrite H in Hn. discriminate.
Qed.

(** What the circuit breaker then does with that slot: the operation is
    invoked although the circuit was open, and the call throws a
    TypeError whatever the operation returned. *)
Example breaker_on_overwritten_slot :
  let s := final_of (executeWithRetry Scenario.idle "circuit_X" Scenario.boom
                       Scenario.two_retries Scenario.tripped) in
  let run := executeWithCircuitBreaker "X" Scenario.up Scenario.trip_at_1 s in
  calls_of (trace_of run) = [Returned 7%nat] ∧
  outcome_of run =
    Thrown (newTypeError
      "Cannot create property 'failureCount' on string '[object Object]1'").
Proof. vm_compute. done. Qed.

(** What a run under a circuit key does to the slot in general (callbacks
    leaving the map alone, shouldRetry not throwing): a successful
    executeWithRetry named circuit_X deletes the slot of the circuit of X,
    and the next lazy lookup creates a closed circuit with failureCount 0;
    a failed one overwrites the slot with (x || 0) + 1, the integer 1 when
    the slot was empty, and getCircuitState then returns that integer in
    place of a circuit. *)
Theorem retry_under_circuit_key_clobbers_circuit {V W : Type}
    (timer : Q → State W → State W) (X : string)
    (operation : Operation V W) (options : RetryOptions V W) (s : State W) :
  let key := "circuit_" +:+ X in
  let run := executeWithRetry timer key operation options s in
  callbacks_keep_registry timer operation (onRetry options) (shouldRetry options) →
  never_throws (shouldRetry options) →
  match outcome_of run with
  | Returned _ =>
      retryAttempts (final_of run) !! key = None ∧
      ∃ l, let lookup := getCircuitState (V:=V) key (final_of run) in
           outcome_of lookup = ECircuit l ∧
           heap (final_of lookup) !!! l
             = mkCircuit Closed 0 0 (now (final_of run))
  | Thrown _ =>
      retryAttempts (final_of run) !! key
        = Some (js_plus_one (js_or_zero (retryAttempts s !! key))) ∧
      (∀ l, retryAttempts s !! key = Some (ECircuit l) →
            retryAttempts (final_of run) !! key = Some (EStr "[object Object]1")) ∧
      (retryAttempts s !! key = None →
         retryAttempts (final_of run) !! key = Some (ENum 1) ∧
         getCircuitState (V:=V) key (final_of run) = (ENum 1, final_of run, []))
  end.
Proof.
  intros key run Hkeep Hsr. subst key.
  pose proof (Retry.run_registry timer ("circuit_" +:+ X) operation
                (default this_maxRetries (maxRetries options))
                (default this_baseDelay (baseDelay options))
                (default this_backoffMultiplier (backoffMultiplier options))
                (default this_maxDelay (maxDelay options))
                _ _ s Hkeep Hsr) as Hreg.
  change (retry_with _ _ _ _ _ _ _ _ _ s) with run in Hreg.
  destruct (outcome_of run) as [v|err].
  - assert (retryAttempts (final_of run) !! ("circuit_" +:+ X) = None) as Hnone.
    { rewrite Hreg. apply lookup_delete_eq. }
    split; [done|].
    destruct (Breaker.getCircuitState_missing (V:=V) X (final_of run) Hnone) as [l Hl].
    exists l. cbn zeta. rewrite Hl. unfold outcome_of, final_of at 1. cbn.
    by rewrite lookup_total_insert_eq.
  - assert (retryAttempts (final_of run) !! ("circuit_" +:+ X)
            = Some (js_plus_one (js_or_zero (retryAttempts s !! ("circuit_" +:+ X)))))
      as Hslot.
    { rewrite Hreg. apply lookup_insert_eq. }
    split; [done|]. split.
    + intros l Hl. by rewrite Hslot, Hl.
    + intros Hnone. rewrite Hnone in Hslot. cbn in Hslot.
      split; [done|]. by apply Breaker.getCircuitState_present.
Qed.

Lemma retry_under_circuit_key_clobbers_circuit_witness :
  let run := executeWithRetry Scenario.idle ("circuit_" +:+ "X") Scenario.boom
               Scenario.two_retries Scenario.tripped in
  match outcome_of run with
  | Returned _ =>
      retryAttempts (final_of run) !! ("circuit_" +:+ "X") = None ∧
      ∃ l, let lookup := getCircuitState (V:=nat) ("circuit_" +:+ "X") (final_of run) in
           outcome_of lookup = ECircuit l ∧
           heap (final_of lookup) !!! l
             = mkCircuit Closed 0 0 (now (final_of run))
  | Thrown _ =>
      retryAttempts (final_of run) !! ("circuit_" +:+ "X")
        = Some (js_plus_one
                  (js_or_zero (retryAttempts Scenario.tripped !! ("circuit_" +:+ "X")))) ∧
      (∀ l, retryAttempts Scenario.tripped !! ("circuit_" +:+ "X") = Some (ECircuit l) →
            retryAttempts (final_of run) !! ("circuit_" +:+ "X")
              = Some (EStr "[object Object]1")) ∧
      (retryAttempts Scenario.tripped !! ("circuit_" +:+ "X") = None →
         retryAttempts (final_of run) !! ("circuit_" +:+ "X") = Some (ENum 1) ∧
         getCircuitState (V:=nat) ("circuit_" +:+ "X") (final_of run)
           = (ENum 1, final_of run, []))
  end.
Proof.
  apply (retry_under_circuit_key_clobbers_circuit Scenario.idle "X" Scenario.boom
           Scenario.two_retries Scenario.tripped).
  - repeat split.
  - exact I.
Defined.

(** ** The [onRetry] callback *)

(** C8: a failure of the onRetry callback never propagates.  The run with
    a callback that throws has the outcome and the final state of the run
    with the callback that has the same effects and returns, and the same
    trace once the callback's failures are taken out of it.  Each such
    failure is written to the console, and is followed by the wait of the
    delay computed for that attempt and by the next attempt. *)
Theorem onRetry_failure_is_swallowed {V W : Type}
    (timer : Q → State W → State W) (operationName : string)
    (operation : Operation V W)
    (retries : option nat) (base mult cap : option Q)
    (f : OnRetry W) (classify : option (ShouldRetry W)) (s : State W) :
  let options g := mkRetryOptions (V:=V) retries base mult cap (Some g) classify in
  let run := executeWithRetry timer operationName operation (options f) s in
  let calm_run := executeWithRetry timer operationName operation (options (calm f)) s in
  (outcome_of run = outcome_of calm_run ∧
   final_of run = final_of calm_run ∧
   forgive (trace_of run) = trace_of calm_run) ∧
  ∀ e n d callbackError,
    EvOnRetry e n d (Thrown callbackError) ∈ trace_of run →
    d = backoffDelay n (default this_baseDelay base)
          (default this_backoffMultiplier mult) (default this_maxDelay cap) ∧
    ∃ pre r post,
      trace_of run
        = pre ++ swallowed_callback operationName
                   (default this_maxRetries retries + 1) e n d callbackError r
              ++ post.
Proof.
  intros options run calm_run. split.
  - pose proof (Retry.run_calm timer operationName operation
                  (default this_maxRetries retries) (default this_baseDelay base)
                  (default this_backoffMultiplier mult) (default this_maxDelay cap)
                  f classify s) as (Hout & Hfin & Htr).
    by repeat split.
  - intros e n d ce Hin. by apply Retry.run_callback_thrown.
Qed.

Lemma onRetry_failure_is_swallowed_witness :
  let run := executeWithRetry Scenario.idle "load" Scenario.boom
               Scenario.two_retries_noisy Scenario.s0 in
  (1000 == backoffDelay 1 this_baseDelay this_backoffMultiplier this_maxDelay)%Q ∧
  ∃ pre r post,
    trace_of run
      = pre ++ swallowed_callback "load" (2 + 1) (newError "boom") 1 1000
                 (newError "toast failed") r ++ post.
Proof.
  destruct (onRetry_failure_is_swallowed Scenario.idle "load" Scenario.boom
              (Some 2%nat) None None None Scenario.noisy (Some Scenario.allow)
              Scenario.s0) as [_ Hshape].
  destruct (Hshape (newError "boom") 1%nat 1000%Q (newError "toast failed"))
    as [Hd Htrace].
  - vm_compute. do 5 apply list_elem_of_further. apply list_elem_of_here.
  - split; [by rewrite Hd|]. exact Htrace.
Defined.

(** * Further properties *)

(** ** Strings *)

Module Str.

Lemma app_cons (x : Ascii.ascii) (a b : string) :
  String x a +:+ b = String x (a +:+ b).
Proof. reflexivity. Qed.

Lemma app_assoc (a b c : string) : (a +:+ b) +:+ c = a +:+ b +:+ c.
Proof. induction a as [|x a IH]; [done|]. by rewrite !app_cons, IH. Qed.

Lemma app_nil_r (a : string) : a +:+ "" = a.
Proof. induction a as [|x a IH]; [done|]. by rewrite app_cons, IH. Qed.

Lemma prefix_spec (sub s : string) :
  String.prefix sub s = true ↔ ∃ post, s = sub +:+ post.
Proof.
  revert s. induction sub as [|x sub IH]; intros s.
  - split; [|by destruct s]. intros _. by exists s.
  - destruct s as [|y s]; cbn.
    + split; [done|]. by intros [post ?].
    + destruct (Ascii.ascii_dec x y) as [->|Hne].
      * rewrite IH. split; intros [post Hpost]; exists post;
          rewrite ?app_cons in *; congruence.
      * split; [done|]. intros [post Hpost]. rewrite app_cons in Hpost. congruence.
Qed.

(** [includes] finds exactly the occurrences. *)
Lemma includes_spec (s sub : string) :
  includes s sub = true ↔ ∃ pre post, s = pre +:+ sub +:+ post.
Proof.
  induction s as [|x s IH].
  - cbn [includes]. destruct (String.prefix sub "") eqn:Hp.
    + apply prefix_spec in Hp as [post Hpost]. split; [|done].
      intros _. by exists "", post.
    + split; [done|]. intros (pre & post & Heq).
      destruct pre as [|y pre]; [|by rewrite app_cons in Heq].
      assert (String.prefix sub "" = true) as Hp'
        by (apply prefix_spec; by exists post).
      congruence.
  - cbn [includes]. destruct (String.prefix sub (String x s)) eqn:Hp.
    + apply prefix_spec in Hp as [post Hpost]. split; [|done].
      intros _. by exists "", post.
    + rewrite IH. split.
      * intros (pre & post & ->). by exists (String x pre), post.
      * intros (pre & post & Heq). destruct pre as [|y pre].
        -- assert (String.prefix sub (String x s) = true) as Hp'
             by (apply prefix_spec; by exists post).
           congruence.
        -- rewrite app_cons in Heq. injection Heq as _ ->. by exists pre, post.
Qed.

Lemma includes_app (pre sub post : string) : includes (pre +:+ sub +:+ post) sub = true.
Proof. apply includes_spec. by exists pre, post. Qed.

(** What occurs in an occurrence occurs in the whole. *)
Lemma includes_trans (s mid sub : string) :
  includes s mid = true → includes mid sub = true → includes s sub = true.
Proof.
  rewrite !includes_spec. intros (p1 & q1 & ->) (p2 & q2 & ->).
  exists (p1 +:+ p2), (q2 +:+ q1). by rewrite !app_assoc.
Qed.

(** Wrapping a string keeps what occurs in it. *)
Lemma includes_wrap (pre s post sub : string) :
  includes s sub = true → includes (pre +:+ s +:+ post) sub = true.
Proof. intros H. eapply includes_trans; [apply includes_app|done]. Qed.

End Str.

(** ** [isRetryableError], [getRetryStats], [resetStats] *)

(** X1: isRetryableError(error) is true exactly when one of the six
    keywords network, timeout, connection, temporary, busy, unavailable
    occurs somewhere in the lower-cased message. *)
Theorem isRetryableError_keywords (toLowerCase : string → string) (error : Error) :
  isRetryableError toLowerCase error = true ↔
  ∃ keyword pre post,
    keyword ∈ ["network"; "timeout"; "connection"; "temporary"; "busy"; "unavailable"] ∧
    toLowerCase (message error) = pre +:+ keyword +:+ post.
Proof.
  change ["network"; "timeout"; "connection"; "temporary"; "busy"; "unavailable"]
    with retryableErrors.
  unfold isRetryableError. rewrite existsb_exists. split.
  - intros (keyword & Hin & Hinc). apply Str.includes_spec in Hinc as (pre & post & Heq).
    exists keyword, pre, post. split; [by apply list_elem_of_In|done].
  - intros (keyword & pre & post & Hin & Heq). exists keyword.
    split; [by apply list_elem_of_In|]. rewrite Heq. apply Str.includes_app.
Qed.

Module Stats.
Section Facts.
Context {W : Type}.

(** What the fold of [getRetryStats] has built after any number of
    entries. *)
Lemma fold_shape (m : gmap string Entry) :
  let stats :=
    map_fold (λ operation attempts stats, stats_assign operation (stat_of attempts) stats)
      (mkStats ∅ None) m in
  statProps stats = stat_of <$> delete "__proto__" m ∧
  statProto stats =
    (m !! "__proto__") ≫= (λ v, if is_object (stat_of v) then Some (stat_of v) else None).
Proof.
  cbv zeta.
  apply (map_fold_weak_ind (λ stats m,
    statProps stats = stat_of <$> delete "__proto__" m ∧
    statProto stats =
      (m !! "__proto__") ≫= (λ v, if is_object (stat_of v) then Some (stat_of v) else None))).
  - by rewrite delete_empty, fmap_empty, lookup_empty.
  - intros operation attempts m0 stats Hfresh [Hprops Hproto].
    unfold stats_assign. destruct (decide (operation = "__proto__")) as [->|Hne].
    + rewrite lookup_insert_eq, delete_insert_eq. cbn.
      rewrite Hfresh in Hproto. cbn in Hproto.
      destruct (is_object (stat_of attempts)); cbn; [done|]. by rewrite Hproto.
    + cbn. rewrite lookup_insert_ne by done.
      rewrite delete_insert_ne by done. rewrite fmap_insert. by rewrite Hprops.
Qed.

Lemma lookup_stats (s : State W) (key : string) :
  key ≠ "__proto__" →
  statProps (getRetryStats s) !! key = stat_of <$> retryAttempts s !! key.
Proof.
  intros Hkey. unfold getRetryStats.
  destruct (fold_shape (retryAttempts s)) as [-> _].
  by rewrite lookup_fmap, lookup_delete_ne.
Qed.

Lemma lookup_proto (s : State W) :
  statProps (getRetryStats s) !! "__proto__" = None.
Proof.
  unfold getRetryStats. destruct (fold_shape (retryAttempts s)) as [-> _].
  by rewrite lookup_fmap, lookup_delete_eq.
Qed.

(** Lookup of a key that is absent from the map. *)
Lemma lookup_absent (s : State W) (key : string) :
  retryAttempts s !! key = None → statProps (getRetryStats s) !! key = None.
Proof.
  intros Hnone. destruct (decide (key = "__proto__")) as [->|Hne].
  - apply lookup_proto.
  - by rewrite lookup_stats, Hnone.
Qed.

End Facts.
End Stats.

(** X2: getRetryStats() has one own property per key of the map other
    than "__proto__": a failure counter n shows as { totalRetries: n },
    any other stored value (a circuit object, a string) as itself, and a
    key that is not in the map is not in the result.  The key "__proto__"
    never becomes an own property: an object stored under it (the
    { totalRetries: n } made for a counter, or a circuit object) becomes
    the prototype of the result, a string stored under it is dropped. *)
Theorem getRetryStats_properties {W : Type} (s : State W) :
  (∀ key, key ≠ "__proto__" →
     statProps (getRetryStats s) !! key =
       match retryAttempts s !! key with
       | Some (ENum n) => Some (TotalRetries n)
       | Some (EStr x) => Some (Stored (EStr x))
       | Some (ECircuit l) => Some (Stored (ECircuit l))
       | None => None
       end) ∧
  statProps (getRetryStats s) !! "__proto__" = None ∧
  statProto (getRetryStats s) =
    match retryAttempts s !! "__proto__" with
    | Some (ENum n) => Some (TotalRetries n)
    | Some (ECircuit l) => Some (Stored (ECircuit l))
    | Some (EStr _) | None => None
    end.
Proof.
  split; [|split].
  - intros key Hkey. rewrite Stats.lookup_stats by done.
    by destruct (retryAttempts s !! key) as [[n|x|l]|].
  - apply Stats.lookup_proto.
  - unfold getRetryStats. destruct (Stats.fold_shape (retryAttempts s)) as [_ ->].
    by destruct (retryAttempts s !! "__proto__") as [[n|x|l]|].
Qed.

(** ** The failure counter across runs *)

Module Runs.
Section Facts.
Context {V W : Type}.
Variable timer : Q → State W → State W.
Variable operationName : string.

(** A loop over an operation that always fails is never left by
    [return]. *)
Lemma loop_never_returns (operation : Operation V W) (m : nat) (base mult cap : Q)
    (notify : option (OnRetry W)) (classify : option (ShouldRetry W))
    (attempts : list nat) : ∀ last s x s' tr v,
  always_fails operation →
  retryLoop timer operationName operation m base mult cap notify classify
    attempts last s = (x, s', tr) →
  x ≠ LoopReturn v.
Proof.
  induction attempts as [|a rest IH]; intros last s x s' tr v Hfails.
  { by intros [= <- <- <-]. }
  rewrite Retry.loop_cons.
  destruct (Hfails a s) as [e He].
  destruct (operation a s) as [r s1]. cbn in He. subst r.
  destruct (not_retryable (V:=V) classify e a s1) as [[[[|]|e'] s2] t2].
  - by intros [= <- <- <-].
  - destruct (decide (m < a)%nat); [by intros [= <- <- <-]|].
    cbv zeta. set (d := backoffDelay a base mult cap).
    destruct (notify_retry (V:=V) operationName notify e a d s2) as [[u s3] t3].
    destruct (retryLoop timer operationName operation m base mult cap notify
                classify rest (Some e) (timer d s3)) as [[x4 s4] t4] eqn:Hloop.
    intros [= <- <- <-]. by eapply IH.
  - by intros [= <- <- <-].
Qed.

(** A run that is bound to fail throws, and takes the slot of the
    operation from [x] to [(x || 0) + 1]. *)
Lemma doomed_run_counts (operation : Operation V W) (options : RetryOptions V W)
    (s : State W) :
  doomed_run timer (operation, options) →
  let run := executeWithRetry timer operationName operation options s in
  (∃ e, outcome_of run = Thrown e) ∧
  retryAttempts (final_of run) =
    <[operationName := js_plus_one (js_or_zero (retryAttempts s !! operationName))]>
      (retryAttempts s).
Proof.
  intros (Hfails & Hsr & Hkeep) run. cbn [fst snd] in *.
  unfold run, executeWithRetry.
  rewrite Retry.run_registry by done.
  rewrite Retry.retry_with_eq.
  destruct (retryLoop _ _ _ _ _ _ _ _ _ _ None s) as [[x s1] t1] eqn:Hloop.
  destruct x as [v|e|last]; cbn.
  - by destruct (loop_never_returns _ _ _ _ _ _ _ _ _ _ _ _ _ v Hfails Hloop).
  - by destruct (Retry.loop_never_raises _ _ _ _ _ _ _ _ _ _ _ _ _ _ _ e Hsr Hloop).
  - split; [eauto|done].
Qed.

Lemma doomed_runs_count (runs : list (Operation V W * RetryOptions V W)) :
  ∀ (s : State W) (n : Z),
  Forall (doomed_run timer) runs →
  runs ≠ [] →
  counter_is operationName n s →
  let after := retry_runs timer operationName runs s in
  Forall (λ r, ∃ e, r = Thrown e) after.1 ∧
  length after.1 = length runs ∧
  retryAttempts after.2 !! operationName
    = Some (ENum (n + Z.of_nat (length runs))) ∧
  ∀ key, key ≠ operationName →
    retryAttempts after.2 !! key = retryAttempts s !! key.
Proof.
  induction runs as [|[operation options] rest IH]; intros s n Hdoomed Hne Hcount; [done|].
  apply Forall_cons in Hdoomed as [Hrun Hrest].
  cbn [retry_runs].
  destruct (doomed_run_counts operation options s Hrun) as [[e He] Hreg].
  destruct (executeWithRetry timer operationName operation options s) as [[r s1] t1].
  unfold outcome_of, final_of in He, Hreg. cbn [fst snd] in He, Hreg. subst r.
  assert (retryAttempts s1 !! operationName = Some (ENum (n + 1))) as Hslot.
  { rewrite Hreg, lookup_insert_eq.
    destruct Hcount as [[-> ->]| ->]; done. }
  assert (∀ key, key ≠ operationName →
            retryAttempts s1 !! key = retryAttempts s !! key) as Hframe.
  { intros key Hkey. by rewrite Hreg, lookup_insert_ne. }
  destruct rest as [|next rest'].
  - cbn. split; [repeat constructor; eauto|]. split; [done|].
    split; [by rewrite Hslot|done].
  - specialize (IH s1 (n + 1)%Z Hrest).
    destruct (retry_runs timer operationName (next :: rest') s1) as [rs s2].
    destruct IH as (Hall & Hlen & Hfinal & Hframe2); [done|by right|].
    cbn [fst snd] in *. split; [constructor; eauto|].
    split; [cbn [length]; by rewrite Hlen|].
    split.
    + rewrite Hfinal. do 2 f_equal. cbn [length]. lia.
    + intros key Hkey. by rewrite Hframe2, Hframe.
Qed.

End Facts.
End Runs.

(** X3: the failure counter accumulates across separate runs.  After k >= 1
    runs of executeWithRetry under one name, each bound to fail (operation
    always failing, shouldRetry not throwing, callbacks leaving the map
    alone), every run has thrown, the slot of the name holds the old
    counter plus k, getRetryStats reports it as totalRetries, and every
    other slot is as before. *)
Theorem failure_counter_accumulates {V W : Type}
    (timer : Q → State W → State W) (operationName : string)
    (runs : list (Operation V W * RetryOptions V W)) (s : State W) (n : Z) :
  Forall (doomed_run timer) runs →
  runs ≠ [] →
  counter_is operationName n s →
  let after := retry_runs timer operationName runs s in
  let total := (n + Z.of_nat (length runs))%Z in
  Forall (λ r, ∃ e, r = Thrown e) after.1 ∧
  length after.1 = length runs ∧
  retryAttempts after.2 !! operationName = Some (ENum total) ∧
  (operationName ≠ "__proto__" →
     statProps (getRetryStats after.2) !! operationName = Some (TotalRetries total)) ∧
  ∀ key, key ≠ operationName →
    retryAttempts after.2 !! key = retryAttempts s !! key.
Proof.
  intros Hdoomed Hne Hcount after total.
  destruct (Runs.doomed_runs_count timer operationName runs s n Hdoomed Hne Hcount)
    as (Hall & Hlen & Hslot & Hframe).
  fold after in Hall, Hlen, Hslot, Hframe.
  repeat split; try done.
  intros Hname. by rewrite Stats.lookup_stats, Hslot.
Qed.

Lemma failure_counter_accumulates_witness :
  let runs := replicate 3 (Scenario.boom, Scenario.two_retries) in
  let after := retry_runs Scenario.idle "load" runs Scenario.s0 in
  let total := (0 + Z.of_nat (length runs))%Z in
  Forall (λ r, ∃ e, r = Thrown e) after.1 ∧
  length after.1 = length runs ∧
  retryAttempts after.2 !! "load" = Some (ENum total) ∧
  ("load" ≠ "__proto__" →
     statProps (getRetryStats after.2) !! "load" = Some (TotalRetries total)) ∧
  ∀ key, key ≠ "load" →
    retryAttempts after.2 !! key = retryAttempts Scenario.s0 !! key.
Proof.
  apply (failure_counter_accumulates Scenario.idle "load"
           (replicate 3 (Scenario.boom, Scenario.two_retries)) Scenario.s0 0).
  - apply Forall_replicate. repeat split.
    intros n s. by exists (newError "boom").
  - done.
  - left. split; reflexivity.
Defined.

(** X4: a run of executeWithRetry that returns leaves no trace in the
    statistics: whatever the slot of the operation held before (a counter
    of earlier failures, or anything else), getRetryStats has no property
    under that name afterwards. *)
Theorem success_clears_statistics {V W : Type}
    (timer : Q → State W → State W) (operationName : string)
    (operation : Operation V W) (options : RetryOptions V W)
    (s : State W) (v : V) :
  let run := executeWithRetry timer operationName operation options s in
  outcome_of run = Returned v →
  retryAttempts (final_of run) !! operationName = None ∧
  statProps (getRetryStats (final_of run)) !! operationName = None.
Proof.
  intros run Hret. unfold run, executeWithRetry in *.
  destruct (Retry.run_returned _ _ _ _ _ _ _ _ _ _ _ Hret)
    as (n & sb & sa & pre & _ & Hfin & _).
  assert (retryAttempts (final_of (retry_with timer operationName operation
            (default this_maxRetries (maxRetries options))
            (default this_baseDelay (baseDelay options))
            (default this_backoffMultiplier (backoffMultiplier options))
            (default this_maxDelay (maxDelay options))
            (onRetry options) (shouldRetry options) s)) !! operationName = None)
    as Hnone.
  { rewrite Hfin. cbn. apply lookup_delete_eq. }
  split; [done|]. by apply Stats.lookup_absent.
Qed.

Lemma success_clears_statistics_witness :
  let s := (retry_runs Scenario.idle "load"
              (replicate 3 (Scenario.boom, Scenario.two_retries)) Scenario.s0).2 in
  let run := executeWithRetry Scenario.idle "load" Scenario.third_time_lucky
               Scenario.two_retries s in
  retryAttempts s !! "load" = Some (ENum 3) ∧
  retryAttempts (final_of run) !! "load" = None ∧
  statProps (getRetryStats (final_of run)) !! "load" = None.
Proof.
  split; [vm_compute; reflexivity|].
  apply (success_clears_statistics Scenario.idle "load" Scenario.third_time_lucky
           Scenario.two_retries _ 42%nat).
  vm_compute. reflexivity.
Defined.

(** X5: resetStats() forgets everything.  Afterwards the map and the
    statistics are empty, and the next executeWithCircuitBreaker call of
    any operation, whatever state its circuit was in (open included), is
    not rejected: it works on a new closed circuit with failureCount 0,
    invokes the operation exactly once and hands its outcome through. *)
Theorem resetStats_closes_every_circuit {V W : Type}
    (operationName : string) (operation : Thunk V W) (options : CircuitOptions)
    (s : State W) :
  let cleared := final_of (resetStats (V:=V) s) in
  let run := executeWithCircuitBreaker operationName operation options cleared in
  retryAttempts cleared = ∅ ∧
  statProps (getRetryStats cleared) = ∅ ∧
  ∃ l s_in,
    circuit_at ("circuit_" +:+ operationName) s_in l (mkCircuit Closed 0 0 (now s)) ∧
    calls_of (trace_of run) = [(operation s_in).1] ∧
    outcome_of run = (operation s_in).1.
Proof.
  intros cleared run.
  assert (retryAttempts cleared = ∅) as Hempty by reflexivity.
  split; [done|]. split.
  { unfold getRetryStats. rewrite Hempty. by rewrite map_fold_empty. }
  assert (retryAttempts cleared !! ("circuit_" +:+ operationName) = None) as Hnone.
  { by rewrite Hempty, lookup_empty. }
  destruct (Breaker.getCircuitState_missing (V:=V) operationName cleared Hnone) as [l Hl].
  unfold run. rewrite (Breaker.breaker_missing operationName options operation cleared Hnone).
  rewrite Hl. change (final_of (ECircuit l, ?x, @nil (Event V))) with x.
  set (s_in := mkState _ _ _ _).
  assert (circuit_at ("circuit_" +:+ operationName) s_in l (mkCircuit Closed 0 0 (now s)))
    as Hat.
  { split; unfold s_in; cbn; [apply lookup_insert_eq|apply lookup_total_insert_eq]. }
  exists l, s_in. split; [done|].
  rewrite (Breaker.breaker_invokes operationName options operation s_in l _ Hat)
    by (intros [? _]; done).
  unfold admitted, admission_log. rewrite !decide_False by done.
  destruct (operation s_in) as [[v|e] s3]; unfold trace_of, outcome_of; cbn [fst snd].
  - done.
  - trace_simpl. by rewrite Breaker.calls_of_opening_log.
Qed.

(** ** Paths *)

Module Path.

Local Open Scope char_scope.

(** Having two backslashes in a row, read off the first two characters. *)
Lemma includes_double_cons (a : ascii) (s : string) :
  includes (String a s) "\\" =
  match s with
  | String b _ => bool_decide (a = "\") && bool_decide (b = "\") || includes s "\\"
  | EmptyString => false
  end.
Proof.
  cbn [includes String.prefix].
  destruct (ascii_dec "\" a) as [<-|Ha].
  - destruct s as [|b s]; [reflexivity|].
    cbn [String.prefix].
    destruct (ascii_dec "\" b) as [<-|Hb].
    + rewrite (bool_decide_eq_true_2 ("\" = "\")) by reflexivity.
      by destruct s.
    + rewrite (bool_decide_eq_false_2 (b = "\")) by congruence.
      rewrite andb_false_r. reflexivity.
  - rewrite (bool_decide_eq_false_2 (a = "\")) by congruence.
    destruct s as [|b s]; reflexivity.
Qed.

(** Collapsing keeps the first character. *)
Lemma collapse_head (s : string) :
  match s with
  | EmptyString => collapse_backslashes s = EmptyString
  | String c _ => ∃ t, collapse_backslashes s = String c t
  end.
Proof.
  induction s as [|c s IH]; [done|].
  cbn [collapse_backslashes]. destruct (decide (c = "\")) as [->|Hc]; [|eauto].
  destruct s as [|c' s]; [eauto|].
  destruct (decide (c' = "\")) as [->|Hc']; [|eauto].
  exact IH.
Qed.

Lemma collapse_no_double (s : string) :
  includes (collapse_backslashes s) "\\" = false.
Proof.
  induction s as [|c s IH]; [done|].
  cbn [collapse_backslashes]. destruct (decide (c = "\")) as [->|Hc].
  - destruct s as [|c' s]; [done|].
    destruct (decide (c' = "\")) as [->|Hc']; [done|].
    rewrite includes_double_cons.
    destruct (collapse_head (String c' s)) as [t Ht]. rewrite Ht in *.
    rewrite IH. by rewrite (bool_decide_eq_false_2 (c' = "\")) by done.
  - rewrite includes_double_cons.
    destruct (collapse_backslashes s) as [|b t]; [done|].
    rewrite IH. by rewrite (bool_decide_eq_false_2 (c = "\")) by done.
Qed.

(** A string without two backslashes in a row is left as it is. *)
Lemma collapse_fixed (s : string) :
  includes s "\\" = false → collapse_backslashes s = s.
Proof.
  induction s as [|c s IH]; [done|].
  rewrite includes_double_cons. cbn [collapse_backslashes].
  destruct s as [|c' s].
  - intros _. by destruct (decide (c = "\")).
  - intros [Hhere Hrest]%orb_false_elim.
    destruct (decide (c = "\")) as [->|Hc].
    + rewrite bool_decide_eq_true_2 in Hhere by done. cbn in Hhere.
      apply bool_decide_eq_false_1 in Hhere.
      rewrite decide_False by done. by rewrite IH.
    + by rewrite IH.
Qed.

Lemma collapse_idempotent (s : string) :
  collapse_backslashes (collapse_backslashes s) = collapse_backslashes s.
Proof. apply collapse_fixed, collapse_no_double. Qed.

(** Slashes. *)
Lemma prefix_nil (s : string) : String.prefix "" s = true.
Proof. by destruct s. Qed.

Lemma includes_char_cons (a c : ascii) (s : string) :
  includes (String c s) (String a "") =
  bool_decide (a = c) || includes s (String a "").
Proof.
  cbn [includes String.prefix].
  destruct (ascii_dec a c) as [<-|Hc].
  - by rewrite prefix_nil, bool_decide_eq_true_2.
  - by rewrite bool_decide_eq_false_2.
Qed.

Lemma slashes_no_slash (s : string) : includes (slashes_to_backslashes s) "/" = false.
Proof.
  induction s as [|c s IH]; [done|].
  cbn [slashes_to_backslashes]. rewrite includes_char_cons, IH, orb_false_r.
  apply bool_decide_eq_false_2.
  destruct (decide (c = "/")) as [->|Hc]; [done|congruence].
Qed.

Lemma slashes_fixed (s : string) :
  includes s "/" = false → slashes_to_backslashes s = s.
Proof.
  induction s as [|c s IH]; [done|].
  rewrite includes_char_cons. intros [Hc Hrest]%orb_false_elim.
  apply bool_decide_eq_false_1 in Hc.
  cbn [slashes_to_backslashes].
  rewrite decide_False by congruence. by rewrite IH.
Qed.

Lemma collapse_keeps_no_slash (s : string) :
  includes s "/" = false → includes (collapse_backslashes s) "/" = false.
Proof.
  induction s as [|c s IH]; [done|].
  rewrite includes_char_cons. intros [Hc Hrest]%orb_false_elim.
  specialize (IH Hrest).
  cbn [collapse_backslashes]. destruct (decide (c = "\")) as [->|Hc'].
  - destruct s as [|c' s]; [done|].
    destruct (decide (c' = "\")) as [->|Hc'']; [done|].
    by rewrite includes_char_cons, IH.
  - by rewrite includes_char_cons, IH, Hc.
Qed.

(** A drive path stays one when collapsed. *)
Lemma collapse_drive (s : string) :
  drive_path s = true → drive_path (collapse_backslashes s) = true.
Proof.
  destruct s as [|a [|b [|c t]]]; try done.
  cbn [drive_path]. intros [[Ha Hb]%andb_true_iff Hc]%andb_true_iff.
  apply bool_decide_eq_true_1 in Hb, Hc. subst b c.
  assert (a ≠ "\") as Hna.
  { intros ->. done. }
  cbn [collapse_backslashes].
  rewrite (decide_False (P := a = "\")) by done.
  rewrite (decide_False (P := ":" = "\")) by done.
  destruct (collapse_head (String "\" t)) as [t' Ht'].
  cbn [collapse_backslashes] in Ht'. rewrite Ht'.
  cbn [drive_path]. rewrite Ha. done.
Qed.

(** A collapsed string does not start with two backslashes. *)
Lemma collapse_not_unc (s : string) : unc_path (collapse_backslashes s) = false.
Proof.
  pose proof (collapse_no_double s) as Hno.
  destruct (collapse_backslashes s) as [|a [|b t]]; try done.
  rewrite includes_double_cons in Hno. apply orb_false_elim in Hno as [Hno _].
  exact Hno.
Qed.

End Path.

(** X6.  [normalizePath] throws 'File path is required' exactly for the
    empty path.  For any other path it returns a path without two
    backslashes in a row, whatever the extension path is; so the result
    never starts with two backslashes, and a network path
    ([\\server\share], which [isAbsolutePath] accepts) comes back with a
    single leading backslash, which [isAbsolutePath] rejects. *)
Theorem normalizePath_never_keeps_double_backslash {B : Type} (filePath : string)
    (s : State (Host B)) :
  match (normalizePath filePath s).1 with
  | Thrown e => filePath = "" ∧ e = newError "File path is required"
  | Returned p =>
      filePath ≠ "" ∧
      includes p "\\" = false ∧
      unc_path p = false ∧
      (unc_path (slashes_to_backslashes filePath) = true → isAbsolutePath p = false)
  end.
Proof.
  unfold normalizePath. destruct (decide (filePath = "")) as [->|Hne]; [done|].
  cbn [fst]. unfold normalized_path.
  split; [done|]. split; [apply Path.collapse_no_double|].
  split; [apply Path.collapse_not_unc|].
  intros Hunc.
  assert (isAbsolutePath (slashes_to_backslashes filePath) = true) as ->.
  { unfold isAbsolutePath. by rewrite Hunc, orb_true_r. }
  unfold isAbsolutePath. rewrite Path.collapse_not_unc, orb_false_r.
  destruct (slashes_to_backslashes filePath) as [|a [|b t]] eqn:Hs; try done.
  cbn [unc_path] in Hunc. apply andb_true_iff in Hunc as [Ha _].
  apply bool_decide_eq_true_1 in Ha. subst a.
  destruct (Path.collapse_head (String "\" (String b t))) as [t' ->].
  by destruct t' as [|? [|? ?]].
Qed.

(** X7.  A path that starts with a drive ([C:\] or, written with a
    slash, [C:/]) is normalised without looking at the extension path,
    stays absolute, and is a fixed point: normalising the result again,
    in any state, gives the result back. *)
Theorem normalizePath_drive_idempotent {B : Type} (filePath : string)
    (s s' : State (Host B)) :
  drive_path (slashes_to_backslashes filePath) = true →
  ∃ p, (normalizePath filePath s).1 = Returned p ∧
       p = collapse_backslashes (slashes_to_backslashes filePath) ∧
       isAbsolutePath p = true ∧
       (normalizePath p s').1 = Returned p.
Proof.
  intros Hdrive.
  set (p := collapse_backslashes (slashes_to_backslashes filePath)).
  assert (drive_path p = true) as Hp by by apply Path.collapse_drive.
  assert (slashes_to_backslashes p = p) as Hfix.
  { apply Path.slashes_fixed, Path.collapse_keeps_no_slash, Path.slashes_no_slash. }
  assert (∀ q (t : State (Host B)), drive_path (slashes_to_backslashes q) = true →
            (normalizePath q t).1 = Returned (collapse_backslashes (slashes_to_backslashes q)))
    as Hnorm.
  { intros q t Hq. unfold normalizePath.
    destruct (decide (q = "")) as [->|_]; [done|].
    cbn [fst]. unfold normalized_path, isAbsolutePath. by rewrite Hq. }
  exists p. split; [by apply Hnorm|]. split; [done|].
  split; [unfold isAbsolutePath; by rewrite Hp|].
  rewrite Hnorm by by rewrite Hfix.
  rewrite Hfix. unfold p. by rewrite Path.collapse_idempotent.
Qed.

Lemma normalizePath_drive_idempotent_witness :
  ∃ p, (normalizePath "C:/icons//codepoints.txt" (mkState ∅ ∅ 0 (mkHost [] None tt))).1
         = Returned p ∧
       p = collapse_backslashes (slashes_to_backslashes "C:/icons//codepoints.txt") ∧
       isAbsolutePath p = true ∧
       (normalizePath p (mkState ∅ ∅ 5 (mkHost [] (Some "D:\ext") tt))).1 = Returned p.
Proof.
  apply (normalizePath_drive_idempotent "C:/icons//codepoints.txt"). vm_compute. reflexivity.
Defined.

(** ** Callers of the manager *)

Module Exhaust.
Section Facts.
Context {V W : Type}.
Variable timer : Q → State W → State W.
Variable operationName : string.
Variable operation : Operation V W.
Variables (m : nat) (base mult cap : Q).
Variable notify : option (OnRetry W).
Variable classify : option (ShouldRetry W).

Local Abbreviation loop := (retryLoop timer operationName operation m base mult cap notify classify).
Local Abbreviation run := (retry_with timer operationName operation m base mult cap notify classify).

(** When every failure is one [shouldRetry] accepts, the loop runs all
    its iterations. *)
Lemma loop_exhausts k : ∀ a last s x s' tr,
  fails_retryably operation classify →
  (a + k = m + 2)%nat → (1 ≤ k)%nat →
  loop (seq a k) last s = (x, s', tr) →
  fst <$> attempts_of tr = seq a k ∧
  ∃ e, list.last (attempts_of tr) = Some ((m + 1)%nat, Thrown e) ∧
       x = LoopEnd (Some e).
Proof.
  induction k as [|k IH]; intros a last s x s' tr Hfail Hak Hk; [lia|].
  cbn [seq]. rewrite Retry.loop_cons.
  destruct (Hfail a s) as (e & He & Hsr).
  destruct (operation a s) as [r s1]. cbn in He. subst r.
  destruct (not_retryable (V:=V) classify e a s1) as [[stop s2] t2] eqn:Hask.
  pose proof (Retry.ask_quiet _ _ _ _ _ _ _ Hask) as (Hq & _ & _).
  apply Retry.ask_cases in Hask.
  assert (stop = Returned false) as ->.
  { destruct classify as [f|].
    - destruct Hask as (r & Hf & _ & ->).
      specialize (Hsr s1). rewrite Hf in Hsr. cbn in Hsr. by subst r.
    - by destruct Hask as (-> & _). }
  destruct (decide (m < a)%nat) as [Hlast|Hmore].
  - intros [= <- <- <-]. assert (k = 0)%nat as -> by lia.
    trace_simpl. rewrite Hq. cbn.
    split; [done|]. exists e. split; [|done]. do 3 f_equal. lia.
  - cbv zeta. set (d := backoffDelay a base mult cap).
    destruct (notify_retry (V:=V) operationName notify e a d s2) as [[u s3] t3] eqn:Htell.
    apply Retry.tell_quiet in Htell as [Ht3 _].
    destruct (loop (seq (S a) k) (Some e) (timer d s3)) as [[x4 s4] t4] eqn:Hloop.
    intros [= <- <- <-].
    apply IH in Hloop as (Hseq & e' & Hlast & ->); [|done|lia|lia].
    trace_simpl. rewrite Hq, Ht3. cbn.
    split; [by rewrite Hseq|].
    exists e'. split; [|done].
    destruct (attempts_of t4) as [|p l]; [done|]. done.
Qed.

(** The first invocation of a loop is made in the state the loop starts
    in. *)
Lemma loop_first a rest last s x s' tr :
  loop (a :: rest) last s = (x, s', tr) →
  ∃ post, tr = EvConsole (LogAttempt operationName a (m + 1))
                 :: EvAttempt a (operation a s).1 :: post.
Proof.
  rewrite Retry.loop_cons.
  destruct (operation a s) as [[v0|e0] s1]; [intros [= <- <- <-]; cbn; eauto|].
  destruct (not_retryable (V:=V) classify e0 a s1) as [[[[|]|e'] s2] t2].
  - intros [= <- <- <-]. cbn. eauto.
  - destruct (decide (m < a)%nat); [intros [= <- <- <-]; cbn; eauto|].
    cbv zeta. set (d := backoffDelay a base mult cap).
    destruct (notify_retry (V:=V) operationName notify e0 a d s2) as [[u s3] t3].
    destruct (loop rest (Some e0) (timer d s3)) as [[x4 s4] t4].
    intros [= <- <- <-]. cbn. eauto.
  - intros [= <- <- <-]. cbn. eauto.
Qed.

Lemma run_first s :
  ∃ rest, attempts_of (trace_of (run s)) = (1%nat, (operation 1 s).1) :: rest.
Proof.
  rewrite Retry.retry_with_eq.
  replace (m + 1)%nat with (S m) by lia. cbn [seq].
  destruct (loop (1%nat :: seq 2 m) None s) as [[x s2] t2] eqn:Hloop.
  apply loop_first in Hloop as (post & ->).
  exists (attempts_of post). by destruct x as [?|?|[?|]].
Qed.

Lemma run_exhausts s :
  fails_retryably operation classify →
  fst <$> attempts_of (trace_of (run s)) = seq 1 (m + 1) ∧
  waits_of (trace_of (run s)) = (λ n, backoffDelay n base mult cap) <$> seq 1 m ∧
  ∃ e, list.last (attempts_of (trace_of (run s))) = Some ((m + 1)%nat, Thrown e) ∧
       outcome_of (run s) = Thrown (retry_failure operationName m e).
Proof.
  intros Hfail.
  pose proof (Retry.run_waits timer operationName operation m base mult cap
                notify classify s) as Hw.
  revert Hw. rewrite Retry.retry_with_eq.
  destruct (loop _ None s) as [[x s1] t1] eqn:Hloop.
  apply loop_exhausts in Hloop as (Hseq & e & Hlast & ->); [|done|lia|lia].
  cbn. intros Hw. split; [done|]. split; [|by exists e].
  rewrite Hw. f_equal. f_equal.
  apply (f_equal length) in Hseq. rewrite length_fmap, length_seq in Hseq.
  unfold attempts_of in Hseq. lia.
Qed.

End Facts.
End Exhaust.

Module Jsx.

Lemma message_includes (r : string) :
  includes ("Failed to load JSX script: " +:+ r) "JSX_FILE_NOT_FOUND" =
  includes r "JSX_FILE_NOT_FOUND".
Proof. reflexivity. Qed.

Section Facts.
Context {B : Type}.
Variable evalScript : string → State (Host B) → string * State (Host B).

(** What an invocation of the operation gives, by the answer of the host. *)
Lemma operation_cases (attempt : nat) (s : State (Host B)) :
  match csInterface (world s) with
  | None =>
      (jsx_operation evalScript attempt s).1 =
        Thrown (newTypeError "Cannot read properties of null (reading 'getSystemPath')")
  | Some ext =>
      ∃ script s', let result := (evalScript script s').1 in
        (jsx_operation evalScript attempt s).1 =
          if decide (result = "JSX_LOADED_SUCCESS") then Returned true
          else Thrown (newError ("Failed to load JSX script: " +:+ result))
  end.
Proof.
  unfold jsx_operation. cbn [world host_log csInterface].
  destruct (csInterface (world s)) as [ext|]; [|reflexivity].
  exists (loadScript (ext +:+ "/jsx/hostscript.jsx")),
    (host_log (LogJsxLoadingFrom (ext +:+ "/jsx/hostscript.jsx"))
       (host_log (LogJsxAttempt attempt) s)).
  cbv zeta.
  destruct (evalScript _ _) as [result s1]. cbn [fst].
  by destruct (decide (result = "JSX_LOADED_SUCCESS")).
Qed.

End Facts.
End Jsx.

(** X8: when the host answers the load script with a result that contains
    JSX_FILE_NOT_FOUND, loadJSXHostScript invokes its operation once: no
    wait, no call of onRetry, and the failure raised still reads "failed
    after 3 attempts" in front of the host's answer. *)
Theorem loadJSXHostScript_stops_on_missing_file {B : Type}
    (timer : Q → State (Host B) → State (Host B))
    (evalScript : string → State (Host B) → string * State (Host B))
    (s : State (Host B)) (extensionPath : string) :
  csInterface (world s) = Some extensionPath →
  (∀ script s', includes (evalScript script s').1 "JSX_FILE_NOT_FOUND" = true) →
  let run := loadJSXHostScript timer evalScript s in
  ∃ result,
    includes result "JSX_FILE_NOT_FOUND" = true ∧
    attempts_of (trace_of run) =
      [(1%nat, Thrown (newError ("Failed to load JSX script: " +:+ result)))] ∧
    waits_of (trace_of run) = [] ∧
    notifications_of (trace_of run) = [] ∧
    ∃ e, outcome_of run = Thrown e ∧
         message e = "JSX_HostScript_Load failed after 3 attempts. Last error: "
                     +:+ "Failed to load JSX script: " +:+ result.
Proof.
  intros Hcs Hhost run. subst run.
  unfold loadJSXHostScript, executeWithRetry, jsx_options.
  cbn [default id maxRetries baseDelay backoffMultiplier maxDelay onRetry shouldRetry].
  rewrite Retry.retry_with_eq.
  change (seq 1 (2 + 1)) with [1; 2; 3]%nat. rewrite Retry.loop_cons.
  pose proof (Jsx.operation_cases evalScript 1 s) as Hop. rewrite Hcs in Hop.
  destruct Hop as (script & s' & Hop). cbv zeta in Hop.
  specialize (Hhost script s').
  destruct (decide ((evalScript script s').1 = "JSX_LOADED_SUCCESS")) as [Heq|_].
  { rewrite Heq in Hhost. done. }
  set (result := (evalScript script s').1) in *.
  destruct (jsx_operation evalScript 1 s) as [r s1]. cbn [fst] in Hop. subst r.
  exists result. split; [done|].
  unfold not_retryable, call_shouldRetry, jsx_shouldRetry, mbind, mret, M_bind, M_ret.
  cbn [message newError]. rewrite Jsx.message_includes, Hhost. cbn.
  repeat split. eexists. split; [done|]. reflexivity.
Qed.

Lemma loadJSXHostScript_stops_on_missing_file_witness :
  let run := loadJSXHostScript HostScenario.idle HostScenario.missing HostScenario.h0 in
  ∃ result,
    includes result "JSX_FILE_NOT_FOUND" = true ∧
    attempts_of (trace_of run) =
      [(1%nat, Thrown (newError ("Failed to load JSX script: " +:+ result)))] ∧
    waits_of (trace_of run) = [] ∧
    notifications_of (trace_of run) = [] ∧
    ∃ e, outcome_of run = Thrown e ∧
         message e = "JSX_HostScript_Load failed after 3 attempts. Last error: "
                     +:+ "Failed to load JSX script: " +:+ result.
Proof.
  apply (loadJSXHostScript_stops_on_missing_file HostScenario.idle
           HostScenario.missing HostScenario.h0 "C:\ext").
  - reflexivity.
  - intros script s'. vm_compute. reflexivity.
Defined.

(** X9: when the host never answers JSX_LOADED_SUCCESS nor anything that
    contains JSX_FILE_NOT_FOUND, loadJSXHostScript invokes its operation
    three times, waits 1000 ms and then 1500 ms between the invocations,
    and raises the Error whose message is "JSX_HostScript_Load failed
    after 3 attempts. Last error: <message of the last error>".  This
    holds also when this.csInterface is null: the first invocation then
    ends in the TypeError of reading getSystemPath of null. *)
Theorem loadJSXHostScript_retries_other_failures {B : Type}
    (timer : Q → State (Host B) → State (Host B))
    (evalScript : string → State (Host B) → string * State (Host B))
    (s : State (Host B)) :
  (∀ script s', (evalScript script s').1 ≠ "JSX_LOADED_SUCCESS" ∧
                includes (evalScript script s').1 "JSX_FILE_NOT_FOUND" = false) →
  let run := loadJSXHostScript timer evalScript s in
  fst <$> attempts_of (trace_of run) = [1; 2; 3]%nat ∧
  Forall2 Qeq (waits_of (trace_of run)) [1000; 1500]%Q ∧
  (∃ e failure,
     list.last (attempts_of (trace_of run)) = Some (3%nat, Thrown e) ∧
     outcome_of run = Thrown failure ∧
     errName failure = "Error" ∧
     message failure =
       "JSX_HostScript_Load failed after 3 attempts. Last error: " +:+ message e) ∧
  (csInterface (world s) = None →
   ∃ rest, attempts_of (trace_of run) =
     (1%nat, Thrown (newTypeError
                       "Cannot read properties of null (reading 'getSystemPath')"))
     :: rest).
Proof.
  intros Hhost run. subst run.
  unfold loadJSXHostScript, executeWithRetry, jsx_options.
  cbn [default id maxRetries baseDelay backoffMultiplier maxDelay onRetry shouldRetry].
  assert (fails_retryably (jsx_operation evalScript) (Some jsx_shouldRetry)) as Hfail.
  { intros n s0. pose proof (Jsx.operation_cases evalScript n s0) as Hop.
    destruct (csInterface (world s0)) as [ext|].
    - destruct Hop as (script & s' & Hop). cbv zeta in Hop.
      destruct (Hhost script s') as [Hne Hno].
      rewrite decide_False in Hop by done.
      eexists. split; [exact Hop|]. intros s1. unfold jsx_shouldRetry.
      cbn [fst message newError]. by rewrite Jsx.message_includes, Hno.
    - eexists. split; [exact Hop|]. intros s1. reflexivity. }
  destruct (Exhaust.run_exhausts timer "JSX_HostScript_Load" (jsx_operation evalScript)
              2 1000 1.5 3000 (Some jsx_onRetry) (Some jsx_shouldRetry) s Hfail)
    as (Hseq & Hw & e & Hlast & Hout).
  split; [exact Hseq|]. split.
  { rewrite Hw. cbn [seq fmap list_fmap]. repeat constructor; reflexivity. }
  split.
  { exists e, (retry_failure "JSX_HostScript_Load" 2 e).
    split; [done|]. split; [done|]. split; reflexivity. }
  intros Hnull.
  destruct (Exhaust.run_first timer "JSX_HostScript_Load" (jsx_operation evalScript)
              2 1000 1.5 3000 (Some jsx_onRetry) (Some jsx_shouldRetry) s)
    as [rest Hrest].
  pose proof (Jsx.operation_cases evalScript 1 s) as Hop. rewrite Hnull in Hop.
  exists rest. by rewrite Hrest, Hop.
Qed.

Lemma loadJSXHostScript_retries_other_failures_witness :
  let run := loadJSXHostScript HostScenario.idle HostScenario.broken HostScenario.h0 in
  fst <$> attempts_of (trace_of run) = [1; 2; 3]%nat ∧
  Forall2 Qeq (waits_of (trace_of run)) [1000; 1500]%Q ∧
  (∃ e failure,
     list.last (attempts_of (trace_of run)) = Some (3%nat, Thrown e) ∧
     outcome_of run = Thrown failure ∧
     errName failure = "Error" ∧
     message failure =
       "JSX_HostScript_Load failed after 3 attempts. Last error: " +:+ message e) ∧
  (csInterface (world HostScenario.h0) = None →
   ∃ rest, attempts_of (trace_of run) =
     (1%nat, Thrown (newTypeError
                       "Cannot read properties of null (reading 'getSystemPath')"))
     :: rest).
Proof.
  apply (loadJSXHostScript_retries_other_failures HostScenario.idle
           HostScenario.broken HostScenario.h0).
  intros script s'. split; [discriminate|vm_compute; reflexivity].
Defined.

Module Read.
Section Facts.
Context {B : Type}.
Variable timer : Q → State (Host B) → State (Host B).
Variable attemptFileRead :
  string → nat → State (Host B) → Outcome FileReadResult * State (Host B).

(** [readLocalFile] for a path that is not empty: the two lines logged,
    then the run of [executeWithRetry] under the normalised path. *)
Lemma readLocalFile_unfold (filePath : string) (maxRetries : option positive)
    (s : State (Host B)) :
  filePath ≠ "" →
  let p := normalized_path (default "" (csInterface (world s))) filePath in
  ∃ s1, retryAttempts s1 = retryAttempts s ∧
    readLocalFile timer attemptFileRead filePath maxRetries s =
    executeWithRetry timer ("FileRead_" +:+ p)
      (read_operation attemptFileRead p)
      (read_options (Pos.to_nat (default 3%positive maxRetries) - 1)) s1.
Proof.
  intros Hne p. unfold readLocalFile, normalizePath.
  rewrite decide_False by done. cbn [world host_log csInterface]. fold p.
  eexists. split; [|reflexivity]. by destruct (isAbsolutePath _).
Qed.

End Facts.
End Read.

(** X10: the shouldRetry of readLocalFile joins its three negations by
    "or", so it refuses only an error whose message contains all of "not
    found", "permission denied" and "access denied".  When every read
    fails with a message that lacks at least one of them (a plain "File
    not found" is such a message), readLocalFile(path, maxRetries) with a
    path that is not empty and maxRetries = m + 1 >= 1 invokes the read
    m + 1 times, waits min(1000 * 2^(n-1), 5000) ms after the n-th failure
    for n = 1..m, and raises the Error whose message is
    "FileRead_<normalised path> failed after <m+1> attempts. Last error:
    <message of the last error>". *)
Theorem readLocalFile_retries_unless_all_three_phrases {B : Type}
    (timer : Q → State (Host B) → State (Host B))
    (attemptFileRead :
       string → nat → State (Host B) → Outcome FileReadResult * State (Host B))
    (filePath : string) (limit : option positive) (s : State (Host B)) :
  filePath ≠ "" →
  (∀ path n s', ∃ e,
     (read_operation attemptFileRead path n s').1 = Thrown e ∧
     includes (message e) "not found" &&
     includes (message e) "permission denied" &&
     includes (message e) "access denied" = false) →
  let run := readLocalFile timer attemptFileRead filePath limit s in
  let p := normalized_path (default "" (csInterface (world s))) filePath in
  let m := (Pos.to_nat (default 3%positive limit) - 1)%nat in
  fst <$> attempts_of (trace_of run) = seq 1 (m + 1) ∧
  waits_of (trace_of run) =
    (λ n, Qmin (1000 * 2 ^ (Z.of_nat n - 1)) 5000) <$> seq 1 m ∧
  ∃ e failure,
    list.last (attempts_of (trace_of run)) = Some ((m + 1)%nat, Thrown e) ∧
    outcome_of run = Thrown failure ∧
    errName failure = "Error" ∧
    message failure =
      "FileRead_" +:+ p +:+ " failed after " +:+ pretty (m + 1)%nat +:+
      " attempts. Last error: " +:+ message e.
Proof.
  intros Hne Hfails run p m. subst run.
  destruct (Read.readLocalFile_unfold timer attemptFileRead filePath limit s Hne)
    as (s1 & _ & ->).
  fold p m. unfold executeWithRetry, read_options.
  cbn [default id maxRetries baseDelay backoffMultiplier maxDelay onRetry shouldRetry].
  destruct (Exhaust.run_exhausts timer ("FileRead_" +:+ p)
              (read_operation attemptFileRead p) m 1000 2 5000
              (Some read_onRetry) (Some read_shouldRetry) s1)
    as (Hseq & Hw & e & Hlast & Hout).
  { intros n s0. destruct (Hfails p n s0) as (e & He & Hmsg).
    exists e. split; [done|]. intros s'. unfold read_shouldRetry. cbn [fst].
    f_equal. rewrite <- !negb_andb, Hmsg. done. }
  split; [done|]. split; [exact Hw|].
  exists e, (retry_failure ("FileRead_" +:+ p) m e).
  split; [done|]. split; [done|]. split; [reflexivity|].
  unfold retry_failure. cbn [message newError]. by rewrite !Str.app_assoc.
Qed.

Lemma readLocalFile_retries_unless_all_three_phrases_witness :
  let run := readLocalFile HostScenario.idle HostScenario.unreadable
               "fonts/codepoints" None HostScenario.h0 in
  let p := normalized_path (default "" (csInterface (world HostScenario.h0)))
             "fonts/codepoints" in
  let m := (Pos.to_nat (default 3%positive None) - 1)%nat in
  fst <$> attempts_of (trace_of run) = seq 1 (m + 1) ∧
  waits_of (trace_of run) =
    (λ n, Qmin (1000 * 2 ^ (Z.of_nat n - 1)) 5000) <$> seq 1 m ∧
  ∃ e failure,
    list.last (attempts_of (trace_of run)) = Some ((m + 1)%nat, Thrown e) ∧
    outcome_of run = Thrown failure ∧
    errName failure = "Error" ∧
    message failure =
      "FileRead_" +:+ p +:+ " failed after " +:+ pretty (m + 1)%nat +:+
      " attempts. Last error: " +:+ message e.
Proof.
  apply (readLocalFile_retries_unless_all_three_phrases HostScenario.idle
           HostScenario.unreadable "fonts/codepoints" None HostScenario.h0).
  - discriminate.
  - intros path n s'. exists (newError "File not found: codepoints").
    split; vm_compute; reflexivity.
Defined.

(** X11: the empty path is the only one for which readLocalFile attempts
    no read.  For the empty path the error of normalizePath ('File path is
    required') comes out, nothing is invoked or waited for, and the map of
    the manager is untouched: the failure is not counted.  For every other
    path the read is attempted, with attempt number 1 first. *)
Theorem readLocalFile_attempts_unless_path_is_empty {B : Type}
    (timer : Q → State (Host B) → State (Host B))
    (attemptFileRead :
       string → nat → State (Host B) → Outcome FileReadResult * State (Host B))
    (filePath : string) (limit : option positive) (s : State (Host B)) :
  let run := readLocalFile timer attemptFileRead filePath limit s in
  if decide (filePath = "") then
    outcome_of run = Thrown (newError "File path is required") ∧
    trace_of run = [] ∧
    retryAttempts (final_of run) = retryAttempts s
  else
    ∃ r rest, attempts_of (trace_of run) = (1%nat, r) :: rest.
Proof.
  intros run. subst run.
  destruct (decide (filePath = "")) as [->|Hne].
  - unfold readLocalFile, normalizePath. cbn. done.
  - destruct (Read.readLocalFile_unfold timer attemptFileRead filePath limit s Hne)
      as (s1 & _ & ->).
    unfold executeWithRetry. eexists. apply Exhaust.run_first.
Qed.

(** X12: the shouldRetry of initializeAsync accepts every failure that
    executeWithRetry raises for an operation whose name contains
    "CSInterface", whatever the last error was: the message of the
    failure starts with the operation name.  So the give-up of
    initializeCSInterface (operation CSInterface_Initialize) is retried
    by initializeAsync, also when the inner shouldRetry had refused the
    error as permanent. *)
Theorem initializeAsync_retries_failed_CSInterface_retries {W : Type}
    (toLowerCase : string → string) (operationName : string) (m : nat)
    (lastError : Error) (attempt : nat) (s : State W) :
  includes operationName "CSInterface" = true →
  init_shouldRetry toLowerCase (retry_failure operationName m lastError) attempt s =
    (Returned true, s).
Proof.
  intros Hname. unfold init_shouldRetry, retry_failure. cbn [message newError].
  pose proof (Str.includes_wrap "" operationName
    (" failed after " +:+ pretty (m + 1)%nat +:+ " attempts. Last error: "
       +:+ message lastError) "CSInterface" Hname) as Hinc.
  change ("" +:+ ?x) with x in Hinc. by rewrite Hinc.
Qed.

Lemma initializeAsync_retries_failed_CSInterface_retries_witness :
  init_shouldRetry (λ m, m)
    (retry_failure "CSInterface_Initialize" 9
       (newError "CSInterface is permanently unsupported")) 1 Scenario.s0 =
    (Returned true, Scenario.s0).
Proof.
  apply (initializeAsync_retries_failed_CSInterface_retries (λ m, m)
           "CSInterface_Initialize" 9
           (newError "CSInterface is permanently unsupported") 1 Scenario.s0).
  vm_compute. reflexivity.
Defined.

(** ** The debug manager *)

Module DebugFacts.
Import Debug.
Section Facts.
Context {D : Type}.
Variable truthy : D → bool.
Variable Date_now : nat → Z.

Local Abbreviation log := (Debug.log truthy Date_now).
Local Abbreviation warn := (Debug.warn truthy Date_now).
Local Abbreviation error := (Debug.error (D:=D) Date_now).
Local Abbreviation mark := (Debug.mark truthy Date_now).
Local Abbreviation measure := (Debug.measure truthy Date_now).
Local Abbreviation clearLogs := (Debug.clearLogs truthy Date_now).
Local Abbreviation call := (Debug.call truthy Date_now).
Local Abbreviation calls := (Debug.calls truthy Date_now).

Lemma slice_last_length {A} (n : nat) (l : list A) :
  (n < length l)%nat → (1 ≤ n)%nat → length (slice_last n l) = n.
Proof.
  intros Hlt Hn. destruct n as [|n]; [lia|].
  unfold slice_last. rewrite length_drop. lia.
Qed.

(** [addLog] keeps the other fields, and the log within [maxLogs]. *)
Lemma addLog_fields (entry : LogEntry D) (this : DebugManager D) :
  maxLogs (addLog entry this) = maxLogs this ∧
  startTime (addLog entry this) = startTime this ∧
  performanceMarks (addLog entry this) = performanceMarks this ∧
  clockReads (addLog entry this) = clockReads this.
Proof. unfold addLog. by destruct (decide _). Qed.

Lemma addLog_length (entry : LogEntry D) (this : DebugManager D) :
  (1 ≤ maxLogs this)%nat → (length (logs this) ≤ maxLogs this)%nat →
  length (logs (addLog entry this)) = (S (length (logs this)) `min` maxLogs this)%nat.
Proof.
  intros Hmax Hlen. unfold addLog. rewrite length_app. cbn [length].
  destruct (decide _) as [Hgt|Hle]; cbn [logs set_logs].
  - rewrite slice_last_length; rewrite ?length_app; cbn [length]; lia.
  - rewrite length_app. cbn [length]. lia.
Qed.

(** What one call does to the fields. *)
Lemma log_fields category message data (this : DebugManager D) :
  maxLogs (log category message data this) = maxLogs this ∧
  performanceMarks (log category message data this) = performanceMarks this ∧
  clockReads (log category message data this) = S (clockReads this) ∧
  startTime (log category message data this) = startTime this ∧
  ∃ entry, level entry = "info" ∧
    logs (log category message data this) = logs (addLog entry this).
Proof.
  unfold Debug.log, read_clock, write_console, addLog. cbn.
  repeat split; try by destruct (decide _).
  exists (mkLogEntry (Date_now (clockReads this))
            (Date_now (clockReads this) - startTime this) category message
            (DataValue <$> data) "info").
  split; [done|]. by destruct (decide _).
Qed.

Lemma warn_fields category message data (this : DebugManager D) :
  maxLogs (warn category message data this) = maxLogs this ∧
  performanceMarks (warn category message data this) = performanceMarks this ∧
  clockReads (warn category message data this) = S (clockReads this) ∧
  startTime (warn category message data this) = startTime this ∧
  ∃ entry, level entry = "warn" ∧
    logs (warn category message data this) = logs (addLog entry this).
Proof.
  unfold Debug.warn, read_clock, write_console, addLog. cbn.
  repeat split; try by destruct (decide _).
  exists (mkLogEntry (Date_now (clockReads this))
            (Date_now (clockReads this) - startTime this) category message
            (DataValue <$> data) "warn").
  split; [done|]. by destruct (decide _).
Qed.

Lemma error_fields category message e (this : DebugManager D) :
  maxLogs (error category message e this) = maxLogs this ∧
  performanceMarks (error category message e this) = performanceMarks this ∧
  clockReads (error category message e this) = S (clockReads this) ∧
  startTime (error category message e this) = startTime this ∧
  ∃ entry, level entry = "error" ∧
    logs (error category message e this) = logs (addLog entry this).
Proof.
  unfold Debug.error, read_clock, write_console, addLog. cbn.
  repeat split; try by destruct (decide _).
  exists (mkLogEntry (Date_now (clockReads this))
            (Date_now (clockReads this) - startTime this) category message
            (error_data <$> e) "error").
  split; [done|]. by destruct (decide _).
Qed.

(** [addLog] looks only at the log and at [maxLogs]. *)
Lemma addLog_ext (entry : LogEntry D) (this this' : DebugManager D) :
  logs this' = logs this → maxLogs this' = maxLogs this →
  logs (addLog entry this') = logs (addLog entry this).
Proof.
  intros Hl Hm. unfold addLog. rewrite Hl, Hm.
  by destruct (decide _).
Qed.

(** The newest entry is the last one. *)
Lemma addLog_last (entry : LogEntry D) (this : DebugManager D) :
  list.last (logs (addLog entry this)) = Some entry.
Proof.
  unfold addLog. destruct (decide _) as [Hgt|_]; cbn [logs set_logs].
  - unfold slice_last. destruct (maxLogs this) as [|n] eqn:Hn; [apply last_snoc|].
    rewrite length_app in *. cbn [length] in *.
    replace (length (logs this) + 1 - S n)%nat with (length (logs this) - n)%nat by lia.
    rewrite drop_app_le by lia. apply last_snoc.
  - apply last_snoc.
Qed.

(** What a call does to the log: it adds one entry, [clearLogs] to the
    emptied log. *)
Lemma call_shape (c : Call D) (this : DebugManager D) :
  maxLogs (call c this) = maxLogs this ∧
  startTime (call c this) = startTime this ∧
  ∃ entry,
    logs (call c this) =
      logs (addLog entry match c with
                         | CallClearLogs => set_logs [] this
                         | _ => this
                         end).
Proof.
  destruct c as [category message data|category message e|category message data
                |name|name startMark|]; cbn [Debug.call].
  - destruct (log_fields category message data this) as (? & _ & _ & ? & entry & _ & ?).
    eauto.
  - destruct (error_fields category message e this) as (? & _ & _ & ? & entry & _ & ?).
    eauto.
  - destruct (warn_fields category message data this) as (? & _ & _ & ? & entry & _ & ?).
    eauto.
  - unfold Debug.mark. cbn [read_clock].
    match goal with |- context [log ?c ?m ?d ?x] =>
      destruct (log_fields c m d x) as (-> & _ & _ & -> & entry & _ & ->) end.
    split; [done|]. split; [done|]. exists entry. by apply addLog_ext.
  - unfold Debug.measure. cbn [read_clock].
    set (this1 := mkDebugManager _ _ _ _ _ _).
    assert (∀ this2 : DebugManager D,
              (maxLogs this2 = maxLogs this1 ∧ startTime this2 = startTime this1 ∧
               ∃ entry, logs this2 = logs (addLog entry this1)) →
              maxLogs this2 = maxLogs this ∧ startTime this2 = startTime this ∧
              ∃ entry, logs this2 = logs (addLog entry this)) as Hback.
    { intros this2 (-> & -> & entry & ->). split; [done|]. split; [done|].
      exists entry. by apply addLog_ext. }
    destruct (performanceMarks this1 !! startMark) as [t0|];
      [destruct (decide (t0 = 0%Z))|]; cbn [snd]; apply Hback.
    + match goal with |- context [warn ?c ?m ?d ?x] =>
        destruct (warn_fields c m d x) as (? & _ & _ & ? & entry & _ & ?) end. eauto.
    + match goal with |- context [log ?c ?m ?d ?x] =>
        destruct (log_fields c m d x) as (? & _ & _ & ? & entry & _ & ?) end. eauto.
    + match goal with |- context [warn ?c ?m ?d ?x] =>
        destruct (warn_fields c m d x) as (? & _ & _ & ? & entry & _ & ?) end. eauto.
  - unfold Debug.clearLogs.
    match goal with |- context [log ?c ?m ?d ?x] =>
      destruct (log_fields c m d x) as (-> & _ & _ & -> & entry & _ & ->) end.
    split; [done|]. split; [done|]. exists entry. by apply addLog_ext.
Qed.

Lemma call_length (c : Call D) (this : DebugManager D) :
  (1 ≤ maxLogs this)%nat → (length (logs this) ≤ maxLogs this)%nat →
  length (logs (call c this)) =
    (match c with
     | CallClearLogs => 1
     | _ => S (length (logs this))
     end `min` maxLogs this)%nat.
Proof.
  intros Hmax Hlen. destruct (call_shape c this) as (_ & _ & entry & ->).
  destruct c; rewrite addLog_length; cbn [logs set_logs maxLogs length]; lia.
Qed.

Lemma entries_since_clear_cons (c : Call D) (cs : list (Call D)) (n : nat) :
  entries_since_clear (c :: cs) n =
  entries_since_clear cs match c with CallClearLogs => 1%nat | _ => S n end.
Proof. reflexivity. Qed.

Lemma entries_capped (max : nat) (cs : list (Call D)) : ∀ k k',
  (k `min` max = k' `min` max)%nat →
  (entries_since_clear cs k `min` max = entries_since_clear cs k' `min` max)%nat.
Proof.
  induction cs as [|c cs IH]; intros k k' Hk; [done|].
  rewrite !entries_since_clear_cons. apply IH. destruct c; lia.
Qed.

Lemma calls_length (cs : list (Call D)) : ∀ this : DebugManager D,
  (1 ≤ maxLogs this)%nat → (length (logs this) ≤ maxLogs this)%nat →
  maxLogs (calls cs this) = maxLogs this ∧
  length (logs (calls cs this)) =
    (entries_since_clear cs (length (logs this)) `min` maxLogs this)%nat.
Proof.
  induction cs as [|c cs IH]; intros this Hmax Hlen.
  - cbn. split; [done|]. lia.
  - change (calls (c :: cs) this) with (calls cs (call c this)).
    destruct (call_shape c this) as (Hm & _ & _).
    pose proof (call_length c this Hmax Hlen) as Hl.
    destruct (IH (call c this)) as [IHm IHl]; [lia|lia|].
    rewrite IHm, IHl, Hm. split; [done|].
    rewrite entries_since_clear_cons. apply entries_capped.
    rewrite Hl. destruct c; lia.
Qed.

(** *** Marks *)

Lemma measure_result (name startMark : string) (this : DebugManager D) :
  (measure name startMark this).1 =
  match performanceMarks this !! startMark with
  | Some t0 => if decide (t0 = 0%Z) then None
               else Some (Date_now (clockReads this) - t0)%Z
  | None => None
  end.
Proof.
  unfold Debug.measure. cbn [read_clock performanceMarks].
  destruct (performanceMarks this !! startMark) as [t0|]; [|done].
  by destruct (decide (t0 = 0%Z)).
Qed.

Lemma mark_sets (name : string) (this : DebugManager D) :
  performanceMarks (mark name this) =
    <[name := Date_now (clockReads this)]> (performanceMarks this).
Proof.
  unfold Debug.mark. cbn [read_clock].
  match goal with |- context [log ?c ?m ?d ?x] =>
    destruct (log_fields c m d x) as (_ & -> & _) end.
  done.
Qed.

Lemma clearLogs_marks (this : DebugManager D) : performanceMarks (clearLogs this) = ∅.
Proof.
  unfold Debug.clearLogs.
  match goal with |- context [log ?c ?m ?d ?x] =>
    destruct (log_fields c m d x) as (_ & -> & _) end.
  done.
Qed.

Lemma measure_marks (name startMark : string) (this : DebugManager D) :
  performanceMarks (measure name startMark this).2 = performanceMarks this.
Proof.
  unfold Debug.measure. cbn [read_clock].
  set (this1 := mkDebugManager _ _ _ _ _ _).
  change (performanceMarks this) with (performanceMarks this1).
  destruct (performanceMarks this1 !! startMark) as [t0|];
    [destruct (decide (t0 = 0%Z))|]; cbn [snd].
  - match goal with |- context [warn ?c ?m ?d ?x] =>
      by destruct (warn_fields c m d x) as (_ & -> & _) end.
  - match goal with |- context [log ?c ?m ?d ?x] =>
      by destruct (log_fields c m d x) as (_ & -> & _) end.
  - match goal with |- context [warn ?c ?m ?d ?x] =>
      by destruct (warn_fields c m d x) as (_ & -> & _) end.
Qed.

(** A call leaves the mark [startMark] alone unless it is [clearLogs] or
    [mark(startMark)]. *)
Lemma call_keeps_mark (c : Call D) (startMark : string) (this : DebugManager D) :
  c ≠ CallClearLogs → c ≠ CallMark startMark →
  performanceMarks (call c this) !! startMark = performanceMarks this !! startMark.
Proof.
  intros Hclear Hmark.
  destruct c as [category message data|category message e|category message data
                |name|name start|]; cbn [Debug.call]; [..|done].
  - by destruct (log_fields category message data this) as (_ & -> & _).
  - by destruct (error_fields category message e this) as (_ & -> & _).
  - by destruct (warn_fields category message data this) as (_ & -> & _).
  - rewrite mark_sets. apply lookup_insert_ne. congruence.
  - by rewrite measure_marks.
Qed.

Lemma calls_keep_mark (cs : list (Call D)) (startMark : string) :
  ∀ this : DebugManager D,
  Forall (λ c, c ≠ CallClearLogs ∧ c ≠ CallMark startMark) cs →
  performanceMarks (calls cs this) !! startMark = performanceMarks this !! startMark.
Proof.
  induction cs as [|c cs IH]; intros this Hcs; [done|].
  apply Forall_cons in Hcs as [[Hclear Hmark] Hcs].
  change (calls (c :: cs) this) with (calls cs (call c this)).
  rewrite IH by done. by apply call_keeps_mark.
Qed.

(** A mark that is not set stays so until it is marked. *)
Lemma calls_keep_unmarked (cs : list (Call D)) (startMark : string) :
  ∀ this : DebugManager D,
  Forall (λ c, c ≠ CallMark startMark) cs →
  performanceMarks this !! startMark = None →
  performanceMarks (calls cs this) !! startMark = None.
Proof.
  induction cs as [|c cs IH]; intros this Hcs Hnone; [done|].
  apply Forall_cons in Hcs as [Hmark Hcs].
  change (calls (c :: cs) this) with (calls cs (call c this)).
  apply IH; [done|].
  destruct c; try (by rewrite call_keeps_mark).
  cbn [Debug.call]. by rewrite clearLogs_marks.
Qed.

(** *** Statistics *)

Lemma Set_of_from (l : list string) : ∀ seen : list string,
  NoDup seen →
  let r := fold_left (λ seen x, if decide (x ∈ seen) then seen else seen ++ [x]) l seen in
  NoDup r ∧ ∀ x, x ∈ r ↔ x ∈ seen ∨ x ∈ l.
Proof.
  induction l as [|y l IH]; intros seen Hnd; cbn [fold_left].
  - split; [done|]. intros x. rewrite elem_of_nil. tauto.
  - destruct (decide (y ∈ seen)) as [Hin|Hnot].
    + destruct (IH seen Hnd) as [Hr Hiff]. split; [done|].
      intros x. rewrite Hiff, elem_of_cons.
      split; [tauto|]. intros [?|[->|?]]; tauto.
    + destruct (IH (seen ++ [y])) as [Hr Hiff].
      { apply NoDup_app. split; [done|]. split; [|apply NoDup_singleton].
        intros x Hx ->%list_elem_of_singleton. done. }
      split; [done|]. intros x.
      rewrite Hiff, elem_of_app, list_elem_of_singleton, elem_of_cons. tauto.
Qed.

Lemma filter_disjoint_length {A} (P Q : A → Prop) `{!∀ x, Decision (P x)}
    `{!∀ x, Decision (Q x)} (l : list A) :
  (∀ x, P x → Q x → False) →
  (length (filter P l) + length (filter Q l) ≤ length l)%nat.
Proof.
  intros Hdisj. induction l as [|x l IH]; [done|].
  rewrite !filter_cons.
  destruct (decide (P x)) as [HP|_], (decide (Q x)) as [HQ|_]; cbn [length]; try lia.
  destruct (Hdisj x HP HQ).
Qed.

End Facts.
End DebugFacts.

(** X13: the log of a debug manager never holds more than 1000 entries.
    After any sequence of calls of log, error, warn, mark, measure and
    clearLogs on a new manager, maxLogs is still 1000 and the log holds
    min(k, 1000) entries, where k counts one entry for every call since
    the last clearLogs and one for that clearLogs itself (which logs
    'Logs cleared' into the log it has just emptied). *)
Theorem debug_log_is_capped {D : Type} (truthy : D → bool) (Date_now : nat → Z)
    (console : list (Debug.ConsoleCall D)) (reads : nat) (cs : list (Debug.Call D)) :
  let this := Debug.calls truthy Date_now cs
                (Debug.new_DebugManager Date_now console reads) in
  Debug.maxLogs this = 1000%nat ∧
  length (Debug.logs this) = (Debug.entries_since_clear cs 0 `min` 1000)%nat.
Proof.
  intros this. subst this.
  destruct (DebugFacts.calls_length truthy Date_now cs
              (Debug.new_DebugManager Date_now console reads)) as [Hm Hl].
  - cbn. lia.
  - cbn. lia.
  - rewrite Hm, Hl. done.
Qed.

(** X14: in what getStats returns, errorCount + warningCount is at most
    totalLogs, and categories lists every category of the log exactly
    once. *)
Theorem getStats_counts {D : Type} (Date_now : nat → Z) (this : Debug.DebugManager D) :
  let stats := (Debug.getStats Date_now this).1 in
  (Debug.errorCount stats + Debug.warningCount stats ≤ Debug.totalLogs stats)%nat ∧
  NoDup (Debug.categories stats) ∧
  ∀ c, c ∈ Debug.categories stats ↔
       ∃ entry, entry ∈ Debug.logs this ∧ Debug.category entry = c.
Proof.
  cbn. split; [|split].
  - apply DebugFacts.filter_disjoint_length. intros entry H1 H2. congruence.
  - by apply (DebugFacts.Set_of_from (Debug.category <$> Debug.logs this) []), NoDup_nil.
  - intros c.
    destruct (DebugFacts.Set_of_from (Debug.category <$> Debug.logs this) [])
      as [_ Hiff]; [by apply NoDup_nil|].
    unfold Debug.Set_of. rewrite Hiff, elem_of_nil, list_elem_of_fmap.
    split.
    + intros [[]|(entry & -> & Hin)]. eauto.
    + intros (entry & Hin & <-). right. eauto.
Qed.

(** X15: mark then measure.  After mark(startMark), and any calls in
    between other than clearLogs and mark(startMark), measure(name,
    startMark) returns the clock reading it takes minus the reading
    mark took, unless mark read 0: the test [if (startTime)] then takes
    the mark for missing and measure returns null. *)
Theorem measure_after_mark {D : Type} (truthy : D → bool) (Date_now : nat → Z)
    (this : Debug.DebugManager D) (name startMark : string)
    (between : list (Debug.Call D)) :
  Forall (λ c, c ≠ Debug.CallClearLogs ∧ c ≠ Debug.CallMark startMark) between →
  let t0 := Date_now (Debug.clockReads this) in
  let this' := Debug.calls truthy Date_now between
                 (Debug.mark truthy Date_now startMark this) in
  let t1 := Date_now (Debug.clockReads this') in
  (Debug.measure truthy Date_now name startMark this').1 =
    if decide (t0 = 0%Z) then None else Some (t1 - t0)%Z.
Proof.
  intros Hbetween t0 this' t1.
  rewrite DebugFacts.measure_result. subst this'.
  rewrite DebugFacts.calls_keep_mark by done.
  rewrite DebugFacts.mark_sets, lookup_insert_eq. done.
Qed.

(** X16: clearLogs forgets the marks.  After clearLogs, and any calls in
    between other than mark(startMark), measure(name, startMark) returns
    null, and the entry it adds, the last of the log, is a warning. *)
Theorem measure_after_clearLogs {D : Type} (truthy : D → bool) (Date_now : nat → Z)
    (this : Debug.DebugManager D) (name startMark : string)
    (between : list (Debug.Call D)) :
  Forall (λ c, c ≠ Debug.CallMark startMark) between →
  let this' := Debug.calls truthy Date_now between
                 (Debug.clearLogs truthy Date_now this) in
  let measured := Debug.measure truthy Date_now name startMark this' in
  measured.1 = None ∧
  ∃ entry, list.last (Debug.logs measured.2) = Some entry ∧
           Debug.level entry = "warn".
Proof.
  intros Hbetween this' measured. subst measured.
  assert (Debug.performanceMarks this' !! startMark = None) as Hnone.
  { apply DebugFacts.calls_keep_unmarked; [done|].
    by rewrite DebugFacts.clearLogs_marks. }
  split; [by rewrite DebugFacts.measure_result, Hnone|].
  unfold Debug.measure. cbn [Debug.read_clock Debug.performanceMarks]. rewrite Hnone.
  cbn [snd].
  match goal with |- context [Debug.warn ?t ?n ?c ?m ?d ?x] =>
    destruct (DebugFacts.warn_fields t n c m d x) as (_ & _ & _ & _ & entry & Hl & ->) end.
  exists entry. split; [apply DebugFacts.addLog_last|done].
Qed.

Lemma measure_after_mark_witness :
  let between := [Debug.CallLog "io" "reading" None; Debug.CallMark "other"] in
  let t0 := DebugScenario.ticking (Debug.clockReads DebugScenario.started) in
  let this' := Debug.calls DebugScenario.truthy DebugScenario.ticking between
                 (Debug.mark DebugScenario.truthy DebugScenario.ticking "load"
                    DebugScenario.started) in
  let t1 := DebugScenario.ticking (Debug.clockReads this') in
  (Debug.measure DebugScenario.truthy DebugScenario.ticking "load time" "load" this').1 =
    if decide (t0 = 0%Z) then None else Some (t1 - t0)%Z.
Proof.
  apply (measure_after_mark DebugScenario.truthy DebugScenario.ticking
           DebugScenario.started "load time" "load"
           [Debug.CallLog "io" "reading" None; Debug.CallMark "other"]).
  repeat (constructor; [split; discriminate|]). constructor.
Defined.

Lemma measure_after_clearLogs_witness :
  let between := [Debug.CallMark "other"; Debug.CallClearLogs] in
  let this' := Debug.calls DebugScenario.truthy DebugScenario.ticking between
                 (Debug.clearLogs DebugScenario.truthy DebugScenario.ticking
                    (Debug.mark DebugScenario.truthy DebugScenario.ticking "load"
                       DebugScenario.started)) in
  let measured := Debug.measure DebugScenario.truthy DebugScenario.ticking
                    "load time" "load" this' in
  measured.1 = None ∧
  ∃ entry, list.last (Debug.logs measured.2) = Some entry ∧
           Debug.level entry = "warn".
Proof.
  apply (measure_after_clearLogs DebugScenario.truthy DebugScenario.ticking
           (Debug.mark DebugScenario.truthy DebugScenario.ticking "load"
              DebugScenario.started)
           "load time" "load" [Debug.CallMark "other"; Debug.CallClearLogs]).
  repeat (constructor; [discriminate|]). constructor.
Defined.

(** ** Icon categories *)

Module Category.

Lemma includes_any_intro (name keyword : string) (keywords : list string) :
  includes name keyword = true → keyword ∈ keywords →
  includes_any name keywords = true.
Proof.
  intros Hinc Hin. apply existsb_exists. exists keyword.
  split; [by apply list_elem_of_In|done].
Qed.

(** A keyword that occurs in the name rules out every branch whose test
    failed although it lists the keyword, or one the keyword contains. *)
Lemma includes_any_false (name keyword inner : string) (keywords : list string) :
  includes_any name keywords = false →
  includes name keyword = true → includes keyword inner = true →
  inner ∈ keywords → False.
Proof.
  intros Hnone Hinc Hinner Hin.
  rewrite (includes_any_intro name inner keywords) in Hnone; [done| |done].
  by eapply Str.includes_trans.
Qed.

End Category.

Ltac in_list := solve [repeat first [apply list_elem_of_here | apply list_elem_of_further]].

Ltac shadowed keyword inner :=
  match goal with
  | Hnone : includes_any _ ?l = false, Hinc : includes _ keyword = true |- _ =>
      exfalso; apply (Category.includes_any_false _ keyword inner l Hnone Hinc);
      [vm_compute; reflexivity | in_list]
  end.

Ltac branches :=
  repeat match goal with
         | |- context [if includes_any ?n ?l then _ else _] =>
             destruct (includes_any n l) eqn:?
         end.

(** X17: keywords of categorizeIcon that never decide.  A name that
    contains "phone" (so also "smartphone") is Navigation or
    Communication, never Hardware; one that contains "camera" is never
    Image; one that contains "drive_eta" is never Maps; one that contains
    "favorite" or "notification" is never Toggle or Notification: an
    earlier branch lists the keyword, or one it contains, and returns
    first. *)
Theorem categorizeIcon_shadowed_keywords (toLowerCase : string → string)
    (iconName : string) :
  let name := toLowerCase iconName in
  let c := categorizeIcon toLowerCase iconName in
  (includes name "phone" = true → c ∈ ["Navigation"; "Communication"]) ∧
  (includes name "smartphone" = true → c ∈ ["Navigation"; "Communication"]) ∧
  (includes name "camera" = true → c ∈ ["Navigation"; "Communication"; "AV"]) ∧
  (includes name "drive_eta" = true →
     c ∈ ["Navigation"; "Communication"; "AV"; "File"]) ∧
  (includes name "favorite" = true ∨ includes name "notification" = true →
     c ∈ ["Navigation"; "Communication"; "AV"; "File"; "Device"; "Hardware"; "Social"]).
Proof.
  intros name c. subst c. unfold categorizeIcon. fold name.
  repeat split.
  - intros Hk. branches; try in_list; shadowed "phone" "phone".
  - intros Hk. branches; try in_list; shadowed "smartphone" "phone".
  - intros Hk. branches; try in_list; shadowed "camera" "camera".
  - intros Hk. branches; try in_list; shadowed "drive_eta" "drive".
  - intros [Hk|Hk]; branches; try in_list;
      first [shadowed "favorite" "favorite" | shadowed "notification" "notification"].
Qed.

(** X18: the categories listed in getBasicIcons are not those the panel
    shows.  init rebuilds every icon object with the category that
    categorizeIcon computes from its name; for 16 of the 123 basic icons
    this is another category than the one listed.  Each line gives the
    name, the category listed and the category after init.  (The names
    are lower-case already; toLowerCase is assumed to leave them as they
    are.) *)
Theorem basic_icons_recategorized (toLowerCase : string → string) :
  (∀ icon, icon ∈ Icons.getBasicIcons →
     toLowerCase (Icons.name icon) = Icons.name icon) →
  (λ p : Icons.Icon * Icons.Icon,
     (Icons.name p.1, Icons.category p.1, Icons.category p.2)) <$>
    filter (λ p : Icons.Icon * Icons.Icon, Icons.category p.1 ≠ Icons.category p.2)
      (zip Icons.getBasicIcons (Icons.iconObjects toLowerCase Icons.getBasicIcons)) =
  [("favorite", "Toggle", "Social");
   ("play_arrow", "AV", "Navigation");
   ("file_copy", "Content", "File");
   ("photo_camera", "Image", "AV");
   ("check", "Action", "Toggle");
   ("check_circle", "Action", "Toggle");
   ("cancel", "Navigation", "Action");
   ("refresh", "Action", "Notification");
   ("save", "Content", "File");
   ("save_alt", "Content", "File");
   ("update", "Action", "Notification");
   ("attach_file", "Editor", "File");
   ("storage", "Device", "File");
   ("drive_eta", "Maps", "File");
   ("manage_accounts", "Action", "Social");
   ("smartphone", "Hardware", "Communication")].
Proof.
  intros Hlower.
  assert (Icons.iconObjects toLowerCase Icons.getBasicIcons =
          Icons.iconObjects (λ s, s) Icons.getBasicIcons) as ->.
  { unfold Icons.iconObjects. apply Forall_fmap_ext_1, Forall_forall.
    intros icon Hin. unfold categorizeIcon. by rewrite (Hlower icon Hin). }
  vm_compute. reflexivity.
Qed.

Lemma basic_icons_recategorized_witness :
  (λ p : Icons.Icon * Icons.Icon,
     (Icons.name p.1, Icons.category p.1, Icons.category p.2)) <$>
    filter (λ p : Icons.Icon * Icons.Icon, Icons.category p.1 ≠ Icons.category p.2)
      (zip Icons.getBasicIcons (Icons.iconObjects (λ s, s) Icons.getBasicIcons)) =
  [("favorite", "Toggle", "Social");
   ("play_arrow", "AV", "Navigation");
   ("file_copy", "Content", "File");
   ("photo_camera", "Image", "AV");
   ("check", "Action", "Toggle");
   ("check_circle", "Action", "Toggle");
   ("cancel", "Navigation", "Action");
   ("refresh", "Action", "Notification");
   ("save", "Content", "File");
   ("save_alt", "Content", "File");
   ("update", "Action", "Notification");
   ("attach_file", "Editor", "File");
   ("storage", "Device", "File");
   ("drive_eta", "Maps", "File");
   ("manage_accounts", "Action", "Social");
   ("smartphone", "Hardware", "Communication")].
Proof.
  apply (basic_icons_recategorized (λ s, s)). intros icon Hin. reflexivity.
Defined.
